(** * find_gcs: detection of allele conversions inside IBD clusters

    A shallow embedding of [src/find_gcs.py] and the properties of its
    synchronizer, frequency filter, tabulator and partitioner.

    Conventions of the embedding.
    - A Python [int] that holds a position is a [Z]; allele codes, cluster
      ids, list indices and counters are [nat] (the inputs are fields of
      decimal digits).
    - A Python [float] is an IEEE 754 binary64 value, [spec_float] with
      [prec = 53] and [emax = 1024]; the operations are those of
      [SpecFloat], which compute.
    - An uncaught exception (IndexError, ValueError, ZeroDivisionError) is
      [None] in the [option] monad.
    - The lines of the two files are records of parsed fields. A line on
      which [int] or [split('|')[1]] raises (a field such as [0|1:35] or
      an unphased or haploid genotype), or that holds a negative number,
      is not an input of the embedding: what is proved about exceptions
      is proved for lines that parse.
    - [sys.stdout] and [sys.stderr] are strings that grow at their end; the
      [Counter] is a [gmap nat nat]. *)

From Stdlib Require Import ZArith List Bool Lia String Ascii DecimalString.
From Stdlib Require Import Sorting.Sorted.
From Stdlib Require Import Floats.SpecFloat.
From stdpp Require Import base option list gmap strings.

Local Open Scope nat_scope.

(** ** Input records *)

(** A data line of the cluster file after [split()], for a line that
    parses: token 1 is the position, tokens from index 3 on are the phased
    cluster ids [a|b]. *)
Record orec := mk_orec { opos : Z; ocols : list (nat * nat) }.

(** A data line of the VCF after [split()], for a line that parses:
    field 1 is the position; [vcols] holds the fields from index 9 on,
    each a phased genotype [a|b] of two allele codes. *)
Record vrec := mk_vrec { vpos : Z; vcols : list (nat * nat) }.

(** ** Stream synchronizer (lines 89-96) *)

Module Sync.

(** The [while pos > int(onew[1])] loop. [readline()] on the exhausted
    file gives the empty token list, which takes the [break] branch with
    [onew = oprev]. *)
Fixpoint advance (pos : Z) (oprev onew : orec) (rest : list orec)
  : orec * orec * list orec :=
  if (opos onew <? pos)%Z then
    match rest with
    | [] => (onew, onew, [])
    | r :: rest' => advance pos onew r rest'
    end
  else (oprev, onew, rest).

(** [othis = onew if abs(int(onew[1])-pos) < abs(int(oprev[1])-pos) else oprev] *)
Definition select (pos : Z) (oprev onew : orec) : orec :=
  if (Z.abs (opos onew - pos) <? Z.abs (opos oprev - pos))%Z then onew else oprev.

(** Distance of a record to the variant position. *)
Definition dist (pos : Z) (r : orec) : Z := Z.abs (opos r - pos).

(** One variant: advance, then select. *)
Definition sync (pos : Z) (oprev onew : orec) (rest : list orec)
  : orec * (orec * orec * list orec) :=
  let '(p, c, rest') := advance pos oprev onew rest in
  (select pos p c, (p, c, rest')).

(** The records chosen along a sequence of variant positions. *)
Fixpoint run (poss : list Z) (oprev onew : orec) (rest : list orec) : list orec :=
  match poss with
  | [] => []
  | pos :: poss' =>
      let '(othis, (p, c, rest')) := sync pos oprev onew rest in
      othis :: run poss' p c rest'
  end.

End Sync.

(** ** Python primitives used by the script *)

Module Py.

(** [sum] of a list of booleans. *)
Definition sum_bool (l : list bool) : nat := length (List.filter (fun b => b) l).

(** [[i for i in range(len(l)) if p(l[i])]] *)
Definition indices_where {A} (p : A -> bool) (l : list A) : list nat :=
  List.filter (fun i => match l !! i with Some y => p y | None => false end)
              (seq 0 (length l)).

(** A comprehension [[e for e in l if c(e)]] whose condition may raise. *)
Fixpoint filterM {A} (c : A -> option bool) (l : list A) : option (list A) :=
  match l with
  | [] => Some []
  | e :: l' =>
      b ← c e; r ← filterM c l';
      Some (if (b : bool) then e :: r else r)
  end.

(** A [for] loop threading a state through a body that may raise. *)
Fixpoint foldlM {A S} (f : S -> A -> option S) (l : list A) (s : S) : option S :=
  match l with
  | [] => Some s
  | e :: l' => s' ← f s e; foldlM f l' s'
  end.

(** [max] of a list of ints; ValueError on the empty list. *)
Definition max_nat (l : list nat) : option nat :=
  match l with
  | [] => None
  | _ => Some (max_list l)
  end.

(** [zip(a, b, c)] stops at the shortest argument. *)
Fixpoint zip3 {A B C} (a : list A) (b : list B) (c : list C) : list (A * B * C) :=
  match a, b, c with
  | x :: a', y :: b', z :: c' => (x, y, z) :: zip3 a' b' c'
  | _, _, _ => []
  end.

(** The line feed that ends a [print]. *)
Definition nl : string := String (ascii_of_nat 10) EmptyString.

(** [str] of an int. *)
Definition str_nat (k : nat) : string := NilZero.string_of_uint (Nat.to_uint k).
Definition str_Z (z : Z) : string := NilZero.string_of_int (Z.to_int z).

(** *** Floats *)

Definition prec : Z := 53.
Definition emax : Z := 1024.

(** The literals [1.0] and [0]. *)
Definition f_one : spec_float := S754_finite false 4503599627370496 (-52).
Definition f_zero : spec_float := S754_zero false.

(** [float] of an int below [2^53] (exact). *)
Definition of_int (k : nat) : spec_float := binary_normalize prec emax (Z.of_nat k) 0 false.

(** [a / b] on ints: the correctly rounded quotient; ZeroDivisionError
    when [b] is [0]. For operands below [2^53] this is the binary64
    division of the two converted operands. *)
Definition truediv (a b : nat) : option spec_float :=
  if b =? 0 then None else Some (SFdiv prec emax (of_int a) (of_int b)).

Definition fsub (a b : spec_float) : spec_float := SFsub prec emax a b.
Definition flt (a b : spec_float) : bool := SFltb a b.
Definition fgt (a b : spec_float) : bool :=
  match SFcompare a b with Some Gt => true | _ => false end.
Definition feq (a b : spec_float) : bool := SFeqb a b.

(** [max] of a list of floats: the first element that no later one
    exceeds; ValueError on the empty list. *)
Definition max_float (l : list spec_float) : option spec_float :=
  match l with
  | [] => None
  | x :: l' => Some (fold_left (fun m y => if fgt y m then y else m) l' x)
  end.

End Py.

(** ** The script *)

Module Gcs.
Import Py.

(** Lines 17-21. *)
Definition maxmaf : spec_float := f_one.
Definition minclustsize : nat := 4.
Definition minpartsize : nat := 2.
Definition deletion : bool := true.

(** What is fixed before the variant loop: [minaf] (line 17), the column
    of each cluster-file sample in the VCF (line 29; [vindex] here is
    relative to field 9, the first sample field) and [nhaps] (line 80). *)
Record config := mk_config {
  minaf : spec_float;
  vindex : list nat;
  nhaps : nat
}.

(** Lines 31-32. *)
Definition nindiv (cfg : config) : nat := length (vindex cfg).
Definition n (cfg : config) : nat := 2 * nindiv cfg.

(** What the loop writes: the two output channels, [ndel[0]] and the
    [acclustsizes] counter. *)
Record outs := mk_outs {
  out : string;
  err : string;
  ndel : nat;
  acclustsizes : gmap nat nat
}.

Definition outs0 : outs := mk_outs "" "" 0 ∅.

Definition print_out (s : string) (o : outs) : outs :=
  mk_outs (out o +:+ s) (err o) (ndel o) (acclustsizes o).
Definition print_err (s : string) (o : outs) : outs :=
  mk_outs (out o) (err o +:+ s) (ndel o) (acclustsizes o).
Definition incr_ndel (o : outs) : outs :=
  mk_outs (out o) (err o) (S (ndel o)) (acclustsizes o).
(** [Counter.update([k])] *)
Definition counter_update (k : nat) (m : gmap nat nat) : gmap nat nat :=
  <[k := S (default 0 (m !! k))]> m.
Definition update_sizes (k : nat) (o : outs) : outs :=
  mk_outs (out o) (err o) (ndel o) (counter_update k (acclustsizes o)).

(** Lines 37-40; [nindiv] is the global of line 31. *)
Definition is_homozygous (nindiv : nat) (valleles : list nat) (hapindex : nat)
  : option bool :=
  let otherindex :=
    if hapindex <? nindiv then hapindex + nindiv else hapindex - nindiv in
  a ← valleles !! hapindex;
  b ← valleles !! otherindex;
  Some (a =? b).

(** Lines 43-48; the script never calls it. *)
Definition is_correctable (nindiv : nat) (oclust : list nat)
    (counts : list (list nat)) (hapindex : nat) : option bool :=
  let otherindex :=
    if hapindex <? nindiv then hapindex + nindiv else hapindex - nindiv in
  otherclust ← oclust !! otherindex;
  thiscounts ← counts !! otherclust;
  mx ← max_nat thiscounts;
  Some (negb (sum_list thiscounts =? mx)).

(** Line 59. *)
Definition diag_alleles (pos : Z) : string :=
  "more than two alleles in cluster at " +:+ str_Z pos +:+ " printing first two" +:+ nl.

(** Line 110. *)
Definition diag_mismatch : string :=
  "files don't match in number of individuals" +:+ nl.

(** Line 73, with the local [nindiv = nhaps/2] of line 61, a float.
    [int(i % (nhaps/2))] is [(2*i mod nhaps) / 2] and [int(i/(nhaps/2))]
    is [2*i / nhaps]; the float operations are exact at these sizes. The
    modulo raises when [nhaps] is [0]. *)
Definition hap_id (nhaps i : nat) : option string :=
  if nhaps =? 0 then None
  else Some (str_nat ((2 * i) mod nhaps / 2) +:+ ":" +:+ str_nat (2 * i / nhaps)).

(** Lines 71-74: the text of one report. *)
Definition report_line (pos : Z) (n0 n1 : nat) (ids : list string) : string :=
  str_Z pos +:+ " " +:+ str_nat n0 +:+ " " +:+ str_nat n1 +:+ " "
  +:+ String.concat "" (map (fun s => s +:+ " ") ids) +:+ nl.

(** Lines 67-68: positions in [hapindices] whose allele is [whichalleles[k]]. *)
Definition which (valleles hapindices whichalleles : list nat) (k : nat)
  : option (list nat) :=
  filterM (fun i =>
             h ← hapindices !! i;
             a ← valleles !! h;
             w ← whichalleles !! k;
             Some (a =? w))
          (seq 0 (length hapindices)).

(** Lines 54-75: the body of the loop of [print_gcs] for one [(j, x, z)]. *)
Definition cluster_body (nindiv : nat) (valleles oclust : list nat) (pos : Z)
    (o : outs) (jxz : nat * list nat * nat) : option outs :=
  let '(j, x, z) := jxz in
  if z <? minclustsize then Some o else
  let doubleplus := map (fun y => minpartsize <=? y) x in
  if sum_bool doubleplus <=? 1 then Some o else
  let o := if 2 <? sum_bool doubleplus then print_err (diag_alleles pos) o else o in
  let nhaps := length oclust in
  let hapindices := indices_where (fun c => c =? j) oclust in
  homozygous ← mapM (is_homozygous nindiv valleles) hapindices;
  if deletion && forallb (fun b => b) homozygous then Some (incr_ndel o) else
  let whichalleles := indices_where (fun c => 1 <? c) x in
  which0 ← which valleles hapindices whichalleles 0;
  which1 ← which valleles hapindices whichalleles 1;
  hapindices0 ← mapM (fun i => hapindices !! i) which0;
  hapindices1 ← mapM (fun i => hapindices !! i) which1;
  ids ← mapM (hap_id nhaps) (hapindices0 ++ hapindices1);
  Some (update_sizes (length hapindices)
          (print_out (report_line pos (length hapindices0) (length hapindices1) ids) o)).

(** Lines 51-75. *)
Definition print_gcs (nindiv : nat) (valleles oclust : list nat)
    (counts : list (list nat)) (pos : Z) (clustsize : list nat) (o : outs)
  : option outs :=
  let nclust := length oclust in
  foldlM (cluster_body nindiv valleles oclust pos)
         (zip3 (seq 0 nclust) counts clustsize) o.

(** Line 98, on a line whose fields parse: the alleles of side 0 of
    every individual, then those of side 1. [vbits[i]] raises when the
    line has no field [i]. *)
Definition valleles_of (vindex : list nat) (v : vrec) : option (list nat) :=
  gs ← mapM (fun i => vcols v !! i) vindex;
  Some (map fst gs ++ map snd gs).

(** Line 108. *)
Definition oclust_of (r : orec) : list nat :=
  map fst (ocols r) ++ map snd (ocols r).

(** Line 104. *)
Definition allelefreqs_of (n : nat) (valleles : list nat) (maxalleleplus : nat)
  : option (list spec_float) :=
  mapM (fun i => truediv (sum_bool (map (fun x => x =? i) valleles)) n)
       (seq 0 maxalleleplus).

(** Lines 115-116. *)
Definition tabulate_step (oclust valleles : list nat)
    (acc : list (list nat) * list nat) (i : nat)
  : option (list (list nat) * list nat) :=
  let '(counts, clustsize) := acc in
  c ← oclust !! i;
  row ← counts !! c;
  a ← valleles !! i;
  k ← row !! a;
  s ← clustsize !! c;
  Some (<[c := <[a := S k]> row]> counts, <[c := S s]> clustsize).

(** Lines 112-116. *)
Definition tabulate (nhaps : nat) (oclust valleles : list nat)
    (maxclustplus maxalleleplus : nat)
  : option (list (list nat) * list nat) :=
  foldlM (tabulate_step oclust valleles) (seq 0 nhaps)
         (replicate maxclustplus (replicate maxalleleplus 0),
          replicate maxclustplus 0).

(** Lines 122-123: [for x in counts: x[i] = 0]. *)
Definition zero_allele (i : nat) (counts : list (list nat))
  : option (list (list nat)) :=
  mapM (fun x : list nat => if i <? length x then Some (<[i := 0]> x) else None)
       counts.

(** Lines 118-123. *)
Definition collapse_rare (minaf : spec_float) (nalleles : nat)
    (allelefreqs : list spec_float) (maxalleleplus : nat)
    (counts : list (list nat)) : option (list (list nat)) :=
  if 2 <? nalleles then
    if 2 <? sum_bool (map (fun x => fgt x f_zero) allelefreqs) then
      foldlM (fun counts i =>
                f ← allelefreqs !! i;
                if flt f minaf then zero_allele i counts else Some counts)
             (seq 0 maxalleleplus) counts
    else Some counts
  else Some counts.

(** The state of the variant loop: the two buffered cluster lines, what
    is left of the cluster file, and what has been written. *)
Record state := mk_state {
  oprev : orec;
  onew : orec;
  omibdfile : list orec;
  outputs : outs
}.

(** Lines 103-105: [maxalleleplus], [allelefreqs] and [maf]. *)
Definition allele_stats (n : nat) (valleles : list nat)
  : option (nat * list spec_float * spec_float) :=
  m ← max_nat (remove_dups valleles);
  let maxalleleplus := m + 1 in
  allelefreqs ← allelefreqs_of n valleles maxalleleplus;
  mx ← max_float allelefreqs;
  Some (maxalleleplus, allelefreqs, fsub f_one mx).

(** Which [continue] of lines 102, 106 and 107 a variant takes, if any. *)
Inductive skip_reason := Monomorphic | AboveMax | BelowMin.

Inductive verdict :=
| Skip (r : skip_reason)
| Keep (nalleles maxalleleplus : nat) (allelefreqs : list spec_float).

(** Lines 100-107. *)
Definition frequency_filter (cfg : config) (valleles : list nat) : option verdict :=
  let uniqalleles := remove_dups valleles in
  let nalleles := length uniqalleles in
  if nalleles =? 1 then Some (Skip Monomorphic) else
  '(maxalleleplus, allelefreqs, maf) ← allele_stats (n cfg) valleles;
  if fgt maf maxmaf then Some (Skip AboveMax) else
  if flt maf (minaf cfg) then Some (Skip BelowMin) else
  Some (Keep nalleles maxalleleplus allelefreqs).

(** Lines 108-124: what is done with a variant that took no [continue]. *)
Definition analyse (cfg : config) (othis : orec) (pos : Z) (valleles : list nat)
    (nalleles maxalleleplus : nat) (allelefreqs : list spec_float) (o : outs)
  : option outs :=
  let oclust := oclust_of othis in
  let o := if negb (length valleles =? nhaps cfg)
           then print_err diag_mismatch o else o in
  mc ← max_nat oclust;
  let maxclustplus := mc + 1 in
  '(counts, clustsize) ← tabulate (nhaps cfg) oclust valleles maxclustplus maxalleleplus;
  counts ← collapse_rare (minaf cfg) nalleles allelefreqs maxalleleplus counts;
  print_gcs (nindiv cfg) valleles oclust counts pos clustsize o.

(** Lines 86-124: the body of the variant loop for one data line. *)
Definition process_variant (cfg : config) (st : state) (v : vrec) : option state :=
  let pos := vpos v in
  let '(othis, (p, c, rest)) :=
    Sync.sync pos (oprev st) (onew st) (omibdfile st) in
  valleles ← valleles_of (vindex cfg) v;
  vd ← frequency_filter cfg valleles;
  match vd with
  | Skip _ => Some (mk_state p c rest (outputs st))
  | Keep nalleles maxalleleplus allelefreqs =>
      o ← analyse cfg othis pos valleles nalleles maxalleleplus allelefreqs (outputs st);
      Some (mk_state p c rest o)
  end.

(** Lines 79-82: the first data line of the cluster file fills both
    buffers and fixes [nhaps]. A cluster file with no data line is the
    first case of [run_files] below. *)
Definition start (minaf : spec_float) (vindex : list nat)
    (first : orec) (rest : list orec) : config * state :=
  (mk_config minaf vindex (2 * length (ocols first)),
   mk_state first first rest outs0).

(** Lines 83-124: the variant loop over the data lines of the VCF. *)
Definition main_loop (cfg : config) (st : state) (vlines : list vrec) : option state :=
  foldlM (process_variant cfg) vlines st.

(** Lines 79-124 on the data lines of the two files. When the cluster
    file has no data line, line 79 leaves [oprev] and [onew] empty and the
    first data line of the VCF raises at line 89, on [onew[1]]. *)
Definition run_files (minaf : spec_float) (vindex : list nat)
    (ofile : list orec) (vlines : list vrec) : option outs :=
  match ofile with
  | [] => match vlines with [] => Some outs0 | _ :: _ => None end
  | first :: rest =>
      let '(cfg, st) := start minaf vindex first rest in
      st' ← main_loop cfg st vlines; Some (outputs st')
  end.

End Gcs.

(** ** Matching the samples of the two files (line 29) *)

Module Setup.

(** [vids.index(thisid)]: the first position that holds [thisid];
    ValueError when no position does. *)
Fixpoint index (thisid : string) (vids : list string) : option nat :=
  match vids with
  | [] => None
  | vid :: vids' =>
      if String.eqb vid thisid then Some 0 else i ← index thisid vids'; Some (S i)
  end.

(** Line 29. [ids] are the tokens of the first line of the cluster file
    from index 3 on (line 23) and [vids] those of the header line of the
    VCF from index 9 on (line 27). The result is relative to field 9,
    as [vindex] is in [Gcs.config]. *)
Definition vindex_of (ids vids : list string) : option (list nat) :=
  mapM (fun thisid => index thisid vids) ids.

End Setup.

(** * Properties *)

(** ** The synchronizer *)

Module SyncFacts.
Import Sync.
Local Open Scope Z_scope.

Lemma select_cases pos p c :
  (dist pos c < dist pos p ∧ select pos p c = c) ∨
  (dist pos p <= dist pos c ∧ select pos p c = p).
Proof.
  unfold select, dist.
  destruct (Z.ltb_spec (Z.abs (opos c - pos)) (Z.abs (opos p - pos))); [left|right]; auto.
Qed.

Lemma last_cons {A} (rest : list A) : ∀ r d,
  List.last (r :: rest) d = List.last rest r.
Proof.
  induction rest as [|x rest IH]; intros r d; [reflexivity|].
  change (List.last (x :: rest) d = List.last (x :: rest) r).
  rewrite !IH. reflexivity.
Qed.

(** The loop stops on a record at or after the variant, or on the last
    record of the file, which then fills both buffers. *)
Lemma advance_exit pos rest : ∀ oprev onew p c rest',
  advance pos oprev onew rest = (p, c, rest') →
  pos <= opos c ∨ (p = c ∧ rest' = [] ∧ c = List.last rest onew).
Proof.
  induction rest as [|r rest IH]; intros oprev onew p c rest' H; cbn [advance] in H.
  - destruct (Z.ltb_spec (opos onew) pos); inversion H; subst; auto.
  - destruct (Z.ltb_spec (opos onew) pos).
    + apply IH in H. destruct H as [H|(-> & -> & ->)]; auto.
      right. repeat split. symmetry. apply last_cons.
    + inversion H; subst. left; lia.
Qed.

(** When every record left lies before the variant the file runs out. *)
Lemma advance_exhausted pos rest : ∀ oprev onew,
  Forall (λ r, opos r < pos) (onew :: rest) →
  advance pos oprev onew rest = (List.last rest onew, List.last rest onew, []).
Proof.
  induction rest as [|r rest IH]; intros oprev onew H; cbn [advance].
  - inversion H; subst. destruct (Z.ltb_spec (opos onew) pos); [reflexivity|lia].
  - inversion H as [|? ? Hlt Hrest]; subst.
    destruct (Z.ltb_spec (opos onew) pos); [|lia].
    rewrite IH by assumption. rewrite (last_cons rest r onew). reflexivity.
Qed.

(** Once both buffers hold the same record and the file is empty, nothing
    changes any more. *)
Lemma advance_frozen pos c : advance pos c c [] = (c, c, []).
Proof. simpl. destruct (opos c <? pos); reflexivity. Qed.

Lemma select_same pos c : select pos c c = c.
Proof. unfold select. destruct (_ <? _); reflexivity. Qed.

Lemma run_frozen later : ∀ c, run later c c [] = repeat c (length later).
Proof.
  induction later as [|pos later IH]; intros c; [reflexivity|].
  cbn [run]. unfold sync. rewrite advance_frozen, select_same.
  cbn [length repeat]. f_equal. apply IH.
Qed.

(** C2. After the cluster file has been advanced for a variant position,
    the record used is one of the two buffered ones (previous, current),
    no farther from the variant than either of them; the current record is
    taken only when it is strictly nearer, so at equal distance the
    previous (earlier) record is the one selected. *)
Theorem C2_sync_selects_nearest pos oprev onew rest othis p c rest' :
  sync pos oprev onew rest = (othis, (p, c, rest')) →
  (othis = p ∨ othis = c) ∧
  dist pos othis <= dist pos p ∧
  dist pos othis <= dist pos c ∧
  (othis = c → c ≠ p → dist pos c < dist pos p) ∧
  (dist pos p = dist pos c → othis = p).
Proof.
  unfold sync. destruct (advance pos oprev onew rest) as [[p0 c0] r0].
  intros H; inversion H; subst; clear H.
  destruct (select_cases pos p c) as [[Hlt ->]|[Hle ->]].
  - repeat split; auto; lia.
  - repeat split; auto; try lia. intros -> Hne. congruence.
Qed.

Lemma C2_sync_selects_nearest_witness :
  let a := mk_orec 100 [] in
  let b := mk_orec 200 [] in
  sync 150 a a [b] = (a, (a, b, [])) ∧
  dist 150 a = dist 150 b ∧
  dist 150 a <= dist 150 b.
Proof.
  intros a b.
  split; [reflexivity|]. split; [reflexivity|].
  apply (C2_sync_selects_nearest 150 a a [b] a a b []). reflexivity.
Defined.

(** C9. When the cluster file runs out while the loop is still looking
    for a record at or after the variant (every record left lies before
    it), the last record read fills both buffers, it is the record used
    for this variant and for every later one, whatever their positions,
    and the synchronizer returns a record for each of them. *)
Theorem C9_sync_freezes_on_last pos oprev onew rest (later : list Z) :
  Forall (λ r, opos r < pos) (onew :: rest) →
  let lastrec := List.last rest onew in
  sync pos oprev onew rest = (lastrec, (lastrec, lastrec, [])) ∧
  run later lastrec lastrec [] = repeat lastrec (length later) ∧
  run (pos :: later) oprev onew rest = repeat lastrec (S (length later)).
Proof.
  intros H lastrec.
  assert (Hs : sync pos oprev onew rest = (lastrec, (lastrec, lastrec, []))).
  { unfold sync. rewrite advance_exhausted by assumption.
    fold lastrec. rewrite select_same. reflexivity. }
  split; [exact Hs|]. split; [apply run_frozen|].
  cbn [run]. rewrite Hs. cbn [repeat]. f_equal. apply run_frozen.
Qed.

Lemma C9_sync_freezes_on_last_witness :
  let a := mk_orec 100 [] in
  let b := mk_orec 200 [] in
  run [250; 300; 120] a a [b] = [b; b; b].
Proof.
  intros a b.
  apply (C9_sync_freezes_on_last 250 a a [b] [300; 120]).
  repeat constructor.
Defined.

End SyncFacts.

(** ** The variant loop: monomorphic sites *)

Module VariantFacts.
Import Py Gcs.

Lemma remove_dups_constant (a : nat) (l : list nat) :
  l ≠ [] → Forall (eq a) l → remove_dups l = [a].
Proof.
  induction l as [|x l IH]; [congruence|].
  intros _ H. inversion H as [|? ? Hx Hl]; subst x.
  destruct l as [|y l]; [reflexivity|].
  assert (Hin : a ∈ y :: l).
  { inversion Hl; subst. left. }
  cbn [remove_dups].
  destruct (decide_rel elem_of a (y :: l)) as [_|Hn]; [|contradiction].
  apply IH; [congruence|assumption].
Qed.

(** C8. A variant at which every haplotype carries the same allele code
    takes the [continue] of line 102: the loop body ends with the output,
    the diagnostics, the deletion counter and the size counter all as they
    were. *)
Theorem C8_monomorphic_skipped cfg st v valleles a :
  valleles_of (vindex cfg) v = Some valleles →
  valleles ≠ [] →
  Forall (eq a) valleles →
  frequency_filter cfg valleles = Some (Skip Monomorphic) ∧
  ∃ st', process_variant cfg st v = Some st' ∧ outputs st' = outputs st.
Proof.
  intros Hv Hne Hall.
  assert (Hf : frequency_filter cfg valleles = Some (Skip Monomorphic)).
  { unfold frequency_filter. rewrite (remove_dups_constant a) by assumption.
    reflexivity. }
  split; [exact Hf|].
  unfold process_variant.
  destruct (Sync.sync _ _ _ _) as [othis [[p c] rest]].
  rewrite Hv. cbn [mbind option_bind]. rewrite Hf. cbn [mbind option_bind].
  eexists; split; reflexivity.
Qed.

Lemma C8_monomorphic_skipped_witness :
  let cfg := mk_config (S754_zero false) [0; 1] 4 in
  let o := mk_orec 5 [(0, 0); (0, 0)] in
  let st := mk_state o o [] (mk_outs "x" "y" 3 ∅) in
  ∃ st', process_variant cfg st (mk_vrec 7 [(1, 1); (1, 1)]) = Some st'
         ∧ outputs st' = outputs st.
Proof.
  intros cfg o st.
  apply (C8_monomorphic_skipped cfg st (mk_vrec 7 [(1, 1); (1, 1)]) [1; 1; 1; 1] 1).
  - reflexivity.
  - discriminate.
  - repeat constructor.
Defined.

End VariantFacts.

(** ** Comprehensions over indices *)

Module PyFacts.
Import Py.

Lemma indices_where_nil {A} (p : A → bool) : indices_where p [] = [].
Proof. reflexivity. Qed.

Lemma indices_where_cons {A} (p : A → bool) (x : A) (l : list A) :
  indices_where p (x :: l)
  = (if p x then [0] else []) ++ map S (indices_where p l).
Proof.
  unfold indices_where. cbn [length seq List.filter lookup list_lookup].
  rewrite <- seq_shift, filter_map_swap.
  destruct (p x); reflexivity.
Qed.

Lemma length_indices_where {A} (p : A → bool) (l : list A) :
  length (indices_where p l) = sum_bool (map p l).
Proof.
  unfold sum_bool. induction l as [|x l IH]; [reflexivity|].
  rewrite indices_where_cons, length_app, length_map, IH.
  cbn [map List.filter]. destruct (p x); reflexivity.
Qed.

Lemma elem_of_indices_where {A} (p : A → bool) (l : list A) (i : nat) :
  In i (indices_where p l) ↔ ∃ y, l !! i = Some y ∧ p y = true.
Proof.
  unfold indices_where. rewrite filter_In, in_seq.
  split.
  - intros [_ H]. destruct (l !! i) as [y|]; [eauto|discriminate].
  - intros (y & Hy & Hp). split.
    + apply lookup_lt_Some in Hy. lia.
    + rewrite Hy. exact Hp.
Qed.

Lemma indices_where_lt {A} (p : A → bool) (l : list A) :
  Forall (λ i, i < length l) (indices_where p l).
Proof.
  apply List.Forall_forall. intros i Hi.
  apply elem_of_indices_where in Hi as (y & Hy & _).
  eapply lookup_lt_Some; eassumption.
Qed.

(** The indices come out in increasing order. *)
Lemma filter_seq_head (f : nat → bool) (len : nat) : ∀ start a rest,
  List.filter f (seq start len) = a :: rest →
  start ≤ a ∧ ∃ len', rest = List.filter f (seq (S a) len').
Proof.
  induction len as [|len IH]; intros start a rest H; [discriminate|].
  cbn [seq List.filter] in H.
  destruct (f start).
  - inversion H; subst. split; [lia|]. exists len. reflexivity.
  - apply IH in H as [Hle Hex]. split; [lia|exact Hex].
Qed.

Lemma filter_seq_ascending (f : nat → bool) (len start : nat) a b rest :
  List.filter f (seq start len) = a :: b :: rest →
  a < b ∧ Forall (λ c, b < c) rest.
Proof.
  intros H. apply filter_seq_head in H as [_ [len1 H1]].
  symmetry in H1. apply filter_seq_head in H1 as [Hab [len2 ->]].
  split; [lia|].
  apply List.Forall_forall. intros c Hc.
  apply filter_In in Hc as [Hc _]. apply in_seq in Hc. lia.
Qed.

Lemma indices_where_ascending {A} (p : A → bool) (l : list A) a b rest :
  indices_where p l = a :: b :: rest → a < b ∧ Forall (λ c, b < c) rest.
Proof. apply filter_seq_ascending. Qed.

Lemma forallb_id_false_nonempty (l : list bool) :
  forallb (λ b, b) l = false → l ≠ [].
Proof. destruct l; [discriminate|congruence]. Qed.

End PyFacts.

(** ** Strings *)

Module StrFacts.

Lemma append_assoc (a b c : string) : (a +:+ b) +:+ c = a +:+ (b +:+ c).
Proof.
  induction a as [|ch a IH]; [reflexivity|].
  change (String ch ((a +:+ b) +:+ c) = String ch (a +:+ (b +:+ c))).
  rewrite IH. reflexivity.
Qed.

Lemma append_empty_r (a : string) : a +:+ "" = a.
Proof.
  induction a as [|ch a IH]; [reflexivity|].
  change (String ch (a +:+ "") = String ch a).
  rewrite IH. reflexivity.
Qed.

(** Printing every token with [end=' '] gives the tokens joined by single
    blanks, and one more blank. *)
Lemma concat_blank_each (toks : list string) : ∀ t,
  String.concat " " (t :: toks) +:+ " "
  = t +:+ " " +:+ String.concat "" (map (λ s, s +:+ " ") toks).
Proof.
  induction toks as [|t' toks IH]; intros t.
  - cbn [String.concat map]. rewrite append_empty_r. reflexivity.
  - change (String.concat " " (t :: t' :: toks))
      with (t +:+ " " +:+ String.concat " " (t' :: toks)).
    rewrite !append_assoc, IH.
    cbn [map]. destruct toks as [|t'' toks].
    + cbn [String.concat map]. rewrite !append_empty_r. reflexivity.
    + cbn [map].
      change (String.concat "" ((t' +:+ " ") :: (t'' +:+ " ") :: map (λ s, s +:+ " ") toks))
        with ((t' +:+ " ") +:+ "" +:+ String.concat "" ((t'' +:+ " ") :: map (λ s, s +:+ " ") toks)).
      cbn [map]. rewrite !append_assoc. reflexivity.
Qed.

End StrFacts.

(** ** The loop body of [print_gcs] *)

Module ClusterFacts.
Import Py Gcs PyFacts.

(** The haplotypes that the cluster record puts in cluster [j]
    ([hapindices]), the candidate alleles of a count row ([whichalleles]),
    the members of cluster [j] that carry allele [a], and the identity
    printed for haplotype [h]. *)
Local Abbreviation members oclust j := (indices_where (λ c, c =? j) oclust).
Local Abbreviation candidates x := (indices_where (λ c, 1 <? c) x).
Local Abbreviation carriers valleles oclust j a :=
  (List.filter (λ h, match valleles !! h with Some b => b =? a | None => false end)
               (members oclust j)).
Local Abbreviation ident nh :=
  (λ h, str_nat ((2 * h) mod nh / 2) +:+ ":" +:+ str_nat (2 * h / nh)).
Local Abbreviation npart x := (sum_bool (map (λ y, minpartsize <=? y) x)).

Lemma is_homozygous_Some nindiv (valleles : list nat) h b :
  is_homozygous nindiv valleles h = Some b → h < length valleles.
Proof.
  unfold is_homozygous. destruct (valleles !! h) as [a|] eqn:Ha; [|discriminate].
  intros _. eapply lookup_lt_Some; eassumption.
Qed.

Lemma is_homozygous_total nindiv (valleles : list nat) h :
  length valleles = 2 * nindiv → h < length valleles →
  is_Some (is_homozygous nindiv valleles h).
Proof.
  intros Hlen Hh. unfold is_homozygous.
  destruct (lookup_lt_is_Some_2 valleles h Hh) as [a ->].
  cbn [mbind option_bind].
  assert (Ho : (if h <? nindiv then h + nindiv else h - nindiv) < length valleles).
  { destruct (Nat.ltb_spec h nindiv); lia. }
  destruct (lookup_lt_is_Some_2 valleles _ Ho) as [b ->].
  cbn [mbind option_bind]. eauto.
Qed.

Lemma mapM_hap_id nh (l : list nat) :
  nh ≠ 0 → mapM (hap_id nh) l = Some (map (ident nh) l).
Proof.
  intros Hnh. apply mapM_Some_2.
  induction l as [|h l IH]; constructor; [|exact IH].
  unfold hap_id. destruct (Nat.eqb_spec nh 0); [contradiction|reflexivity].
Qed.

Lemma which_go (valleles ws : list nat) k w (suf : list nat) : ∀ pre : list nat,
  ws !! k = Some w →
  Forall (λ h, h < length valleles) suf →
  ∃ wh,
    filterM (λ i, h ← (pre ++ suf) !! i; a ← valleles !! h; w ← ws !! k; Some (a =? w))
            (seq (length pre) (length suf)) = Some wh ∧
    mapM (λ i, (pre ++ suf) !! i) wh
    = Some (List.filter (λ h, match valleles !! h with Some b => b =? w | None => false end) suf).
Proof.
  induction suf as [|h suf IH]; intros pre Hw Hall.
  - exists []. split; reflexivity.
  - inversion Hall as [|? ? Hh Hsuf]; subst.
    destruct (IH (pre ++ [h]) Hw Hsuf) as (wh & Hf & Hm).
    rewrite <- app_assoc in Hf, Hm. cbn [app] in Hf, Hm.
    rewrite length_app in Hf. cbn [length] in Hf.
    replace (length pre + 1) with (S (length pre)) in Hf by lia.
    destruct (lookup_lt_is_Some_2 valleles h Hh) as [a Ha].
    cbn [length seq filterM]. rewrite Hf.
    rewrite list_lookup_middle by reflexivity.
    cbn [mbind option_bind]. rewrite Ha. cbn [mbind option_bind].
    rewrite Hw. cbn [mbind option_bind].
    cbn [List.filter]. rewrite Ha.
    destruct (a =? w).
    + eexists; split; [reflexivity|].
      apply mapM_Some_2. constructor.
      * apply list_lookup_middle. reflexivity.
      * apply mapM_Some_1. exact Hm.
    + eexists; split; [reflexivity|exact Hm].
Qed.

Lemma which_carriers (valleles hapindices ws : list nat) k w :
  ws !! k = Some w →
  Forall (λ h, h < length valleles) hapindices →
  ∃ wh, which valleles hapindices ws k = Some wh ∧
        mapM (λ i, hapindices !! i) wh
        = Some (List.filter (λ h, match valleles !! h with Some b => b =? w | None => false end)
                            hapindices).
Proof. intros Hw Hall. exact (which_go valleles ws k w hapindices [] Hw Hall). Qed.

Lemma npart_candidates (x : list nat) : length (candidates x) = npart x.
Proof.
  rewrite length_indices_where. reflexivity.
Qed.

(** What the body does for a cluster that is large enough and has two
    candidate alleles or more, once the homozygosity of its members has
    been evaluated. *)
Lemma cluster_body_eval nindiv (valleles oclust : list nat) pos o j x z hz :
  mapM (is_homozygous nindiv valleles) (members oclust j) = Some hz →
  minclustsize ≤ z → 2 ≤ npart x →
  ∃ a0 a1 others,
    candidates x = a0 :: a1 :: others ∧
    cluster_body nindiv valleles oclust pos o (j, x, z)
    = Some (let o1 := if 2 <? npart x then print_err (diag_alleles pos) o else o in
            if forallb (λ b, b) hz then incr_ndel o1
            else
              let sub0 := carriers valleles oclust j a0 in
              let sub1 := carriers valleles oclust j a1 in
              update_sizes (length (members oclust j))
                (print_out (report_line pos (length sub0) (length sub1)
                              (map (ident (length oclust)) (sub0 ++ sub1))) o1)).
Proof.
  intros Hhz Hz Hx.
  pose proof (npart_candidates x) as Hlen.
  destruct (candidates x) as [|a0 [|a1 others]] eqn:Hc; cbn [length] in Hlen; try lia.
  exists a0, a1, others. split; [reflexivity|].
  unfold cluster_body.
  destruct (Nat.ltb_spec z minclustsize); [lia|].
  destruct (Nat.leb_spec (npart x) 1); [lia|].
  rewrite Hhz. cbn [mbind option_bind]. unfold deletion. cbn [andb].
  destruct (forallb (λ b, b) hz) eqn:Hall; [reflexivity|].
  rewrite Hc.
  assert (Hlt : Forall (λ h, h < length valleles) (members oclust j)).
  { apply mapM_Some_1 in Hhz. clear -Hhz.
    induction Hhz; constructor; eauto using is_homozygous_Some. }
  destruct (which_carriers valleles (members oclust j) (a0 :: a1 :: others) 0 a0
              eq_refl Hlt) as (w0 & Hw0 & Hm0).
  destruct (which_carriers valleles (members oclust j) (a0 :: a1 :: others) 1 a1
              eq_refl Hlt) as (w1 & Hw1 & Hm1).
  rewrite Hw0. cbn [mbind option_bind]. rewrite Hw1. cbn [mbind option_bind].
  rewrite Hm0. cbn [mbind option_bind]. rewrite Hm1. cbn [mbind option_bind].
  assert (Hnh : length oclust ≠ 0).
  { intros Hnil. apply length_zero_iff_nil in Hnil. subst oclust.
    cbn in Hhz. inversion Hhz; subst. discriminate. }
  rewrite (mapM_hap_id _ _ Hnh). reflexivity.
Qed.

(** With the two files aligned no index leaves its list. *)
Lemma homozygous_total nindiv (valleles oclust : list nat) j :
  length valleles = 2 * nindiv → length oclust ≤ length valleles →
  ∃ hz, mapM (is_homozygous nindiv valleles) (members oclust j) = Some hz.
Proof.
  intros Hlen Hle.
  apply mapM_is_Some_2. apply List.Forall_forall. intros h Hh.
  apply is_homozygous_total; [assumption|].
  pose proof (indices_where_lt (λ c, c =? j) oclust) as Hall.
  rewrite List.Forall_forall in Hall. specialize (Hall h Hh). lia.
Qed.

Lemma skip_small nindiv (valleles oclust : list nat) pos o j x z :
  z < minclustsize → cluster_body nindiv valleles oclust pos o (j, x, z) = Some o.
Proof.
  intros Hz. unfold cluster_body.
  destruct (Nat.ltb_spec z minclustsize); [reflexivity|lia].
Qed.

Lemma skip_unmixed nindiv (valleles oclust : list nat) pos o j x z :
  npart x ≤ 1 → cluster_body nindiv valleles oclust pos o (j, x, z) = Some o.
Proof.
  intros Hx. unfold cluster_body.
  destruct (z <? minclustsize); [reflexivity|].
  destruct (Nat.leb_spec (npart x) 1); [reflexivity|lia].
Qed.

(** The cases of the body, read off a run that raised nothing. *)
Lemma cluster_body_inv nindiv (valleles oclust : list nat) pos o j x z o' :
  cluster_body nindiv valleles oclust pos o (j, x, z) = Some o' →
  o' = o ∨
  (minclustsize ≤ z ∧ 2 ≤ npart x ∧
   ∃ hz, mapM (is_homozygous nindiv valleles) (members oclust j) = Some hz).
Proof.
  intros H.
  destruct (Nat.lt_ge_cases z minclustsize) as [Hz|Hz].
  { rewrite skip_small in H by assumption. left; congruence. }
  destruct (Nat.le_gt_cases (npart x) 1) as [Hx|Hx].
  { rewrite skip_unmixed in H by assumption. left; congruence. }
  right. split; [assumption|]. split; [lia|].
  unfold cluster_body in H.
  destruct (Nat.ltb_spec z minclustsize); [lia|].
  destruct (Nat.leb_spec (npart x) 1); [lia|].
  destruct (mapM _ _) as [hz|]; [eauto|discriminate].
Qed.

Lemma ident_even (k h : nat) :
  k ≠ 0 → (2 * h) mod (2 * k) / 2 = h mod k ∧ 2 * h / (2 * k) = h / k.
Proof.
  intros Hk. split.
  - rewrite Nat.Div0.mul_mod_distr_l. rewrite Nat.mul_comm.
    apply Nat.div_mul. lia.
  - apply Nat.Div0.div_mul_cancel_l. lia.
Qed.

Lemma filter_disjoint_length {A} (p q : A → bool) (l : list A) :
  (∀ a, p a = true → q a = true → False) →
  length (List.filter p l) + length (List.filter q l) ≤ length l.
Proof.
  intros Hpq. induction l as [|a l IH]; [reflexivity|].
  cbn [List.filter]. specialize (Hpq a).
  destruct (p a), (q a); cbn [length]; first [lia | exfalso; auto].
Qed.

Lemma filter_cover_length {A} (p q : A → bool) (l : list A) :
  (∀ a, p a = true → q a = true → False) →
  Forall (λ a, p a = true ∨ q a = true) l →
  length (List.filter p l) + length (List.filter q l) = length l.
Proof.
  intros Hpq Hall. induction Hall as [|a l Ha Hall IH]; [reflexivity|].
  cbn [List.filter]. specialize (Hpq a).
  destruct (p a), (q a); cbn [length];
    first [lia | exfalso; auto; fail | destruct Ha; discriminate].
Qed.

(** The body on a cluster of size at least 4 with at least two
    candidate alleles: when every haplotype of the cluster, whatever
    allele it carries, belongs to a homozygous individual, the body raises
    nothing, the deletion counter goes up by exactly one, no report is
    written and the size counter is left alone. *)
Lemma body_all_homozygous nindiv (valleles oclust : list nat) pos o j x z :
  minclustsize ≤ z →
  2 ≤ npart x →
  Forall (λ h, is_homozygous nindiv valleles h = Some true) (members oclust j) →
  ∃ o', cluster_body nindiv valleles oclust pos o (j, x, z) = Some o' ∧
        ndel o' = S (ndel o) ∧ out o' = out o ∧
        acclustsizes o' = acclustsizes o.
Proof.
  intros Hz Hx Hall.
  set (hz := map (λ _ : nat, true) (members oclust j)).
  assert (Hhz : mapM (is_homozygous nindiv valleles) (members oclust j) = Some hz).
  { apply mapM_Some_2. subst hz. clear -Hall.
    induction Hall; constructor; assumption. }
  assert (Htrue : forallb (λ b, b) hz = true).
  { subst hz. clear. induction (members oclust j); [reflexivity|assumption]. }
  destruct (cluster_body_eval nindiv valleles oclust pos o j x z hz Hhz Hz Hx)
    as (a0 & a1 & others & _ & ->).
  eexists. split; [reflexivity|]. cbv zeta. rewrite Htrue.
  destruct (2 <? npart x); repeat split; reflexivity.
Qed.

(** C1, as worded, fails: in a cluster whose two candidate alleles are
    carried by homozygous individuals only, one more member that carries a
    third allele and is heterozygous makes the body write a report and
    leave the deletion counter alone. *)
Lemma C1_counterexample :
  ¬ (∀ nindiv (valleles oclust : list nat) pos o j x z o' a0 a1,
       minclustsize ≤ z →
       candidates x = [a0; a1] →
       (∀ h, In h (members oclust j) →
             valleles !! h = Some a0 ∨ valleles !! h = Some a1 →
             is_homozygous nindiv valleles h = Some true) →
       cluster_body nindiv valleles oclust pos o (j, x, z) = Some o' →
       ndel o' = S (ndel o) ∧ out o' = out o).
Proof.
  intros H.
  specialize (H 5 [0; 0; 1; 1; 2; 0; 0; 1; 1; 0] [0; 0; 0; 0; 0; 1; 2; 3; 4; 5]
                100%Z outs0 0 [2; 2; 1] 5
                (mk_outs ("100 2 2 0:0 1:0 2:0 3:0 " +:+ nl) "" 0 {[5 := 1]}) 0 1).
  specialize (H ltac:(unfold minclustsize; lia) eq_refl).
  assert (Hc : ∀ h, In h (members [0; 0; 0; 0; 0; 1; 2; 3; 4; 5] 0) →
               [0; 0; 1; 1; 2; 0; 0; 1; 1; 0] !! h = Some 0
               ∨ [0; 0; 1; 1; 2; 0; 0; 1; 1; 0] !! h = Some 1 →
               is_homozygous 5 [0; 0; 1; 1; 2; 0; 0; 1; 1; 0] h = Some true).
  { intros h Hin Hcarry. vm_compute in Hin.
    destruct Hin as [<-|[<-|[<-|[<-|[<-|[]]]]]]; try reflexivity.
    destruct Hcarry as [Hcarry|Hcarry]; vm_compute in Hcarry; discriminate. }
  specialize (H Hc eq_refl). destruct H as [Hndel _].
  vm_compute in Hndel. discriminate.
Qed.

(** C3 (amended). Whenever the body writes a report, the size counter
    is updated at the number of haplotypes of the whole cluster: the count
    under that key goes up by one and the other keys keep their counts.
    That number is at least the sum of the sizes of the two reported
    subclusters, and equals it when every member of the cluster carries
    one of the two reported alleles. *)
Theorem C3_histogram_key nindiv (valleles oclust : list nat) pos o j x z o' :
  cluster_body nindiv valleles oclust pos o (j, x, z) = Some o' →
  out o' ≠ out o →
  let key := length (members oclust j) in
  acclustsizes o' = counter_update key (acclustsizes o) ∧
  acclustsizes o' !! key = Some (S (default 0 (acclustsizes o !! key))) ∧
  (∀ k, k ≠ key → acclustsizes o' !! k = acclustsizes o !! k) ∧
  ∃ a0 a1 others,
    candidates x = a0 :: a1 :: others ∧
    let sub0 := carriers valleles oclust j a0 in
    let sub1 := carriers valleles oclust j a1 in
    length sub0 + length sub1 ≤ key ∧
    (Forall (λ h, valleles !! h = Some a0 ∨ valleles !! h = Some a1) (members oclust j) →
     length sub0 + length sub1 = key).
Proof.
  intros Hbody Hout key.
  destruct (cluster_body_inv _ _ _ _ _ _ _ _ _ Hbody) as [->|(Hz & Hx & hz & Hhz)];
    [congruence|].
  destruct (cluster_body_eval nindiv valleles oclust pos o j x z hz Hhz Hz Hx)
    as (a0 & a1 & others & Hc & Heq).
  rewrite Heq in Hbody. apply (inj Some) in Hbody. clear Heq.
  cbv zeta in Hbody.
  destruct (forallb (λ b, b) hz).
  { exfalso. apply Hout. subst o'. destruct (2 <? npart x); reflexivity. }
  assert (Hacc : acclustsizes o' = counter_update key (acclustsizes o)).
  { subst o'. destruct (2 <? npart x); reflexivity. }
  split; [exact Hacc|]. rewrite Hacc. unfold counter_update.
  split; [apply lookup_insert_eq|].
  split; [intros k Hk; apply lookup_insert_ne; congruence|].
  exists a0, a1, others. split; [exact Hc|].
  destruct (indices_where_ascending _ _ _ _ _ Hc) as [Hlt _].
  assert (Hdisj : ∀ h : nat,
            match valleles !! h with Some b => b =? a0 | None => false end = true →
            match valleles !! h with Some b => b =? a1 | None => false end = true →
            False).
  { intros h. destruct (valleles !! h) as [b|]; [|discriminate].
    intros H0%Nat.eqb_eq H1%Nat.eqb_eq. lia. }
  split.
  - apply filter_disjoint_length. exact Hdisj.
  - intros Hall. apply filter_cover_length; [exact Hdisj|].
    eapply Forall_impl; [exact Hall|]. cbv beta.
    intros h [->| ->]; rewrite Nat.eqb_refl; auto.
Qed.

Lemma C3_histogram_key_witness :
  let o' := mk_outs ("100 2 2 0:0 1:0 2:0 0:1 " +:+ nl) "" 0 {[5 := 1]} in
  cluster_body 3 [0; 0; 1; 1; 2; 1] [0; 0; 0; 0; 0; 1] 100 outs0 (0, [2; 2; 1], 5)
  = Some o' ∧
  acclustsizes o' !! 5 = Some 1.
Proof.
  intros o'.
  assert (Hrun : cluster_body 3 [0; 0; 1; 1; 2; 1] [0; 0; 0; 0; 0; 1] 100 outs0
                   (0, [2; 2; 1], 5) = Some o') by reflexivity.
  split; [exact Hrun|].
  apply (C3_histogram_key 3 [0; 0; 1; 1; 2; 1] [0; 0; 0; 0; 0; 1] 100 outs0
           0 [2; 2; 1] 5 o' Hrun).
  discriminate.
Defined.

(** C3, as worded, fails: with a member that carries neither reported
    allele the key is the size of the cluster (5), not the sum of the two
    subcluster sizes (2 + 2). *)
Lemma C3_counterexample :
  ¬ (∀ nindiv (valleles oclust : list nat) pos o j x z o' a0 a1 others,
       cluster_body nindiv valleles oclust pos o (j, x, z) = Some o' →
       out o' ≠ out o →
       candidates x = a0 :: a1 :: others →
       acclustsizes o'
       = counter_update (length (carriers valleles oclust j a0)
                         + length (carriers valleles oclust j a1))
                        (acclustsizes o)).
Proof.
  intros H.
  specialize (H 3 [0; 0; 1; 1; 2; 1] [0; 0; 0; 0; 0; 1] 100%Z outs0 0 [2; 2; 1] 5
                (mk_outs ("100 2 2 0:0 1:0 2:0 0:1 " +:+ nl) "" 0 {[5 := 1]})
                0 1 [] eq_refl).
  specialize (H ltac:(discriminate) eq_refl).
  apply (f_equal (λ m : gmap nat nat, m !! 4)) in H.
  vm_compute in H. discriminate.
Qed.

(** The body, with the two files aligned, for a cluster of size at least 4:
    when more than two alleles have a count of 2 or more, the body raises
    nothing, writes the diagnostic line and goes on with the two candidate
    alleles of smallest code ([a0 < a1], every other candidate above
    [a1]): either every member is homozygous and the deletion counter goes
    up, or the report on the carriers of [a0] and [a1] is written. With no
    or one candidate allele the body leaves everything as it was. *)
Lemma body_more_than_two_candidates nindiv (valleles oclust : list nat) pos o j x z :
  length valleles = 2 * nindiv →
  length oclust ≤ length valleles →
  minclustsize ≤ z →
  (2 < npart x →
   ∃ o' a0 a1 others hz,
     cluster_body nindiv valleles oclust pos o (j, x, z) = Some o' ∧
     err o' = err o +:+ diag_alleles pos ∧
     candidates x = a0 :: a1 :: others ∧
     a0 < a1 ∧ Forall (λ a, a1 < a) others ∧
     (∀ a, In a (candidates x) ↔ ∃ y, x !! a = Some y ∧ minpartsize ≤ y) ∧
     mapM (is_homozygous nindiv valleles) (members oclust j) = Some hz ∧
     if forallb (λ b, b) hz
     then out o' = out o ∧ ndel o' = S (ndel o)
     else
       let sub0 := carriers valleles oclust j a0 in
       let sub1 := carriers valleles oclust j a1 in
       ndel o' = ndel o ∧
       out o' = out o +:+ report_line pos (length sub0) (length sub1)
                            (map (ident (length oclust)) (sub0 ++ sub1))) ∧
  (npart x ≤ 1 → cluster_body nindiv valleles oclust pos o (j, x, z) = Some o).
Proof.
  intros Hlen Hle Hz. split; [|apply skip_unmixed].
  intros Hx.
  destruct (homozygous_total nindiv valleles oclust j Hlen Hle) as [hz Hhz].
  destruct (cluster_body_eval nindiv valleles oclust pos o j x z hz Hhz Hz)
    as (a0 & a1 & others & Hc & Heq); [lia|].
  destruct (indices_where_ascending _ _ _ _ _ Hc) as [Hlt Hothers].
  eexists _, a0, a1, others, hz. split; [exact Heq|].
  cbv zeta. destruct (Nat.ltb_spec 2 (npart x)); [|lia].
  split; [destruct (forallb _ hz); reflexivity|].
  split; [exact Hc|]. split; [exact Hlt|]. split; [exact Hothers|].
  split.
  { intros a. rewrite elem_of_indices_where. unfold minpartsize.
    split; intros (y & Hy & Hp); exists y; (split; [exact Hy|]).
    - apply Nat.ltb_lt in Hp. lia.
    - apply Nat.ltb_lt. lia. }
  split; [exact Hhz|].
  destruct (forallb _ hz); split; reflexivity.
Qed.

(** C7. A report written by the body is one line: the position, the
    sizes of subcluster 0 and of subcluster 1, then the identities of the
    members that carry the first candidate allele followed by those of the
    members that carry the second, in the order of the cluster record; the
    tokens are joined by single blanks, and a blank and a line feed end
    the line. With [k] individuals in the cluster record, the identity of
    haplotype [h] is the index [h mod k], a colon, and the side [h / k],
    which is 0 or 1. *)
Theorem C7_report_line_format nindiv (valleles oclust : list nat) pos o j x z o' k :
  cluster_body nindiv valleles oclust pos o (j, x, z) = Some o' →
  out o' ≠ out o →
  length oclust = 2 * k →
  ∃ a0 a1 others,
    candidates x = a0 :: a1 :: others ∧
    let sub0 := carriers valleles oclust j a0 in
    let sub1 := carriers valleles oclust j a1 in
    let identity := λ h, str_nat (h mod k) +:+ ":" +:+ str_nat (h / k) in
    out o' = out o
             +:+ String.concat " "
                   ([str_Z pos; str_nat (length sub0); str_nat (length sub1)]
                    ++ map identity (sub0 ++ sub1))
             +:+ " " +:+ nl ∧
    Forall (λ h, h mod k < k ∧ h / k ≤ 1) (sub0 ++ sub1).
Proof.
  intros Hbody Hout Hk.
  destruct (cluster_body_inv _ _ _ _ _ _ _ _ _ Hbody) as [->|(Hz & Hx & hz & Hhz)];
    [congruence|].
  destruct (cluster_body_eval nindiv valleles oclust pos o j x z hz Hhz Hz Hx)
    as (a0 & a1 & others & Hc & Heq).
  rewrite Heq in Hbody. apply (inj Some) in Hbody. clear Heq.
  cbv zeta in Hbody.
  destruct (forallb (λ b, b) hz) eqn:Hall.
  { exfalso. apply Hout. subst o'. destruct (2 <? npart x); reflexivity. }
  assert (Hk0 : k ≠ 0).
  { intros ->. apply forallb_id_false_nonempty in Hall.
    destruct oclust; [|discriminate]. cbn in Hhz. injection Hhz as <-. congruence. }
  exists a0, a1, others. split; [exact Hc|]. cbv zeta. split.
  - assert (Hids : map (ident (length oclust))
                       (carriers valleles oclust j a0 ++ carriers valleles oclust j a1)
                   = map (λ h, str_nat (h mod k) +:+ ":" +:+ str_nat (h / k))
                       (carriers valleles oclust j a0 ++ carriers valleles oclust j a1)).
    { apply map_ext. intros h. rewrite Hk.
      destruct (ident_even k h Hk0) as [-> ->]. reflexivity. }
    rewrite Hids in Hbody.
    assert (Hline : ∀ n0 n1 ids,
              report_line pos n0 n1 ids
              = String.concat " " ([str_Z pos; str_nat n0; str_nat n1] ++ ids)
                +:+ " " +:+ nl).
    { intros n0 n1 ids. unfold report_line.
      rewrite <- StrFacts.append_assoc.
      change ([str_Z pos; str_nat n0; str_nat n1] ++ ids)
        with (str_Z pos :: str_nat n0 :: str_nat n1 :: ids).
      change (String.concat " " (str_Z pos :: str_nat n0 :: str_nat n1 :: ids))
        with (str_Z pos +:+ " " +:+ str_nat n0 +:+ " "
              +:+ String.concat " " (str_nat n1 :: ids)).
      rewrite !StrFacts.append_assoc.
      rewrite <- (StrFacts.append_assoc (String.concat " " (str_nat n1 :: ids))).
      rewrite StrFacts.concat_blank_each.
      rewrite !StrFacts.append_assoc. reflexivity. }
    rewrite Hline in Hbody. subst o'.
    destruct (2 <? npart x); reflexivity.
  - apply List.Forall_forall. intros h Hh.
    assert (Hlt : h < length oclust).
    { pose proof (indices_where_lt (λ c, c =? j) oclust) as Hm.
      rewrite List.Forall_forall in Hm. apply Hm.
      apply in_app_or in Hh as [Hh|Hh]; apply filter_In in Hh as [Hh _]; exact Hh. }
    split; [apply Nat.mod_upper_bound; exact Hk0|].
    apply Nat.lt_succ_r. apply Nat.Div0.div_lt_upper_bound. lia.
Qed.

Lemma C7_report_line_format_witness :
  let valleles := [0; 0; 1; 1; 2; 1] in
  let oclust := [0; 0; 0; 0; 0; 1] in
  let o' := mk_outs ("100 2 2 0:0 1:0 2:0 0:1 " +:+ nl) "" 0 {[5 := 1]} in
  cluster_body 3 valleles oclust 100 outs0 (0, [2; 2; 1], 5) = Some o' ∧
  ∃ a0 a1 others,
    candidates [2; 2; 1] = a0 :: a1 :: others ∧
    let sub0 := carriers valleles oclust 0 a0 in
    let sub1 := carriers valleles oclust 0 a1 in
    let identity := λ h, str_nat (h mod 3) +:+ ":" +:+ str_nat (h / 3) in
    out o' = out outs0
             +:+ String.concat " "
                   ([str_Z 100; str_nat (length sub0); str_nat (length sub1)]
                    ++ map identity (sub0 ++ sub1))
             +:+ " " +:+ nl ∧
    Forall (λ h, h mod 3 < 3 ∧ h / 3 ≤ 1) (sub0 ++ sub1).
Proof.
  intros valleles oclust o'.
  assert (Hrun : cluster_body 3 valleles oclust 100 outs0 (0, [2; 2; 1], 5) = Some o')
    by reflexivity.
  split; [exact Hrun|].
  apply (C7_report_line_format 3 valleles oclust 100 outs0 0 [2; 2; 1] 5 o' 3 Hrun).
  - discriminate.
  - reflexivity.
Defined.

End ClusterFacts.

(** ** Rare alleles at multiallelic sites *)

Module CollapseFacts.
Import Py Gcs.

Section Collapse.
Variable minaf : spec_float.
Variable allelefreqs : list spec_float.

(** Row [x'] is row [x] with a zero at every index in [[s, e)] whose
    allele frequency is below [minaf]. *)
Local Abbreviation zeroed s e x x' :=
  (length x' = length x ∧
   ∀ i f, allelefreqs !! i = Some f →
          x'%list !! i
          = if (s <=? i) && (i <? e) && flt f minaf then Some 0 else x%list !! i).

Lemma zero_allele_rows (i : nat) (counts : list (list nat)) :
  Forall (λ x, i < length x) counts →
  zero_allele i counts = Some (map (λ x, <[i := 0]> x) counts).
Proof.
  intros Hall. unfold zero_allele. apply mapM_Some_2.
  induction Hall as [|x counts Hx Hall IH]; constructor; [|exact IH].
  destruct (Nat.ltb_spec i (length x)); [reflexivity|lia].
Qed.

Lemma collapse_loop (len : nat) : ∀ s (counts : list (list nat)),
  s + len ≤ length allelefreqs →
  Forall (λ x, length x = length allelefreqs) counts →
  ∃ counts',
    foldlM (λ counts i,
              f ← allelefreqs !! i;
              if flt f minaf then zero_allele i counts else Some counts)
           (seq s len) counts = Some counts' ∧
    Forall2 (λ x x', zeroed s (s + len) x x') counts counts'.
Proof.
  induction len as [|len IH]; intros s counts Hs Hrows.
  - exists counts. split; [reflexivity|].
    apply Forall_Forall2_diag. apply List.Forall_forall. intros x _.
    split; [reflexivity|]. intros i f _.
    destruct (Nat.leb_spec s i), (Nat.ltb_spec i (s + 0)); cbn; (reflexivity || lia).
  - cbn [seq foldlM].
    destruct (lookup_lt_is_Some_2 allelefreqs s ltac:(lia)) as [fs Hfs].
    rewrite Hfs. cbn [mbind option_bind].
    set (c1 := if flt fs minaf then map (λ x, <[s := 0]> x) counts else counts).
    assert (Hstep : (if flt fs minaf then zero_allele s counts else Some counts) = Some c1).
    { subst c1. destruct (flt fs minaf); [|reflexivity].
      apply zero_allele_rows. eapply Forall_impl; [exact Hrows|].
      cbv beta. intros x ->. lia. }
    rewrite Hstep. cbn [mbind option_bind].
    assert (Hrows1 : Forall (λ x, length x = length allelefreqs) c1).
    { subst c1. destruct (flt fs minaf); [|exact Hrows].
      apply Forall_fmap. eapply Forall_impl; [exact Hrows|].
      cbv beta. intros x Hx. cbn. rewrite length_insert. exact Hx. }
    assert (H1 : Forall2 (λ x x', zeroed s (S s) x x') counts c1).
    { subst c1. destruct (flt fs minaf) eqn:Hlt.
      - apply Forall2_fmap_r. apply Forall_Forall2_diag.
        apply List.Forall_forall. intros x Hin. split; [apply length_insert|].
        intros i f Hf.
        destruct (Nat.leb_spec s i), (Nat.ltb_spec i (S s)); cbn [andb];
          try (apply list_lookup_insert_ne; lia).
        assert (i = s) by lia; subst i.
        assert (f = fs) by congruence; subst f. rewrite Hlt.
        apply list_lookup_insert_eq.
        rewrite List.Forall_forall in Hrows. specialize (Hrows x Hin).
        apply lookup_lt_Some in Hfs. lia.
      - apply Forall_Forall2_diag. apply List.Forall_forall. intros x _.
        split; [reflexivity|]. intros i f Hf.
        destruct (Nat.leb_spec s i), (Nat.ltb_spec i (S s)); cbn [andb];
          try reflexivity.
        assert (i = s) by lia; subst i.
        assert (f = fs) by congruence; subst f. rewrite Hlt. reflexivity. }
    destruct (IH (S s) c1 ltac:(lia) Hrows1) as (counts' & Hfold & H2).
    exists counts'. split; [exact Hfold|].
    eapply Forall2_trans; [|exact H1|exact H2].
    cbv beta. intros x y z0 [Hl1 Hx] [Hl2 Hy]. split; [congruence|].
    intros i f Hf. rewrite (Hy i f Hf), (Hx i f Hf).
    replace (S s + len) with (s + S len) by lia.
    destruct (Nat.leb_spec s i), (Nat.leb_spec (S s) i), (Nat.ltb_spec i (S s)),
      (Nat.ltb_spec i (s + S len)); cbn [andb]; try lia; try reflexivity;
      destruct (flt f minaf); reflexivity.
Qed.

End Collapse.

(** The loop of lines 118-123 on a table whose rows have one entry per
    allele code. *)
Lemma collapse_rare_rows minaf nalleles allelefreqs maxalleleplus
    (counts : list (list nat)) :
  length allelefreqs = maxalleleplus →
  Forall (λ x, length x = maxalleleplus) counts →
  let multiallelic :=
    (2 <? nalleles) && (2 <? sum_bool (map (λ f, fgt f f_zero) allelefreqs)) in
  ∃ counts',
    collapse_rare minaf nalleles allelefreqs maxalleleplus counts = Some counts' ∧
    length counts' = length counts ∧
    (multiallelic = false → counts' = counts) ∧
    (multiallelic = true →
     ∀ j x, counts !! j = Some x →
       ∃ x', counts' !! j = Some x' ∧ length x' = length x ∧
             ∀ i f, allelefreqs !! i = Some f →
                    x' !! i = if flt f minaf then Some 0 else x !! i).
Proof.
  intros Hlen Hrows multiallelic. subst maxalleleplus.
  unfold collapse_rare. subst multiallelic.
  destruct (2 <? nalleles); cbn [andb];
    [|exists counts; repeat split; [discriminate]].
  destruct (2 <? sum_bool _); [|exists counts; repeat split; discriminate].
  destruct (collapse_loop minaf allelefreqs (length allelefreqs) 0 counts
              ltac:(lia) Hrows) as (counts' & -> & Hrel).
  exists counts'. split; [reflexivity|].
  split; [symmetry; eapply Forall2_length; exact Hrel|].
  split; [discriminate|]. intros _ j x Hx.
  destruct (Forall2_lookup_l _ _ _ _ _ Hrel Hx) as (x' & Hx' & Hl & Hz).
  exists x'. split; [exact Hx'|]. split; [exact Hl|].
  intros i f Hf. rewrite (Hz i f Hf).
  pose proof (lookup_lt_Some _ _ _ Hf) as Hi.
  destruct (Nat.ltb_spec i (0 + length allelefreqs)); [|lia]. reflexivity.
Qed.

(** A loop keeps what each of its iterations keeps. *)
Lemma foldlM_invariant {A S} (f : S → A → option S) (P : S → Prop) :
  (∀ s a s', P s → f s a = Some s' → P s') →
  ∀ l s s', P s → foldlM f l s = Some s' → P s'.
Proof.
  intros Hstep l. induction l as [|a l IH]; intros s s' Hs H; cbn [foldlM] in H.
  - congruence.
  - destruct (f s a) as [s1|] eqn:Hf; [|discriminate]. cbn [mbind option_bind] in H.
    eapply IH; [|exact H]. eapply Hstep; eassumption.
Qed.

(** The table of lines 112-116 has one row per cluster id and one entry
    per allele code in each row. *)
Lemma tabulate_shape nhaps (oclust valleles : list nat) maxclustplus maxalleleplus
    counts clustsize :
  tabulate nhaps oclust valleles maxclustplus maxalleleplus = Some (counts, clustsize) →
  length counts = maxclustplus ∧
  Forall (λ x, length x = maxalleleplus) counts ∧
  length clustsize = maxclustplus.
Proof.
  unfold tabulate. intros H.
  apply (foldlM_invariant (tabulate_step oclust valleles)
           (λ acc, length acc.1 = maxclustplus ∧
                   Forall (λ x, length x = maxalleleplus) acc.1 ∧
                   length acc.2 = maxclustplus)) in H; [exact H| |].
  - intros [cs sz] i [cs' sz'] (Hl & Hrows & Hsz) Hstep. cbn [fst snd] in *.
    unfold tabulate_step in Hstep.
    destruct (oclust !! i) as [c|]; [|discriminate]. cbn [mbind option_bind] in Hstep.
    destruct (cs !! c) as [row|] eqn:Hrow; [|discriminate].
    cbn [mbind option_bind] in Hstep.
    destruct (valleles !! i) as [a|]; [|discriminate]. cbn [mbind option_bind] in Hstep.
    destruct (row !! a) as [k|]; [|discriminate]. cbn [mbind option_bind] in Hstep.
    destruct (sz !! c) as [z|]; [|discriminate]. cbn [mbind option_bind] in Hstep.
    injection Hstep as <- <-.
    split; [rewrite length_insert; exact Hl|].
    split; [|rewrite length_insert; exact Hsz].
    apply Forall_insert; [exact Hrows|].
    rewrite length_insert.
    eapply (Forall_lookup_1 _ _ _ _ Hrows). exact Hrow.
  - cbn [fst snd]. rewrite !length_replicate. split; [reflexivity|].
    split; [|reflexivity].
    apply Forall_replicate. apply length_replicate.
Qed.

(** What the filter hands on when it keeps a variant. *)
Lemma frequency_filter_kept cfg valleles nalleles maxalleleplus allelefreqs :
  frequency_filter cfg valleles = Some (Keep nalleles maxalleleplus allelefreqs) →
  nalleles = length (remove_dups valleles) ∧ length allelefreqs = maxalleleplus.
Proof.
  unfold frequency_filter. destruct (_ =? 1); [discriminate|].
  destruct (allele_stats (n cfg) valleles) as [[[ma af] maf]|] eqn:Hs; [|discriminate].
  cbn [mbind option_bind].
  destruct (fgt maf maxmaf); [discriminate|].
  destruct (flt maf (minaf cfg)); [discriminate|].
  intros [= <- <- <-]. split; [reflexivity|].
  unfold allele_stats in Hs.
  destruct (max_nat _) as [m|]; [|discriminate]. cbn [mbind option_bind] in Hs.
  destruct (allelefreqs_of _ _ _) as [af'|] eqn:Haf; [|discriminate].
  cbn [mbind option_bind] in Hs.
  destruct (max_float af'); [|discriminate]. cbn [mbind option_bind] in Hs.
  injection Hs as <- <- _.
  unfold allelefreqs_of in Haf. apply length_mapM in Haf.
  rewrite length_seq in Haf. lia.
Qed.

(** C5. For a variant that the filter keeps, on the table that the
    tabulation builds for the cluster line chosen by the synchronizer:
    when three or more distinct alleles are observed and more than two
    alleles have a frequency above zero, lines 118-123 raise nothing and
    put a zero, in the row of every cluster, at each allele whose
    frequency is strictly below [minaf], the other entries staying as
    they were; when either condition fails the table is left as it is.
    The table that results is the one that the body of the variant loop
    hands to [print_gcs], with the cluster sizes of the tabulation. *)
Theorem C5_rare_alleles_zeroed cfg st v (valleles : list nat) nalleles maxalleleplus
    allelefreqs othis p c rest mc counts clustsize :
  Sync.sync (vpos v) (oprev st) (onew st) (omibdfile st) = (othis, (p, c, rest)) →
  valleles_of (vindex cfg) v = Some valleles →
  frequency_filter cfg valleles = Some (Keep nalleles maxalleleplus allelefreqs) →
  max_nat (oclust_of othis) = Some mc →
  tabulate (nhaps cfg) (oclust_of othis) valleles (mc + 1) maxalleleplus
  = Some (counts, clustsize) →
  let multiallelic :=
    (2 <? length (remove_dups valleles))
    && (2 <? sum_bool (map (λ f, fgt f f_zero) allelefreqs)) in
  ∃ counts',
    collapse_rare (minaf cfg) nalleles allelefreqs maxalleleplus counts = Some counts' ∧
    length counts' = length counts ∧
    (multiallelic = false → counts' = counts) ∧
    (multiallelic = true →
     ∀ j x, counts !! j = Some x →
       ∃ x', counts' !! j = Some x' ∧ length x' = length x ∧
             ∀ i f, allelefreqs !! i = Some f →
                    x' !! i = if flt f (minaf cfg) then Some 0 else x !! i) ∧
    process_variant cfg st v
    = (o ← print_gcs (nindiv cfg) valleles (oclust_of othis) counts' (vpos v) clustsize
             (if negb (length valleles =? nhaps cfg)
              then print_err diag_mismatch (outputs st) else outputs st);
       Some (mk_state p c rest o)).
Proof.
  intros Hsync Hv Hkeep Hmc Htab.
  destruct (frequency_filter_kept _ _ _ _ _ Hkeep) as [Hn Hlen].
  destruct (tabulate_shape _ _ _ _ _ _ _ Htab) as (_ & Hrows & _).
  destruct (collapse_rare_rows (minaf cfg) nalleles allelefreqs maxalleleplus counts
              Hlen Hrows) as (counts' & Hcol & Hl & Hsame & Hzero).
  subst nalleles. exists counts'.
  split; [exact Hcol|]. split; [exact Hl|]. split; [exact Hsame|]. split; [exact Hzero|].
  unfold process_variant. rewrite Hsync, Hv. cbn [mbind option_bind].
  rewrite Hkeep. cbn [mbind option_bind].
  unfold analyse. rewrite Hmc. cbn [mbind option_bind].
  rewrite Htab. cbn [mbind option_bind]. rewrite Hcol. reflexivity.
Qed.

Lemma C5_rare_alleles_zeroed_witness :
  let fifth := S754_finite false 7205759403792794 (-55) in
  let cfg := mk_config fifth [0; 1; 2; 3; 4; 5; 6; 7; 8; 9] 20 in
  let othis := mk_orec 100 [(0, 1); (0, 1); (0, 1); (0, 1); (0, 1); (0, 1);
                            (1, 1); (1, 1); (1, 1); (1, 1)] in
  let st := mk_state othis othis [] outs0 in
  let v := mk_vrec 100 [(0, 0); (0, 0); (1, 1); (1, 1); (2, 0); (2, 0);
                        (0, 0); (0, 0); (1, 1); (1, 1)] in
  let valleles := [0; 0; 1; 1; 2; 2; 0; 0; 1; 1; 0; 0; 1; 1; 0; 0; 0; 0; 1; 1] in
  tabulate 20 (oclust_of othis) valleles 2 3 = Some ([[2; 2; 2]; [8; 6; 0]], [6; 14]) ∧
  ∃ counts' st',
    collapse_rare fifth 3
      [S754_finite false 4503599627370496 (-53);
       S754_finite false 7205759403792794 (-54);
       S754_finite false 7205759403792794 (-56)] 3 [[2; 2; 2]; [8; 6; 0]]
    = Some counts' ∧
    counts' = [[2; 2; 0]; [8; 6; 0]] ∧
    process_variant cfg st v = Some st' ∧
    err (outputs st') = "" ∧
    out (outputs st')
    = ("100 2 2 0:0 1:0 2:0 3:0 " +:+ nl)
      +:+ ("100 8 6 6:0 7:0 0:1 1:1 4:1 5:1 6:1 7:1 8:0 9:0 2:1 3:1 8:1 9:1 " +:+ nl).
Proof.
  intros fifth cfg othis st v valleles. split; [reflexivity|].
  destruct (C5_rare_alleles_zeroed cfg st v valleles 3 3
              [S754_finite false 4503599627370496 (-53);
               S754_finite false 7205759403792794 (-54);
               S754_finite false 7205759403792794 (-56)]
              othis othis othis [] 1 [[2; 2; 2]; [8; 6; 0]] [6; 14])
    as (counts' & Hcol & _ & _ & _ & Hproc).
  - reflexivity.
  - reflexivity.
  - reflexivity.
  - reflexivity.
  - reflexivity.
  - assert (Hc : counts' = [[2; 2; 0]; [8; 6; 0]]).
    { vm_compute in Hcol. injection Hcol as <-. reflexivity. }
    subst counts'. eexists _, _. split; [reflexivity|]. split; [reflexivity|].
    split; [rewrite Hproc; vm_compute; reflexivity|]. split; reflexivity.
Defined.

End CollapseFacts.

(** ** Binary64 arithmetic of the frequency filter *)

Module FloatFacts.
Import Py Gcs.
Local Open Scope Z_scope.

(** *** Binary digits *)

Lemma digits2_bounds (p : positive) :
  2 ^ (Zpos (digits2_pos p) - 1) <= Zpos p < 2 ^ Zpos (digits2_pos p).
Proof.
  induction p as [p IH|p IH|]; cbn [digits2_pos].
  - rewrite Pos2Z.inj_succ, Z.pow_succ_r by lia.
    replace (Z.succ (Zpos (digits2_pos p)) - 1) with (Z.succ (Zpos (digits2_pos p) - 1)) by lia.
    rewrite Z.pow_succ_r by lia. lia.
  - rewrite Pos2Z.inj_succ, Z.pow_succ_r by lia.
    replace (Z.succ (Zpos (digits2_pos p)) - 1) with (Z.succ (Zpos (digits2_pos p) - 1)) by lia.
    rewrite Z.pow_succ_r by lia. lia.
  - cbn. lia.
Qed.

Lemma digits2_unique (p : positive) (d : Z) :
  2 ^ (d - 1) <= Zpos p < 2 ^ d → Zpos (digits2_pos p) = d.
Proof.
  intros [Hlo Hhi]. pose proof (digits2_bounds p) as [Hlo' Hhi'].
  assert (0 < d).
  { destruct (Z.ltb_spec 0 d); [assumption|].
    exfalso. assert (2 ^ d <= 2 ^ 0) by (apply Z.pow_le_mono_r; lia).
    change (2 ^ 0) with 1 in *. lia. }
  destruct (Z.lt_trichotomy (Zpos (digits2_pos p)) d) as [Hlt|[Heq|Hgt]]; [|exact Heq|].
  - exfalso. assert (2 ^ Zpos (digits2_pos p) <= 2 ^ (d - 1)) by (apply Z.pow_le_mono_r; lia). lia.
  - exfalso. assert (2 ^ d <= 2 ^ (Zpos (digits2_pos p) - 1)) by (apply Z.pow_le_mono_r; lia). lia.
Qed.

Lemma iter_xO (k : positive) : ∀ p, Zpos (Pos.iter xO p k) = Zpos p * 2 ^ Zpos k.
Proof.
  induction k as [k IH|k IH|] ; intros p; cbn [Pos.iter].
  - rewrite Pos2Z.inj_xO, !IH.
    replace (Zpos k~1) with (Zpos k + Zpos k + 1) by lia.
    rewrite !Z.pow_add_r by lia. change (2 ^ 1) with 2. lia.
  - rewrite !IH.
    replace (Zpos k~0) with (Zpos k + Zpos k) by lia.
    rewrite !Z.pow_add_r by lia. lia.
  - change (2 ^ 1) with 2. lia.
Qed.

(** *** Shifting right *)

Lemma shr_1_m (r : shr_record) : 0 <= shr_m r → shr_m (shr_1 r) = shr_m r / 2.
Proof.
  destruct r as [m rb sb]. cbn [shr_m]. intros Hm.
  destruct m as [|[p|p|]|p]; cbn [shr_1 shr_m]; try lia.
  - reflexivity.
  - apply Z.div_unique with (r := 1); lia.
  - apply Z.div_unique with (r := 0); lia.
  - reflexivity.
Qed.

Lemma iter_shr_1_m (k : positive) : ∀ r,
  0 <= shr_m r → shr_m (SpecFloat.iter_pos shr_1 k r) = shr_m r / 2 ^ Zpos k.
Proof.
  assert (Hnn : ∀ a b, 0 <= a → 0 < b → 0 <= a / b) by (intros; apply Z.div_pos; lia).
  induction k as [k IH|k IH|]; intros r Hr; cbn [SpecFloat.iter_pos].
  - assert (H1 : 0 <= shr_m (shr_1 r)) by (rewrite shr_1_m by lia; apply Hnn; lia).
    assert (H2 : 0 <= shr_m (SpecFloat.iter_pos shr_1 k (shr_1 r))).
    { rewrite IH by lia. apply Hnn; [lia|]. apply Z.pow_pos_nonneg; lia. }
    rewrite IH, IH, shr_1_m by lia.
    replace (Zpos k~1) with (1 + Zpos k + Zpos k) by lia.
    rewrite !Z.pow_add_r by lia. change (2 ^ 1) with 2.
    rewrite !Z.div_div by (try apply Z.pow_pos_nonneg; lia).
    f_equal. lia.
  - assert (H2 : 0 <= shr_m (SpecFloat.iter_pos shr_1 k r)).
    { rewrite IH by lia. apply Hnn; [lia|]. apply Z.pow_pos_nonneg; lia. }
    rewrite IH, IH by lia.
    replace (Zpos k~0) with (Zpos k + Zpos k) by lia.
    rewrite !Z.pow_add_r by lia.
    rewrite !Z.div_div by (try apply Z.pow_pos_nonneg; lia). reflexivity.
  - rewrite shr_1_m by lia. reflexivity.
Qed.

(** *** Rounding to binary64 *)

Lemma loc_record (m : Z) (l : location) :
  shr_m (shr_record_of_loc m l) = m ∧ loc_of_shr_record (shr_record_of_loc m l) = l.
Proof. destruct l as [|[]]; split; reflexivity. Qed.

Lemma round_nearest_even_cases (m : Z) (l : location) :
  round_nearest_even m l = m ∨ round_nearest_even m l = m + 1.
Proof. destruct l as [|[]]; cbn; auto. destruct (Z.even m); auto. Qed.

Lemma div_pow2_digits (pm : positive) :
  let d := Zpos (digits2_pos pm) in
  53 <= d →
  4503599627370496 <= Zpos pm / 2 ^ (d - 53) < 9007199254740992.
Proof.
  intros d Hd. pose proof (digits2_bounds pm) as [Hlo Hhi]. fold d in Hlo, Hhi.
  assert (Hp : 0 < 2 ^ (d - 53)) by (apply Z.pow_pos_nonneg; lia).
  assert (H52 : 2 ^ (d - 1) = 4503599627370496 * 2 ^ (d - 53)).
  { replace (d - 1) with (52 + (d - 53)) by lia. rewrite Z.pow_add_r by lia. reflexivity. }
  assert (H53 : 2 ^ d = 9007199254740992 * 2 ^ (d - 53)).
  { replace d with (53 + (d - 53)) at 1 by lia. rewrite Z.pow_add_r by lia. reflexivity. }
  split.
  - apply Z.div_le_lower_bound; lia.
  - apply Z.div_lt_upper_bound; lia.
Qed.

(** The first right shift of [binary_round_aux] brings a mantissa of 53
    digits or more down to 53 digits. *)
Lemma shr_fexp_first (pm : positive) (e : Z) (l : location) :
  let d := Zpos (digits2_pos pm) in
  53 <= d → -1074 <= d + e - 53 →
  ∃ mrs, shr_fexp prec emax (Zpos pm) e l = (mrs, d + e - 53) ∧
         shr_m mrs = Zpos pm / 2 ^ (d - 53) ∧
         (d = 53 → loc_of_shr_record mrs = l).
Proof.
  intros d Hd He. unfold shr_fexp, fexp, emin, prec, emax. cbn [Zdigits2]. fold d.
  rewrite Z.max_l by lia.
  replace (d + e - 53 - e) with (d - 53) by lia.
  destruct (loc_record (Zpos pm) l) as [Hm Hl].
  destruct (d - 53) as [|k|k] eqn:Hk; try lia.
  - exists (shr_record_of_loc (Zpos pm) l). cbn [shr].
    split; [f_equal; lia|]. split; [|intros _; exact Hl].
    rewrite Hm. change (2 ^ 0) with 1. rewrite Z.div_1_r. reflexivity.
  - exists (SpecFloat.iter_pos shr_1 k (shr_record_of_loc (Zpos pm) l)). cbn [shr].
    split; [f_equal; lia|]. split; [|intros ?; lia].
    rewrite iter_shr_1_m by (rewrite Hm; lia). rewrite Hm. reflexivity.
Qed.

(** The second one undoes the carry of a rounding up to [2^53]. *)
Lemma shr_fexp_second (m2 e : Z) :
  4503599627370496 <= m2 <= 9007199254740992 → -1074 <= e →
  shr_fexp prec emax m2 e loc_Exact
  = if m2 <? 9007199254740992
    then (Build_shr_record m2 false false, e)
    else (Build_shr_record 4503599627370496 false false, e + 1).
Proof.
  intros Hm He. destruct (Z.ltb_spec m2 9007199254740992) as [Hlt|Hge].
  - destruct m2 as [|p|p]; try lia.
    assert (Hd : Zpos (digits2_pos p) = 53) by (apply digits2_unique; cbn; lia).
    unfold shr_fexp, fexp, emin, prec, emax. cbn [Zdigits2]. rewrite Hd.
    rewrite Z.max_l by lia.
    replace (53 + e - 53 - e) with 0 by lia. reflexivity.
  - assert (m2 = 9007199254740992) by lia. subst m2.
    assert (Hd : Zpos (digits2_pos 9007199254740992) = 54) by reflexivity.
    unfold shr_fexp, fexp, emin, prec, emax. cbn [Zdigits2]. rewrite Hd.
    rewrite Z.max_l by lia.
    replace (54 + e - 53 - e) with 1 by lia. reflexivity.
Qed.

(** [binary_round_aux] on a mantissa of 53 digits or more whose result is
    a normal number: the mantissa is shifted down to 53 digits, goes up by
    one or stays, and a carry to [2^53] is renormalized. *)
Lemma binary_round_aux_normal (s : bool) (pm : positive) (e : Z) (l : location) :
  let d := Zpos (digits2_pos pm) in
  53 <= d → -1074 <= d + e - 53 → d + e - 52 <= 971 →
  ∃ m2,
    (m2 = Zpos pm / 2 ^ (d - 53) ∨ m2 = Zpos pm / 2 ^ (d - 53) + 1) ∧
    (d = 53 → l = loc_Exact → m2 = Zpos pm) ∧
    binary_round_aux prec emax s (Zpos pm) e l
    = if m2 <? 9007199254740992
      then S754_finite s (Z.to_pos m2) (d + e - 53)
      else S754_finite s 4503599627370496 (d + e - 52).
Proof.
  intros d Hd Hlo Hhi.
  destruct (shr_fexp_first pm e l Hd Hlo) as (mrs & Hs1 & Hm1 & Hl1). fold d in Hs1, Hm1, Hl1.
  pose proof (div_pow2_digits pm Hd) as Hb. fold d in Hb.
  set (m1 := Zpos pm / 2 ^ (d - 53)) in *.
  set (m2 := round_nearest_even (shr_m mrs) (loc_of_shr_record mrs)).
  assert (Hm2 : m2 = m1 ∨ m2 = m1 + 1).
  { subst m2. rewrite Hm1. apply round_nearest_even_cases. }
  exists m2. split; [exact Hm2|]. split.
  { intros H53 ->. subst m2. rewrite (Hl1 H53), Hm1. cbn [round_nearest_even].
    subst m1. rewrite H53. change (2 ^ (53 - 53)) with 1. apply Z.div_1_r. }
  unfold binary_round_aux. rewrite Hs1. fold m2.
  rewrite shr_fexp_second by lia.
  destruct (Z.ltb_spec m2 9007199254740992) as [Hlt|Hge]; cbn [shr_m].
  - destruct m2 as [|p2|p2] eqn:E2; try lia.
    unfold prec, emax. destruct (Z.leb_spec (d + e - 53) (1024 - 53)); [|lia].
    reflexivity.
  - unfold prec, emax.
    replace (d + e - 53 + 1) with (d + e - 52) by lia.
    destruct (Z.leb_spec (d + e - 52) (1024 - 53)); [|lia].
    reflexivity.
Qed.

Lemma shl_align_spec (p : positive) (e e' : Z) :
  e' <= e →
  ∃ mz, shl_align p e e' = (mz, e') ∧ Zpos mz = Zpos p * 2 ^ (e - e').
Proof.
  intros Hle. unfold shl_align.
  destruct (e' - e) as [|k|k] eqn:Hk; try lia.
  - exists p. assert (e' = e) by lia. subst e'.
    split; [reflexivity|]. rewrite Z.sub_diag. change (2 ^ 0) with 1. lia.
  - exists (Pos.iter xO p k). split; [reflexivity|].
    rewrite iter_xO. f_equal. f_equal. lia.
Qed.

Lemma digits2_shift (p q : positive) (k : Z) :
  0 <= k → Zpos q = Zpos p * 2 ^ k →
  Zpos (digits2_pos q) = Zpos (digits2_pos p) + k.
Proof.
  intros Hk Hq. apply digits2_unique. rewrite Hq.
  pose proof (digits2_bounds p) as [Hlo Hhi].
  assert (0 < 2 ^ k) by (apply Z.pow_pos_nonneg; lia).
  replace (Zpos (digits2_pos p) + k - 1) with (Zpos (digits2_pos p) - 1 + k) by lia.
  rewrite !Z.pow_add_r by lia. split; nia.
Qed.

(** [binary_round] when the result is a normal number. *)
Lemma binary_round_normal (s : bool) (p : positive) (e : Z) :
  let d := Zpos (digits2_pos p) in
  -1074 <= d + e - 53 → d + e - 52 <= 971 →
  ∃ m2,
    4503599627370496 <= m2 <= 9007199254740992 ∧
    (d <= 53 → m2 = Zpos p * 2 ^ (53 - d)) ∧
    (53 <= d → m2 = Zpos p / 2 ^ (d - 53) ∨ m2 = Zpos p / 2 ^ (d - 53) + 1) ∧
    binary_round prec emax s p e
    = if m2 <? 9007199254740992
      then S754_finite s (Z.to_pos m2) (d + e - 53)
      else S754_finite s 4503599627370496 (d + e - 52).
Proof.
  intros d Hlo Hhi. unfold binary_round.
  assert (Hf : fexp prec emax (Zpos (digits2_pos p) + e) = d + e - 53).
  { unfold fexp, emin, prec, emax. fold d. lia. }
  rewrite Hf.
  destruct (Z.le_gt_cases 53 d) as [Hd|Hd].
  - (* nothing to shift left *)
    assert (Hs : shl_align p e (d + e - 53) = (p, e)).
    { unfold shl_align. destruct (d + e - 53 - e) eqn:E; try lia; reflexivity. }
    rewrite Hs.
    destruct (binary_round_aux_normal s p e loc_Exact Hd Hlo Hhi)
      as (m2 & Hm2 & Hex & Heq).
    fold d in Hm2, Hex, Heq.
    pose proof (div_pow2_digits p Hd) as Hb. fold d in Hb.
    exists m2. split; [lia|]. split.
    { intros Hle. assert (d = 53) by lia.
      rewrite Hex by auto. replace (53 - d) with 0 by lia.
      change (2 ^ 0) with 1. lia. }
    split; [intros _; exact Hm2|exact Heq].
  - destruct (shl_align_spec p e (d + e - 53) ltac:(lia)) as (mz & -> & Hmz).
    replace (e - (d + e - 53)) with (53 - d) in Hmz by lia.
    assert (Hdz : Zpos (digits2_pos mz) = 53).
    { rewrite (digits2_shift p mz (53 - d)) by (lia || exact Hmz). fold d. lia. }
    destruct (binary_round_aux_normal s mz (d + e - 53) loc_Exact)
      as (m2 & _ & Hex & Heq); rewrite ?Hdz; try lia.
    rewrite Hdz in Hex. specialize (Hex eq_refl eq_refl). subst m2.
    pose proof (digits2_bounds mz) as Hb. rewrite Hdz in Hb.
    change (2 ^ (53 - 1)) with 4503599627370496 in Hb.
    change (2 ^ 53) with 9007199254740992 in Hb.
    exists (Zpos mz). split; [lia|]. split; [intros _; exact Hmz|].
    split; [intros ?; lia|].
    rewrite Heq, Hdz.
    replace (53 + (d + e - 53) - 53) with (d + e - 53) by lia.
    replace (53 + (d + e - 53) - 52) with (d + e - 52) by lia. reflexivity.
Qed.

(** *** Conversion of the counts *)

Lemma of_int_zero : of_int 0 = S754_zero false.
Proof. reflexivity. Qed.

(** An int below [2^53] converts without rounding to a normalized
    mantissa of 53 digits. *)
Lemma of_int_pos (k : nat) :
  (0 < k)%nat → Z.of_nat k < 9007199254740992 →
  ∃ (p m : positive),
    Z.of_nat k = Zpos p ∧
    of_int k = S754_finite false m (Zpos (digits2_pos p) - 53) ∧
    Zpos m = Zpos p * 2 ^ (53 - Zpos (digits2_pos p)) ∧
    Zpos (digits2_pos m) = 53 ∧
    1 <= Zpos (digits2_pos p) <= 53.
Proof.
  intros Hk Hlt. destruct (Z.of_nat k) as [|p|p] eqn:Hp; try lia.
  pose proof (digits2_bounds p) as [Hlo Hhi].
  set (d := Zpos (digits2_pos p)) in *.
  assert (Hd : 1 <= d <= 53).
  { split; [subst d; lia|].
    destruct (Z.le_gt_cases d 53); [assumption|exfalso].
    assert (2 ^ 53 <= 2 ^ (d - 1)) by (apply Z.pow_le_mono_r; lia).
    change (2 ^ 53) with 9007199254740992 in *. lia. }
  destruct (binary_round_normal false p 0) as (m2 & Hb & Hsmall & _ & Heq);
    fold d; try lia.
  fold d in Hsmall, Heq. specialize (Hsmall ltac:(lia)).
  assert (Hm2 : m2 < 9007199254740992).
  { rewrite Hsmall.
    assert (2 ^ d = 2 ^ (d - 1) * 2) by
      (replace d with (d - 1 + 1) at 1 by lia; rewrite Z.pow_add_r by lia; reflexivity).
    assert (Hp53 : 2 ^ d * 2 ^ (53 - d) = 9007199254740992).
    { rewrite <- Z.pow_add_r by lia. replace (d + (53 - d)) with 53 by lia. reflexivity. }
    assert (0 < 2 ^ (53 - d)) by (apply Z.pow_pos_nonneg; lia). nia. }
  exists p, (Z.to_pos m2). split; [reflexivity|].
  assert (Hz : Zpos (Z.to_pos m2) = m2) by (apply Z2Pos.id; lia).
  split.
  { unfold of_int, binary_normalize. rewrite Hp, Heq.
    destruct (Z.ltb_spec m2 9007199254740992); [|lia]. f_equal; lia. }
  split; [rewrite Hz; exact Hsmall|]. split; [|exact Hd].
  apply digits2_unique. rewrite Hz. cbn. lia.
Qed.

(** *** Frequencies and their complement to one *)

(** A normalized binary64 number in [[2^-53, 1]]. *)
Local Abbreviation in_unit f :=
  (∃ m e, f = S754_finite false m e ∧
          4503599627370496 <= Zpos m < 9007199254740992 ∧
          -105 <= e <= -52 ∧
          (e = -52 → Zpos m = 4503599627370496)).

(** Zero or a positive binary64 number below [1.0]. *)
Local Abbreviation below_one g :=
  (g = S754_zero false ∨ ∃ m e, g = S754_finite false m e ∧ e <= -53).

Lemma new_location_zero (nb : Z) : new_location nb 0 = loc_Exact.
Proof. unfold new_location. destruct (Z.even nb); reflexivity. Qed.

Lemma div_core_spec (ma mb : positive) (ea eb : Z) :
  Zpos (digits2_pos ma) = 53 → Zpos (digits2_pos mb) = 53 →
  -52 <= ea - eb <= 0 →
  SFdiv_core_binary prec emax (Zpos ma) ea (Zpos mb) eb
  = (Zpos ma * 9007199254740992 / Zpos mb, ea - eb - 53,
     new_location (Zpos mb) ((Zpos ma * 9007199254740992) mod Zpos mb)).
Proof.
  intros Hda Hdb He. unfold SFdiv_core_binary. cbn [Zdigits2].
  rewrite Hda, Hdb.
  assert (Hf : Z.min (fexp prec emax (53 + ea - (53 + eb))) (ea - eb) = ea - eb - 53).
  { unfold fexp, emin, prec, emax. lia. }
  rewrite Hf.
  replace (ea - eb - (ea - eb - 53)) with 53 by lia.
  rewrite Z.shiftl_mul_pow2 by lia. change (2 ^ 53) with 9007199254740992.
  unfold Z.div, Z.modulo.
  destruct (Z.div_eucl (Zpos ma * 9007199254740992) (Zpos mb)) as [q r]. reflexivity.
Qed.

(** The frequency of an allele that occurs. *)
Lemma truediv_in_unit (c n : nat) :
  (0 < c <= n)%nat → Z.of_nat n < 9007199254740992 →
  in_unit (SFdiv prec emax (of_int c) (of_int n)).
Proof.
  intros Hcn Hn.
  destruct (of_int_pos c) as (pc & ma & Hpc & -> & Hma & Hda & Hdc); [lia|lia|].
  destruct (of_int_pos n) as (pn & mb & Hpn & -> & Hmb & Hdb & Hdn); [lia|lia|].
  set (dc := Zpos (digits2_pos pc)) in *. set (dn := Zpos (digits2_pos pn)) in *.
  pose proof (digits2_bounds pc) as Hbc. pose proof (digits2_bounds pn) as Hbn.
  fold dc in Hbc. fold dn in Hbn.
  assert (Hle : Zpos pc <= Zpos pn) by lia.
  assert (Hd : dc <= dn).
  { destruct (Z.le_gt_cases dc dn); [assumption|exfalso].
    assert (2 ^ dn <= 2 ^ (dc - 1)) by (apply Z.pow_le_mono_r; lia). lia. }
  pose proof (digits2_bounds ma) as Hba. rewrite Hda in Hba.
  pose proof (digits2_bounds mb) as Hbb. rewrite Hdb in Hbb.
  change (2 ^ (53 - 1)) with 4503599627370496 in Hba, Hbb.
  change (2 ^ 53) with 9007199254740992 in Hba, Hbb.
  cbn [SFdiv]. rewrite div_core_spec by (assumption || lia).
  replace (dc - 53 - (dn - 53) - 53) with (dc - dn - 53) by lia. cbn [xorb].
  set (q := Zpos ma * 9007199254740992 / Zpos mb).
  assert (Hq : 4503599627370496 <= q < 18014398509481984).
  { subst q. split.
    - apply Z.div_le_lower_bound; lia.
    - apply Z.div_lt_upper_bound; lia. }
  destruct (Z.eq_dec dc dn) as [Heq|Hne].
  - (* same binary order of magnitude: the quotient is at most 1 *)
    assert (Hab : Zpos ma <= Zpos mb).
    { rewrite Hma, Hmb. fold dc dn. rewrite Heq.
      assert (0 < 2 ^ (53 - dn)) by (apply Z.pow_pos_nonneg; lia). nia. }
    assert (Hq1 : q <= 9007199254740992).
    { subst q. apply Z.div_le_upper_bound; lia. }
    destruct (Z.eq_dec q 9007199254740992) as [Hfull|Hless].
    + assert (Hsame : Zpos ma = Zpos mb).
      { assert (Zpos mb * q <= Zpos ma * 9007199254740992)
          by (subst q; apply Z.mul_div_le; lia).
        nia. }
      subst q. rewrite Hfull.
      replace ((Zpos ma * 9007199254740992) mod Zpos mb) with 0
        by (rewrite Hsame, Z.mul_comm; symmetry; apply Z.mod_mul; lia).
      rewrite new_location_zero. rewrite Heq.
      replace (dn - dn - 53) with (-53) by lia.
      exists 4503599627370496%positive, (-52). split; [reflexivity|]. lia.
    + destruct q as [|pq|pq] eqn:Eq; try lia.
      assert (Hdq : Zpos (digits2_pos pq) = 53) by (apply digits2_unique; cbn; lia).
      destruct (binary_round_aux_normal false pq (dc - dn - 53)
                  (new_location (Zpos mb) ((Zpos ma * 9007199254740992) mod Zpos mb)))
        as (m2 & Hm2 & _ & ->); rewrite ?Hdq; try lia.
      rewrite Hdq in Hm2. change (2 ^ (53 - 53)) with 1 in Hm2.
      rewrite Z.div_1_r in Hm2.
      destruct (Z.ltb_spec m2 9007199254740992).
      * exists (Z.to_pos m2), (53 + (dc - dn - 53) - 53).
        split; [reflexivity|]. rewrite Z2Pos.id by lia. lia.
      * exists 4503599627370496%positive, (53 + (dc - dn - 53) - 52).
        split; [reflexivity|]. lia.
  - destruct q as [|pq|pq] eqn:Eq; try lia.
    pose proof (digits2_bounds pq) as Hbq.
    set (dq := Zpos (digits2_pos pq)) in *.
    assert (Hdq : 53 <= dq <= 54).
    { split.
      - destruct (Z.le_gt_cases 53 dq); [assumption|exfalso].
        assert (2 ^ dq <= 2 ^ 52) by (apply Z.pow_le_mono_r; lia).
        change (2 ^ 52) with 4503599627370496 in *. lia.
      - destruct (Z.le_gt_cases dq 54); [assumption|exfalso].
        assert (2 ^ 54 <= 2 ^ (dq - 1)) by (apply Z.pow_le_mono_r; lia).
        change (2 ^ 54) with 18014398509481984 in *. lia. }
    pose proof (div_pow2_digits pq ltac:(fold dq; lia)) as Hm1. fold dq in Hm1.
    destruct (binary_round_aux_normal false pq (dc - dn - 53)
                (new_location (Zpos mb) ((Zpos ma * 9007199254740992) mod Zpos mb)))
      as (m2 & Hm2 & _ & ->); fold dq; try lia.
    fold dq in Hm2.
    destruct (Z.ltb_spec m2 9007199254740992).
    + exists (Z.to_pos m2), (dq + (dc - dn - 53) - 53).
      split; [reflexivity|]. rewrite Z2Pos.id by lia. lia.
    + exists 4503599627370496%positive, (dq + (dc - dn - 53) - 52).
      split; [reflexivity|]. lia.
Qed.

Lemma pow2_ge_exp (k : Z) : 0 <= k → 4503599627370496 <= 2 ^ k → 52 <= k.
Proof.
  intros Hk H. destruct (Z.le_gt_cases 52 k); [assumption|exfalso].
  assert (2 ^ k <= 2 ^ 51) by (apply Z.pow_le_mono_r; lia).
  change (2 ^ 51) with 2251799813685248 in *. lia.
Qed.

Lemma one_minus_general (m : positive) (e : Z) :
  4503599627370496 <= Zpos m < 9007199254740992 →
  -105 <= e <= -53 →
  (e = -105 → 4503599627370496 < Zpos m) →
  below_one (fsub f_one (S754_finite false m e)).
Proof.
  intros Hm He Hcorner. right.
  unfold fsub, f_one, SFsub. rewrite Z.min_r by lia.
  destruct (shl_align_spec 4503599627370496 (-52) e ltac:(lia)) as (m1 & -> & Hm1).
  destruct (shl_align_spec m e e ltac:(lia)) as (m' & -> & Hm').
  rewrite Z.sub_diag in Hm'. change (2 ^ 0) with 1 in Hm'.
  cbn [fst cond_Zopp].
  set (t := 2 ^ (-53 - e)).
  assert (Ht : 0 < t) by (apply Z.pow_pos_nonneg; lia).
  assert (Hm1' : Zpos m1 = 9007199254740992 * t).
  { rewrite Hm1. replace (-52 - e) with (1 + (-53 - e)) by lia.
    rewrite Z.pow_add_r by lia. change (2 ^ 1) with 2. subst t. lia. }
  assert (Hpow : 2 ^ (- e) = 9007199254740992 * t).
  { replace (- e) with (53 + (-53 - e)) by lia. rewrite Z.pow_add_r by lia.
    reflexivity. }
  destruct (Zpos m1 - Zpos m') as [|pM|pM] eqn:EM; try nia.
  unfold binary_normalize.
  assert (HM : Zpos pM = 9007199254740992 * t - Zpos m) by lia.
  pose proof (digits2_bounds pM) as HbM.
  set (d := Zpos (digits2_pos pM)) in *.
  assert (Hd : 1 <= d <= - e).
  { split; [subst d; lia|].
    destruct (Z.le_gt_cases d (- e)); [assumption|exfalso].
    assert (2 ^ (- e) <= 2 ^ (d - 1)) by (apply Z.pow_le_mono_r; lia). lia. }
  destruct (binary_round_normal false pM e) as (m2 & Hb2 & Hsmall & Hbig & ->);
    fold d; try lia.
  fold d in Hsmall, Hbig.
  destruct (Z.ltb_spec m2 9007199254740992) as [Hlt|Hge].
  { eexists _, _. split; [reflexivity|]. lia. }
  eexists _, _. split; [reflexivity|].
  destruct (Z.eq_dec (d + e) 0) as [Hz|Hz]; [exfalso|lia].
  assert (m2 = 9007199254740992) by lia. subst m2.
  destruct (Z.le_gt_cases d 53) as [Hd53|Hd53].
  { specialize (Hsmall Hd53).
    assert (H2d : 2 ^ d * 2 ^ (53 - d) = 9007199254740992).
    { rewrite <- Z.pow_add_r by lia. replace (d + (53 - d)) with 53 by lia.
      reflexivity. }
    assert (0 < 2 ^ (53 - d)) by (apply Z.pow_pos_nonneg; lia). nia. }
  specialize (Hbig ltac:(lia)).
  pose proof (div_pow2_digits pM ltac:(fold d; lia)) as Hm1b. fold d in Hm1b.
  assert (Hq : Zpos pM / 2 ^ (d - 53) = 9007199254740991) by lia.
  replace (d - 53) with (-53 - e) in Hq by lia. fold t in Hq.
  assert (Hge' : t * 9007199254740991 <= Zpos pM).
  { rewrite <- Hq. apply Z.mul_div_le. lia. }
  assert (Hmt : Zpos m <= t) by lia.
  assert (H52 : 52 <= -53 - e) by (apply pow2_ge_exp; [lia|fold t; lia]).
  assert (e = -105) by lia. subst e.
  specialize (Hcorner eq_refl).
  subst t. change (2 ^ (-53 - -105)) with 4503599627370496 in Hmt. lia.
Qed.

(** [1.0 - f] stays below [1.0] for a frequency [f] in [[2^-53, 1]]. *)
Lemma one_minus_in_unit (f : spec_float) :
  in_unit f → below_one (fsub f_one f).
Proof.
  intros (m & e & -> & Hm & He & Hone).
  destruct (Z.eq_dec e (-52)) as [He52|He52].
  { (* f is 1.0 *)
    specialize (Hone He52). injection Hone as ->. subst e. left. reflexivity. }
  destruct (Z.eq_dec (Zpos m) 4503599627370496) as [Hm52|Hm52].
  - destruct (Z.eq_dec e (-105)) as [He105|He105].
    + (* f is 2^-53: the complement is the float just below 1.0 *)
      injection Hm52 as ->. subst e. right.
      exists 9007199254740991%positive, (-53). split; [reflexivity|]. lia.
    + apply one_minus_general; lia.
  - apply one_minus_general; lia.
Qed.

(** *** Comparisons *)

Lemma below_one_lt (g : spec_float) :
  below_one g → flt g f_one = true ∧ fgt g f_one = false.
Proof.
  unfold flt, fgt, SFltb, f_one.
  intros [->|(m & e & -> & He)]; cbn [SFcompare]; [split; reflexivity|].
  destruct (Z.compare_spec e (-52)); [lia|split; reflexivity|lia].
Qed.

(** *** The largest frequency *)

Local Abbreviation zero_or_unit f := (f = S754_zero false ∨ in_unit f).

Lemma fgt_zero_or_unit (y m : spec_float) :
  zero_or_unit y → zero_or_unit m →
  (fgt y m = true → in_unit y) ∧ (in_unit y → ¬ in_unit m → fgt y m = true).
Proof.
  unfold fgt.
  intros [->|(my & ey & -> & Hy)] [->|(mm & em & -> & Hm)]; cbn [SFcompare].
  - split; [discriminate|]. intros (? & ? & ? & _); discriminate.
  - split; [discriminate|]. intros (? & ? & ? & _); discriminate.
  - split; [|reflexivity]. intros _. exists my, ey. auto.
  - split; [intros _; exists my, ey; auto|].
    intros _ Hn. exfalso. apply Hn. exists mm, em. auto.
Qed.

Lemma fold_max_in_unit (l : list spec_float) : ∀ m,
  Forall (λ f, zero_or_unit f) l → zero_or_unit m →
  in_unit m ∨ Exists (λ f, in_unit f) l →
  in_unit (fold_left (λ m y, if fgt y m then y else m) l m).
Proof.
  induction l as [|y l IH]; intros m Hl Hm Hex; cbn [fold_left].
  - destruct Hex as [Hu|Hex]; [exact Hu|inversion Hex].
  - inversion Hl as [|? ? Hy Hl']; subst.
    destruct (fgt_zero_or_unit y m Hy Hm) as [Hgt Hlt].
    apply IH; [exact Hl'| |].
    + destruct (fgt y m); assumption.
    + destruct (fgt y m) eqn:E.
      * left. apply Hgt. reflexivity.
      * destruct Hex as [Hu|Hex]; [left; exact Hu|].
        inversion Hex as [? ? Hyu|? ? Hrest]; subst; [|right; exact Hrest].
        left. destruct Hm as [->|Hmu]; [|exact Hmu].
        exfalso. enough (false = true) by discriminate.
        apply Hlt; [exact Hyu|]. intros (? & ? & ? & _); discriminate.
Qed.

Lemma sum_bool_le (l : list bool) : (sum_bool l <= length l)%nat.
Proof. unfold sum_bool. apply filter_length_le. Qed.

Lemma sum_bool_pos (a : nat) (l : list nat) :
  In a l → (0 < sum_bool (map (λ x, x =? a)%nat l))%nat.
Proof.
  unfold sum_bool. induction l as [|x l IH]; intros Hin; [destruct Hin|].
  cbn [map List.filter]. destruct (Nat.eqb_spec x a); cbn [length]; [lia|].
  destruct Hin as [Hx|Hin]; [congruence|]. apply IH. exact Hin.
Qed.

(** Lines 103-105 raise nothing and give a minor allele frequency below
    [1.0] when there is a haplotype and fewer than [2^53] of them. *)
Lemma allele_stats_below_one (n : nat) (valleles : list nat) :
  valleles ≠ [] → length valleles = n → Z.of_nat n < 9007199254740992 →
  ∃ maxalleleplus allelefreqs maf,
    allele_stats n valleles = Some (maxalleleplus, allelefreqs, maf) ∧
    length allelefreqs = maxalleleplus ∧
    below_one maf.
Proof.
  intros Hne Hlen Hn.
  destruct valleles as [|a0 rest] eqn:Hv; [congruence|]. rewrite <- Hv in *.
  assert (Hin : In a0 valleles) by (rewrite Hv; left; reflexivity).
  assert (Hn0 : n ≠ 0%nat) by (rewrite <- Hlen, Hv; discriminate).
  unfold allele_stats, max_nat.
  destruct (remove_dups valleles) as [|u us] eqn:Hu.
  { exfalso. apply list_elem_of_In in Hin. apply elem_of_remove_dups in Hin.
    rewrite Hu in Hin. inversion Hin. }
  rewrite <- Hu. cbn [mbind option_bind].
  set (mx := max_list (remove_dups valleles)).
  assert (Ha0 : (a0 <= mx)%nat).
  { subst mx. apply max_list_elem_of_le. apply elem_of_remove_dups.
    apply list_elem_of_In. exact Hin. }
  set (g := λ i : nat,
         SFdiv prec emax (of_int (sum_bool (map (λ x, x =? i)%nat valleles))) (of_int n)).
  assert (Hfreqs : allelefreqs_of n valleles (mx + 1) = Some (map g (seq 0 (mx + 1)))).
  { unfold allelefreqs_of. apply mapM_Some_2.
    induction (seq 0 (mx + 1)) as [|i l IH]; constructor; [|exact IH].
    unfold truediv. destruct (Nat.eqb_spec n 0); [contradiction|reflexivity]. }
  rewrite Hfreqs. cbn [mbind option_bind].
  assert (Hzu : ∀ i, zero_or_unit (g i)).
  { intros i. subst g. cbv beta.
    pose proof (sum_bool_le (map (λ x, x =? i)%nat valleles)) as Hle.
    rewrite length_map, Hlen in Hle.
    destruct (sum_bool (map (λ x, x =? i)%nat valleles)) as [|c] eqn:Hc.
    - left. rewrite of_int_zero.
      destruct (of_int_pos n) as (pn & mb & _ & -> & _); [lia|lia|]. reflexivity.
    - right. apply truediv_in_unit; lia. }
  assert (Hunit : in_unit (g a0)).
  { destruct (Hzu a0) as [Hz|Hu0]; [|exact Hu0]. exfalso.
    pose proof (sum_bool_pos a0 valleles Hin) as Hpos.
    pose proof (sum_bool_le (map (λ x, x =? a0)%nat valleles)) as Hle.
    rewrite length_map, Hlen in Hle.
    destruct (truediv_in_unit (sum_bool (map (λ x, x =? a0)%nat valleles)) n)
      as (m & e & Hg & _); [lia|lia|].
    subst g. cbv beta in Hz. congruence. }
  replace (mx + 1)%nat with (S mx) by lia.
  cbn [seq map max_float].
  cbn [mbind option_bind].
  eexists _, _, _. split; [reflexivity|].
  split; [cbn [length]; rewrite length_map, length_seq; lia|].
  apply one_minus_in_unit. apply fold_max_in_unit.
  - apply List.Forall_forall. intros f Hf. apply in_map_iff in Hf as (i & <- & _).
    apply Hzu.
  - apply Hzu.
  - destruct a0 as [|a0']; [left; exact Hunit|right].
    apply List.Exists_exists. exists (g (S a0')). split; [|exact Hunit].
    apply in_map. apply in_seq. lia.
Qed.

End FloatFacts.

(** ** The frequency filter *)

Module FilterFacts.
Import Py Gcs FloatFacts.

Lemma valleles_of_length (vindex : list nat) (v : vrec) (valleles : list nat) :
  valleles_of vindex v = Some valleles → length valleles = 2 * length vindex.
Proof.
  unfold valleles_of. destruct (mapM _ vindex) as [gs|] eqn:Hgs; [|discriminate].
  cbn [mbind option_bind]. intros [= <-].
  apply length_mapM in Hgs. rewrite length_app, !length_map. lia.
Qed.

Lemma feq_not_flt (a b : spec_float) : feq a b = true → flt a b = false.
Proof.
  unfold feq, flt, SFeqb, SFltb. destruct (SFcompare a b) as [[]|]; congruence.
Qed.

(** What a variant that took no [continue] goes through. *)
Lemma process_kept cfg st v valleles nalleles maxalleleplus allelefreqs :
  valleles_of (vindex cfg) v = Some valleles →
  frequency_filter cfg valleles = Some (Keep nalleles maxalleleplus allelefreqs) →
  process_variant cfg st v
  = let '(othis, (p, c, rest)) :=
      Sync.sync (vpos v) (oprev st) (onew st) (omibdfile st) in
    o ← analyse cfg othis (vpos v) valleles nalleles maxalleleplus allelefreqs
          (outputs st);
    Some (mk_state p c rest o).
Proof.
  intros Hv Hf. unfold process_variant.
  destruct (Sync.sync _ _ _ _) as [othis [[p c] rest]].
  rewrite Hv. cbn [mbind option_bind]. rewrite Hf. reflexivity.
Qed.

Lemma process_skipped cfg st v valleles r :
  valleles_of (vindex cfg) v = Some valleles →
  frequency_filter cfg valleles = Some (Skip r) →
  ∃ st', process_variant cfg st v = Some st' ∧ outputs st' = outputs st.
Proof.
  intros Hv Hf. unfold process_variant.
  destruct (Sync.sync _ _ _ _) as [othis [[p c] rest]].
  rewrite Hv. cbn [mbind option_bind]. rewrite Hf. cbn [mbind option_bind].
  eexists; split; reflexivity.
Qed.

(** Lines 103-106 on the alleles of a variant line. *)
Lemma stats_of_variant cfg v valleles :
  valleles_of (vindex cfg) v = Some valleles →
  vindex cfg ≠ [] →
  (Z.of_nat (n cfg) < 9007199254740992)%Z →
  ∃ maxalleleplus allelefreqs maf,
    allele_stats (n cfg) valleles = Some (maxalleleplus, allelefreqs, maf) ∧
    length allelefreqs = maxalleleplus ∧
    flt maf f_one = true ∧
    fgt maf maxmaf = false.
Proof.
  intros Hv Hne Hn.
  pose proof (valleles_of_length _ _ _ Hv) as Hlen.
  assert (Hne' : valleles ≠ []).
  { intros ->. destruct (vindex cfg); [congruence|discriminate]. }
  destruct (allele_stats_below_one (n cfg) valleles Hne' Hlen Hn)
    as (ma & af & maf & Hs & Hl & Hb).
  destruct (below_one_lt maf Hb) as [Hlt Hgt].
  exists ma, af, maf. auto.
Qed.

(** C10. With at least one sample and fewer than [2^53] haplotypes (the
    sizes at which the counts convert to binary64 without rounding),
    lines 103-105 raise nothing and the minor allele frequency they
    compute compares strictly below [1.0]; the test [maf > maxmaf] of
    line 106 is false and the filter never skips the variant for that
    reason. *)
Theorem C10_max_maf_never_skips cfg v valleles :
  valleles_of (vindex cfg) v = Some valleles →
  vindex cfg ≠ [] →
  (Z.of_nat (n cfg) < 9007199254740992)%Z →
  ∃ maxalleleplus allelefreqs maf,
    allele_stats (n cfg) valleles = Some (maxalleleplus, allelefreqs, maf) ∧
    flt maf f_one = true ∧
    fgt maf maxmaf = false ∧
    frequency_filter cfg valleles ≠ Some (Skip AboveMax).
Proof.
  intros Hv Hne Hn.
  destruct (stats_of_variant cfg v valleles Hv Hne Hn)
    as (ma & af & maf & Hs & _ & Hlt & Hgt).
  exists ma, af, maf. split; [exact Hs|]. split; [exact Hlt|].
  split; [exact Hgt|].
  unfold frequency_filter. destruct (_ =? 1); [discriminate|].
  rewrite Hs. cbn [mbind option_bind]. rewrite Hgt.
  destruct (flt maf (minaf cfg)); discriminate.
Qed.

Lemma C10_max_maf_never_skips_witness :
  let cfg := mk_config (S754_finite false 4503599627370496 (-54)) [0; 1] 4 in
  frequency_filter cfg [0; 0; 0; 1] ≠ Some (Skip AboveMax).
Proof.
  intros cfg.
  destruct (C10_max_maf_never_skips cfg (mk_vrec 7 [(0, 0); (0, 1)]) [0; 0; 0; 1])
    as (ma & af & maf & _ & _ & _ & H).
  - reflexivity.
  - discriminate.
  - vm_compute. reflexivity.
  - exact H.
Defined.

(** The comparison of line 107, on the frequency that lines 103-105
    compute. With one sample at least and fewer than [2^53] haplotypes:
    when the variant is not monomorphic and the computed frequency
    compares equal to [minaf], the variant takes no [continue]; when it
    compares strictly below [minaf] the variant takes a [continue] and
    nothing is written or counted for it; a variant that is not
    monomorphic is kept exactly when the computed frequency is not below
    [minaf]. *)
Lemma lower_bound_on_computed_maf cfg st v valleles :
  valleles_of (vindex cfg) v = Some valleles →
  vindex cfg ≠ [] →
  (Z.of_nat (n cfg) < 9007199254740992)%Z →
  maxmaf = f_one ∧
  ∃ maxalleleplus allelefreqs maf,
    let kept := Keep (length (remove_dups valleles)) maxalleleplus allelefreqs in
    allele_stats (n cfg) valleles = Some (maxalleleplus, allelefreqs, maf) ∧
    (length (remove_dups valleles) ≠ 1 →
     feq maf (minaf cfg) = true →
     frequency_filter cfg valleles = Some kept ∧
     process_variant cfg st v
     = let '(othis, (p, c, rest)) :=
         Sync.sync (vpos v) (oprev st) (onew st) (omibdfile st) in
       o ← analyse cfg othis (vpos v) valleles (length (remove_dups valleles))
             maxalleleplus allelefreqs (outputs st);
       Some (mk_state p c rest o)) ∧
    (flt maf (minaf cfg) = true →
     (∃ r, frequency_filter cfg valleles = Some (Skip r)) ∧
     ∃ st', process_variant cfg st v = Some st' ∧ outputs st' = outputs st) ∧
    (length (remove_dups valleles) ≠ 1 →
     (frequency_filter cfg valleles = Some kept ↔ flt maf (minaf cfg) = false)).
Proof.
  intros Hv Hne Hn. split; [reflexivity|].
  destruct (stats_of_variant cfg v valleles Hv Hne Hn)
    as (ma & af & maf & Hs & _ & _ & Hgt).
  exists ma, af, maf. cbv zeta. split; [exact Hs|].
  assert (Hf : frequency_filter cfg valleles
               = Some (if length (remove_dups valleles) =? 1 then Skip Monomorphic
                       else if flt maf (minaf cfg) then Skip BelowMin
                       else Keep (length (remove_dups valleles)) ma af)).
  { unfold frequency_filter.
    destruct (length (remove_dups valleles) =? 1); [reflexivity|].
    rewrite Hs. cbn [mbind option_bind]. rewrite Hgt.
    destruct (flt maf (minaf cfg)); reflexivity. }
  split; [|split].
  - intros Hmono Heq. apply feq_not_flt in Heq. rewrite Heq in Hf.
    destruct (Nat.eqb_spec (length (remove_dups valleles)) 1); [contradiction|].
    split; [exact Hf|]. apply process_kept; assumption.
  - intros Hlt. rewrite Hlt in Hf.
    assert (Hskip : ∃ r, frequency_filter cfg valleles = Some (Skip r)).
    { destruct (length (remove_dups valleles) =? 1); eauto. }
    split; [exact Hskip|]. destruct Hskip as [r Hr].
    eapply process_skipped; eassumption.
  - intros Hmono.
    destruct (Nat.eqb_spec (length (remove_dups valleles)) 1); [contradiction|].
    rewrite Hf. destruct (flt maf (minaf cfg)); split; congruence.
Qed.

(** C4. The lower bound misses its own boundary. At [minaf = 0.1] (the
    binary64 value that [float] gives for the text 0.1), take five
    samples of which nine haplotypes carry allele 0 and one carries
    allele 1: the minor allele frequency is one tenth, and the quotient
    [1/10] that line 104 computes for allele 1 is [minaf] itself. Line
    105 computes [1.0 - 0.9], which is [0.09999999999999998] and compares
    strictly below [minaf]: the variant takes the [continue] of line 107
    and nothing is written for it. At [minaf = 0.25], where the
    subtraction is exact, a variant at the boundary is kept. *)
Theorem C4_boundary_skipped :
  let tenth := S754_finite false 7205759403792794 (-56) in
  let cfg := mk_config tenth [0; 1; 2; 3; 4] 10 in
  let v := mk_vrec 100 [(0, 0); (0, 0); (0, 0); (0, 0); (0, 1)] in
  let valleles := [0; 0; 0; 0; 0; 0; 0; 0; 0; 1] in
  let maf := S754_finite false 7205759403792792 (-56) in
  valleles_of (vindex cfg) v = Some valleles ∧
  sum_bool (map (λ x, x =? 1) valleles) = 1 ∧ n cfg = 10 ∧
  truediv 1 10 = Some (minaf cfg) ∧
  allele_stats (n cfg) valleles
  = Some (2, [S754_finite false 8106479329266893 (-53); tenth], maf) ∧
  flt maf (minaf cfg) = true ∧ feq maf (minaf cfg) = false ∧
  frequency_filter cfg valleles = Some (Skip BelowMin) ∧
  (∀ st, ∃ st', process_variant cfg st v = Some st' ∧ outputs st' = outputs st) ∧
  let quarter := S754_finite false 4503599627370496 (-54) in
  ∃ maxalleleplus allelefreqs,
    allele_stats 4 [0; 0; 0; 1] = Some (maxalleleplus, allelefreqs, quarter) ∧
    frequency_filter (mk_config quarter [0; 1] 4) [0; 0; 0; 1]
    = Some (Keep 2 maxalleleplus allelefreqs).
Proof.
  intros tenth cfg v valleles maf.
  assert (Hskip : frequency_filter cfg valleles = Some (Skip BelowMin)) by reflexivity.
  repeat (split; [reflexivity|]). split.
  - intros st. apply (process_skipped cfg st v valleles BelowMin); [reflexivity|exact Hskip].
  - intros quarter. eexists _, _. split; reflexivity.
Qed.

End FilterFacts.

(** ** The tabulator *)

Module TabulateFacts.
Import Py Gcs PyFacts.

Lemma foldlM_app {A S} (f : S → A → option S) (l1 l2 : list A) : ∀ s,
  foldlM f (l1 ++ l2) s = (s' ← foldlM f l1 s; foldlM f l2 s').
Proof.
  induction l1 as [|a l1 IH]; intros s; cbn [app foldlM]; [reflexivity|].
  destruct (f s a) as [s1|]; cbn [mbind option_bind]; [apply IH|reflexivity].
Qed.

Lemma filter_seq_S (f : nat → bool) (k : nat) :
  length (List.filter f (seq 0 (S k)))
  = length (List.filter f (seq 0 k)) + (if f k then 1 else 0).
Proof.
  rewrite seq_S, List.filter_app, length_app. cbn [List.filter Nat.add].
  destruct (f k); reflexivity.
Qed.

Lemma length_filter_filter {A} (p q : A → bool) (l : list A) :
  length (List.filter q (List.filter p l))
  = length (List.filter (λ i, p i && q i) l).
Proof.
  induction l as [|a l IH]; [reflexivity|]. cbn [List.filter].
  destruct (p a); cbn [andb List.filter]; [destruct (q a); cbn [length]; lia|exact IH].
Qed.

Section Tabulate.
Variables (oclust valleles : list nat) (maxclustplus maxalleleplus : nat).

(** Haplotype [i] is in cluster [j]; haplotype [i] carries allele [a]. *)
Local Abbreviation in_cluster j :=
  (λ i, match oclust !! i with Some c => c =? j | None => false end).
Local Abbreviation carries a :=
  (λ i, match valleles !! i with Some b => b =? a | None => false end).

(** After the first [k] haplotypes the table counts the members of each
    cluster among them and, for each allele, its carriers among these. *)
Lemma tabulate_prefix (k : nat) : ∀ counts clustsize,
  foldlM (tabulate_step oclust valleles) (seq 0 k)
         (replicate maxclustplus (replicate maxalleleplus 0),
          replicate maxclustplus 0) = Some (counts, clustsize) →
  ∀ j, j < maxclustplus →
    clustsize !! j = Some (length (List.filter (in_cluster j) (seq 0 k))) ∧
    ∃ x, counts !! j = Some x ∧
         ∀ a, a < maxalleleplus →
              x !! a = Some (length (List.filter (λ i, in_cluster j i && carries a i)
                                                 (seq 0 k))).
Proof.
  induction k as [|k IH]; intros counts clustsize H j Hj.
  - cbn [seq foldlM] in H. injection H as <- <-. cbn [List.filter length].
    split; [apply lookup_replicate_2; exact Hj|].
    exists (replicate maxalleleplus 0). split; [apply lookup_replicate_2; exact Hj|].
    intros a Ha. apply lookup_replicate_2. exact Ha.
  - rewrite seq_S, foldlM_app in H. cbn [Nat.add] in H.
    destruct (foldlM _ (seq 0 k) _) as [[c1 s1]|] eqn:Hk; [|discriminate].
    cbn [mbind option_bind foldlM] in H.
    destruct (tabulate_step oclust valleles (c1, s1) k) as [[c2 s2]|] eqn:Hstep;
      [|discriminate].
    cbn [mbind option_bind] in H. injection H as <- <-.
    destruct (IH c1 s1 eq_refl j Hj) as (Hs & x & Hx & Hcnt).
    unfold tabulate_step in Hstep.
    destruct (oclust !! k) as [c|] eqn:Hc; [|discriminate].
    cbn [mbind option_bind] in Hstep.
    destruct (c1 !! c) as [row|] eqn:Hrow; [|discriminate].
    cbn [mbind option_bind] in Hstep.
    destruct (valleles !! k) as [a0|] eqn:Ha0; [|discriminate].
    cbn [mbind option_bind] in Hstep.
    destruct (row !! a0) as [k0|] eqn:Hk0; [|discriminate].
    cbn [mbind option_bind] in Hstep.
    destruct (s1 !! c) as [z0|] eqn:Hz0; [|discriminate].
    cbn [mbind option_bind] in Hstep. injection Hstep as <- <-.
    rewrite filter_seq_S, Hc.
    destruct (Nat.eqb_spec c j) as [->|Hne].
    + split.
      * rewrite list_lookup_insert_eq by (eapply lookup_lt_Some; exact Hz0).
        f_equal. rewrite Hz0 in Hs. injection Hs as ->. lia.
      * exists (<[a0 := S k0]> row).
        split; [apply list_lookup_insert_eq; eapply lookup_lt_Some; exact Hrow|].
        intros a Ha. rewrite Hrow in Hx. injection Hx as <-.
        rewrite filter_seq_S, Hc, Ha0, Nat.eqb_refl. cbn [andb].
        destruct (Nat.eqb_spec a0 a) as [->|Hna].
        -- rewrite list_lookup_insert_eq by (eapply lookup_lt_Some; exact Hk0).
           f_equal. specialize (Hcnt a Ha). rewrite Hk0 in Hcnt.
           injection Hcnt as ->. lia.
        -- rewrite list_lookup_insert_ne by exact Hna.
           rewrite (Hcnt a Ha). f_equal. lia.
    + split.
      * rewrite list_lookup_insert_ne by exact Hne. rewrite Hs. f_equal. lia.
      * exists x. split; [rewrite list_lookup_insert_ne by exact Hne; exact Hx|].
        intros a Ha. rewrite filter_seq_S, Hc.
        destruct (Nat.eqb_spec c j); [contradiction|]. cbn [andb].
        rewrite (Hcnt a Ha). f_equal. lia.
Qed.

End Tabulate.

(** X7. The tabulator on aligned files ([nhaps] is the length of the cluster
    record): entry [j] of [clustsize] is the number of haplotypes of
    cluster [j], and entry [a] of row [j] of [counts] is the number of
    those that carry allele [a]. *)
Lemma tabulate_counts (oclust valleles : list nat) maxclustplus maxalleleplus
    counts clustsize j :
  tabulate (length oclust) oclust valleles maxclustplus maxalleleplus
  = Some (counts, clustsize) →
  j < maxclustplus →
  clustsize !! j = Some (length (indices_where (λ c, c =? j) oclust)) ∧
  ∃ x, counts !! j = Some x ∧
       ∀ a, a < maxalleleplus →
            x !! a
            = Some (length (List.filter
                              (λ h, match valleles !! h with
                                    | Some b => b =? a
                                    | None => false
                                    end)
                              (indices_where (λ c, c =? j) oclust))).
Proof.
  intros Htab Hj.
  destruct (tabulate_prefix oclust valleles maxclustplus maxalleleplus
              (length oclust) counts clustsize Htab j Hj) as (Hs & x & Hx & Hcnt).
  split; [exact Hs|]. exists x. split; [exact Hx|].
  intros a Ha. rewrite (Hcnt a Ha). f_equal. symmetry.
  apply length_filter_filter.
Qed.

Lemma tabulate_counts_witness :
  [3; 1] !! 0 = Some (length (indices_where (λ c, c =? 0) [0; 1; 0; 0])) ∧
  ∃ x, [[2; 1]; [0; 1]] !! 0 = Some x ∧
       ∀ a, a < 2 →
            x !! a
            = Some (length (List.filter
                              (λ h, match [0; 1; 1; 0] !! h with
                                    | Some b => b =? a
                                    | None => false
                                    end)
                              (indices_where (λ c, c =? 0) [0; 1; 0; 0]))).
Proof.
  apply (tabulate_counts [0; 1; 0; 0] [0; 1; 1; 0] 2 2 [[2; 1]; [0; 1]] [3; 1] 0);
    [reflexivity|lia].
Defined.

End TabulateFacts.

(** ** Whole runs *)

Module RunFacts.
Import Py Gcs.

(** [print_gcs] runs its body once for every cluster id below
    [len(oclust)] that has a row in [counts] and an entry in [clustsize],
    in ascending order of the id, with that row and that entry. *)
Lemma zip3_seq_lookup (counts : list (list nat)) : ∀ (clustsize : list nat) len s j i x z,
  zip3 (seq s len) counts clustsize !! j = Some (i, x, z) ↔
  i = s + j ∧ j < len ∧ counts !! j = Some x ∧ clustsize !! j = Some z.
Proof.
  induction counts as [|x0 counts IH]; intros clustsize len s j i x z.
  - destruct len; cbn [seq zip3]; (split; [discriminate|]);
      intros (_ & _ & H & _); discriminate.
  - destruct len as [|len]; cbn [seq zip3].
    { split; [discriminate|]. intros (_ & H & _). lia. }
    destruct clustsize as [|z0 clustsize].
    { split; [discriminate|]. intros (_ & _ & _ & H). discriminate. }
    destruct j as [|j]; cbn [lookup list_lookup].
    + split.
      * intros [= <- <- <-]. repeat split; lia.
      * intros (-> & _ & [= <-] & [= <-]). f_equal. f_equal. f_equal. lia.
    + rewrite IH. split; intros (-> & Hj & Hx & Hz); repeat split; auto; lia.
Qed.

(** The cluster record gives an even number of haplotypes: side 0 of
    every individual, then side 1. *)
Lemma oclust_of_length (r : orec) : length (oclust_of r) = 2 * length (ocols r).
Proof. unfold oclust_of. rewrite length_app, !length_map. lia. Qed.

Lemma print_gcs_clusters nindiv (valleles oclust : list nat) counts pos clustsize o :
  print_gcs nindiv valleles oclust counts pos clustsize o
  = foldlM (cluster_body nindiv valleles oclust pos)
           (zip3 (seq 0 (length oclust)) counts clustsize) o
  ∧ ∀ j i x z,
      zip3 (seq 0 (length oclust)) counts clustsize !! j = Some (i, x, z) ↔
      i = j ∧ j < length oclust ∧ counts !! j = Some x ∧ clustsize !! j = Some z.
Proof.
  split; [reflexivity|]. intros j i x z. rewrite zip3_seq_lookup. cbn. tauto.
Qed.

(** A run over three variants. The first lies between the two cluster
    lines and nearer to the earlier one; its second cluster mixes three
    carriers of allele 0 with two of allele 1, heterozygous ones among
    them. The second is monomorphic. The third lies after the last
    cluster line; all its haplotypes are in one cluster and homozygous. *)
Example run_three_variants :
  let tenth := S754_finite false 7205759403792794 (-56) in
  let first := mk_orec 100 [(0, 1); (0, 1); (0, 1); (0, 1); (0, 1)] in
  let second := mk_orec 200 [(0, 0); (0, 0); (0, 0); (0, 0); (0, 0)] in
  let '(cfg, st) := start tenth [0; 1; 2; 3; 4] first [second] in
  main_loop cfg st
    [mk_vrec 120 [(0, 0); (0, 0); (0, 0); (0, 1); (0, 1)];
     mk_vrec 250 [(1, 1); (1, 1); (1, 1); (1, 1); (1, 1)];
     mk_vrec 260 [(0, 0); (0, 0); (1, 1); (1, 1); (0, 0)]]
  = Some (mk_state second second []
            (mk_outs ("120 3 2 0:1 1:1 2:1 3:1 4:1 " +:+ nl) "" 1 {[5 := 1]})).
Proof. reflexivity. Qed.

(** A variant line whose first cluster holds four homozygous carriers of
    alleles 0 and 1 and one heterozygous carrier of allele 2: the table
    gives the cluster size 5 and the counts 2, 2, 1, the cluster is
    reported, the deletion counter stays at 0 and the size counter is
    updated at 5. *)
Example run_third_allele_member :
  let twentieth := S754_finite false 7205759403792794 (-57) in
  let first := mk_orec 100 [(0, 1); (0, 2); (0, 3); (0, 4); (0, 5)] in
  let '(cfg, st) := start twentieth [0; 1; 2; 3; 4] first [] in
  let v := mk_vrec 100 [(0, 0); (0, 0); (1, 1); (1, 1); (2, 0)] in
  valleles_of (vindex cfg) v = Some [0; 0; 1; 1; 2; 0; 0; 1; 1; 0] ∧
  oclust_of first = [0; 0; 0; 0; 0; 1; 2; 3; 4; 5] ∧
  tabulate (nhaps cfg) (oclust_of first) [0; 0; 1; 1; 2; 0; 0; 1; 1; 0] 6 3
  = Some ([[2; 2; 1]; [1; 0; 0]; [1; 0; 0]; [0; 1; 0]; [0; 1; 0]; [1; 0; 0]],
          [5; 1; 1; 1; 1; 1]) ∧
  process_variant cfg st v
  = Some (mk_state first first []
            (mk_outs ("100 2 2 0:0 1:0 2:0 3:0 " +:+ nl) "" 0 {[5 := 1]})).
Proof. repeat split; reflexivity. Qed.

End RunFacts.

(** ** The synchronizer over a sorted file *)

Module SyncOrder.
Import Sync SyncFacts.
Local Open Scope Z_scope.

(** The loop stops on the first record at or after the variant; the
    record just before it, if the loop read any, is the previous one. *)
Lemma advance_first_at_or_after pos (pre : list orec) : ∀ oprev onew rest c suf,
  onew :: rest = pre ++ c :: suf →
  Forall (λ r, opos r < pos) pre →
  pos <= opos c →
  advance pos oprev onew rest = (List.last pre oprev, c, suf).
Proof.
  induction pre as [|x pre IH]; intros oprev onew rest c suf Hsplit Hpre Hc.
  - cbn [app] in Hsplit. injection Hsplit as -> ->.
    destruct suf; cbn [advance List.last];
      destruct (Z.ltb_spec (opos c) pos); (reflexivity || lia).
  - cbn [app] in Hsplit. injection Hsplit as -> ->.
    inversion Hpre as [|? ? Hx Hpre']; subst.
    rewrite last_cons.
    destruct pre as [|y pre]; cbn [app advance];
      (destruct (Z.ltb_spec (opos x) pos); [|lia]).
    + apply (IH x c suf c suf eq_refl Hpre' Hc).
    + apply (IH x y (pre ++ c :: suf) c suf eq_refl Hpre' Hc).
Qed.

Lemma split_at_pos pos (l : list orec) :
  Forall (λ r, opos r < pos) l ∨
  ∃ pre c suf, l = pre ++ c :: suf ∧ Forall (λ r, opos r < pos) pre ∧ pos <= opos c.
Proof.
  induction l as [|x l IH]; [left; constructor|].
  destruct (Z.lt_ge_cases (opos x) pos) as [Hx|Hx].
  - destruct IH as [Hall|(pre & c & suf & -> & Hpre & Hc)].
    + left. constructor; assumption.
    + right. exists (x :: pre), c, suf. split; [reflexivity|]. split; [|exact Hc].
      constructor; assumption.
  - right. exists [], x, l. split; [reflexivity|]. split; [constructor|lia].
Qed.

(** A cluster file in strictly increasing order of position. *)
Local Abbreviation increasing file :=
  (StronglySorted (λ a b : orec, opos a < opos b) file).

Lemma increasing_app (l1 l2 : list orec) :
  increasing (l1 ++ l2) → ∀ a b, In a l1 → In b l2 → opos a < opos b.
Proof.
  induction l1 as [|x l1 IH]; intros Hs a b Ha Hb; [destruct Ha|].
  cbn [app] in Hs. inversion Hs as [|? ? Hs' Hx]; subst.
  destruct Ha as [->|Ha]; [|eauto].
  rewrite List.Forall_forall in Hx. apply Hx. apply in_or_app. right. exact Hb.
Qed.

Lemma increasing_cons (x : orec) (l : list orec) :
  increasing (x :: l) → ∀ b, In b l → opos x < opos b.
Proof. intros Hs b Hb. apply (increasing_app [x] l Hs x b); [left; reflexivity|exact Hb]. Qed.

(** Where the buffers stand in the file before a variant at [lo] or
    later: at the start; after the end of the file; or on two
    consecutive records, the earlier one before [lo]. *)
Local Abbreviation buffers_at lo file oprev onew rest :=
  (∃ pre0 : list orec, file = pre0 ++ onew :: rest%list ∧
     ((oprev = onew ∧ pre0 = []) ∨
      (oprev = onew ∧ rest%list = [] ∧ opos onew < lo) ∨
      (∃ q, pre0 = q ++ [oprev] ∧ opos oprev < lo))).

Lemma nearest_of_two pos (p c r : orec) :
  (opos r <= opos p ∧ opos p < pos) ∨ (pos <= opos c ∧ opos c <= opos r) →
  dist pos (select pos p c) <= dist pos r.
Proof.
  intros H. destruct (select_cases pos p c) as [[Hlt ->]|[Hle ->]];
    unfold dist in *; lia.
Qed.

Lemma around (q : list orec) (p c : orec) (suf : list orec) (r : orec) :
  increasing (q ++ p :: c :: suf) → In r (q ++ p :: c :: suf) →
  opos r <= opos p ∨ opos c <= opos r.
Proof.
  intros Hinc Hr. apply in_app_or in Hr as [Hr|[<-|[<-|Hr]]].
  - left. pose proof (increasing_app _ _ Hinc r p Hr ltac:(left; reflexivity)). lia.
  - left. lia.
  - right. lia.
  - right. replace (q ++ p :: c :: suf) with ((q ++ [p; c]) ++ suf) in Hinc
      by (rewrite <- app_assoc; reflexivity).
    assert (Hc : In c (q ++ [p; c])) by (apply in_or_app; right; right; left; reflexivity).
    pose proof (increasing_app _ _ Hinc c r Hc Hr). lia.
Qed.

(** One variant keeps the buffers in place and takes a nearest record of
    the whole file. *)
Lemma sync_nearest_step file lo pos oprev onew rest othis p c rest' :
  increasing file →
  buffers_at lo file oprev onew rest →
  lo <= pos →
  sync pos oprev onew rest = (othis, (p, c, rest')) →
  buffers_at pos file p c rest' ∧
  In othis file ∧
  ∀ r, In r file → dist pos othis <= dist pos r.
Proof.
  intros Hinc (pre0 & Hfile & Hcase) Hlo Hsync. unfold sync in Hsync.
  assert (Htwo : ∀ (q : list orec) (x y : orec) (suf : list orec),
            file = q ++ x :: y :: suf → opos x < pos → pos <= opos y →
            In (select pos x y) file ∧
            ∀ r, In r file → dist pos (select pos x y) <= dist pos r).
  { intros q x y suf Hf Hx Hy. split.
    - rewrite Hf. apply in_or_app. right.
      destruct (select_cases pos x y) as [[_ ->]|[_ ->]];
        [right; left; reflexivity|left; reflexivity].
    - intros r Hr. apply nearest_of_two. rewrite Hf in Hr, Hinc.
      destruct (around q x y suf r Hinc Hr); [left|right]; lia. }
  destruct (split_at_pos pos (onew :: rest))
    as [Hall|(pre & c1 & suf & Hsplit & Hpre & Hc1)].
  - (* the file runs out *)
    rewrite advance_exhausted in Hsync by exact Hall.
    rewrite select_same in Hsync. injection Hsync as <- <- <- <-.
    set (l := List.last rest onew).
    assert (Hl : onew :: rest = removelast (onew :: rest) ++ [l]).
    { subst l. rewrite <- (last_cons rest onew onew).
      apply app_removelast_last. discriminate. }
    assert (Hlin : In l (onew :: rest)).
    { rewrite Hl. apply in_or_app. right. left. reflexivity. }
    assert (Hlpos : opos l < pos).
    { rewrite List.Forall_forall in Hall. apply Hall. exact Hlin. }
    assert (Hfile' : file = (pre0 ++ removelast (onew :: rest)) ++ [l]).
    { rewrite <- app_assoc, <- Hl. exact Hfile. }
    split; [|split].
    + exists (pre0 ++ removelast (onew :: rest)). split; [exact Hfile'|].
      right. left. auto.
    + rewrite Hfile. apply in_or_app. right. exact Hlin.
    + intros r Hr. rewrite Hfile' in Hr, Hinc.
      apply in_app_or in Hr as [Hr|[<-|[]]]; [|lia].
      pose proof (increasing_app _ _ Hinc r l Hr ltac:(left; reflexivity)).
      unfold dist. lia.
  - rewrite (advance_first_at_or_after pos pre oprev onew rest c1 suf Hsplit Hpre Hc1)
      in Hsync.
    injection Hsync as <- <- <- <-.
    destruct pre as [|x pre _] using rev_ind.
    + (* the loop reads nothing *)
      cbn [app] in Hsplit. injection Hsplit as -> ->. cbn [List.last].
      destruct Hcase as [[-> ->]|[(-> & -> & Hlt)|(q & -> & Hlt)]].
      * rewrite select_same. split; [|split].
        -- exists []. split; [exact Hfile|]. left. auto.
        -- rewrite Hfile. left. reflexivity.
        -- intros r Hr. rewrite Hfile in Hr, Hinc. cbn [app] in Hr, Hinc.
           destruct Hr as [<-|Hr]; [lia|].
           pose proof (increasing_cons _ _ Hinc r Hr). unfold dist. lia.
      * lia.
      * rewrite <- app_assoc in Hfile. cbn [app] in Hfile.
        split; [|apply (Htwo q oprev c1 suf Hfile); lia].
        exists (q ++ [oprev]). split; [rewrite <- app_assoc; exact Hfile|].
        right. right. exists q. split; [reflexivity|lia].
    + (* the loop reads up to [c1]; [x] is the record before it *)
      rewrite last_last.
      assert (Hx : opos x < pos).
      { rewrite List.Forall_forall in Hpre. apply Hpre. apply in_or_app.
        right. left. reflexivity. }
      assert (Hfile' : file = (pre0 ++ pre) ++ x :: c1 :: suf).
      { rewrite Hfile, Hsplit, <- !app_assoc. reflexivity. }
      split; [|apply (Htwo (pre0 ++ pre) x c1 suf Hfile' Hx Hc1)].
      exists ((pre0 ++ pre) ++ [x]). split.
      * rewrite Hfile', <- !app_assoc. reflexivity.
      * right. right. exists (pre0 ++ pre). auto.
Qed.

(** Along variants in non-decreasing order of position, over a cluster
    file in strictly increasing order, every record used is a record of
    the file nearest to the variant. *)
Lemma run_nearest_from file (poss : list Z) : ∀ lo oprev onew rest,
  increasing file →
  buffers_at lo file oprev onew rest →
  StronglySorted Z.le (lo :: poss) →
  Forall2 (λ pos othis, In othis file ∧ ∀ r, In r file → dist pos othis <= dist pos r)
          poss (run poss oprev onew rest).
Proof.
  induction poss as [|pos poss IH]; intros lo oprev onew rest Hinc Hbuf Hs;
    cbn [run]; [constructor|].
  destruct (sync pos oprev onew rest) as [othis [[p c] rest']] eqn:Hsync.
  inversion Hs as [|? ? Hs' Hlo]; subst.
  inversion Hlo as [|? ? Hle _]; subst.
  destruct (sync_nearest_step file lo pos oprev onew rest othis p c rest'
              Hinc Hbuf Hle Hsync) as (Hbuf' & Hin & Hnear).
  constructor; [split; assumption|].
  apply (IH pos p c rest' Hinc Hbuf' Hs').
Qed.

(** X1. Over a cluster file in increasing order of position and variants in
    non-decreasing order, the record chosen for each variant is a record
    of the file, and no record of the whole file is nearer to the
    variant. *)
Theorem run_nearest (first : orec) (rest : list orec) (poss : list Z) :
  increasing (first :: rest) →
  StronglySorted Z.le poss →
  Forall2 (λ pos othis,
             In othis (first :: rest) ∧
             ∀ r, In r (first :: rest) → dist pos othis <= dist pos r)
          poss (run poss first first rest).
Proof.
  intros Hinc Hs. destruct poss as [|pos poss]; [constructor|].
  apply (run_nearest_from (first :: rest) (pos :: poss) pos first first rest Hinc).
  - exists []. split; [reflexivity|]. left. auto.
  - constructor; [exact Hs|]. constructor; [lia|].
    inversion Hs; assumption.
Qed.

Lemma run_nearest_witness :
  let a := mk_orec 100 [] in
  let b := mk_orec 200 [] in
  let c := mk_orec 300 [] in
  run [120; 180; 180; 400] a a [b; c] = [a; b; b; c] ∧
  Forall2 (λ pos othis,
             In othis [a; b; c] ∧ ∀ r, In r [a; b; c] → dist pos othis <= dist pos r)
          [120; 180; 180; 400] (run [120; 180; 180; 400] a a [b; c]).
Proof.
  intros a b c. split; [reflexivity|].
  apply (run_nearest a [b; c] [120; 180; 180; 400]).
  - repeat constructor.
  - repeat constructor; cbn; lia.
Defined.

End SyncOrder.

(** ** Alleles, samples and sides *)

Module LayoutFacts.
Import Py Gcs.

(** Where the two alleles of one sample column go. *)
Lemma valleles_sides (vindex : list nat) (v : vrec) (valleles : list nat) k i :
  valleles_of vindex v = Some valleles →
  vindex !! k = Some i →
  ∃ a b, vcols v !! i = Some (a, b) ∧
         valleles !! k = Some a ∧
         valleles !! (length vindex + k) = Some b.
Proof.
  unfold valleles_of. destruct (mapM _ vindex) as [gs|] eqn:Hgs; [|discriminate].
  cbn [mbind option_bind]. intros [= <-] Hk.
  pose proof (length_mapM _ _ _ Hgs) as Hlen. apply mapM_Some_1 in Hgs.
  destruct (Forall2_lookup_l _ _ _ _ _ Hgs Hk) as ([a b] & Hg & Hcol).
  exists a, b. split; [exact Hcol|].
  pose proof (lookup_lt_Some _ _ _ Hg) as Hlt.
  rewrite lookup_app_l by (rewrite length_map; exact Hlt).
  rewrite lookup_app_r by (rewrite length_map; lia).
  rewrite length_map. replace (length vindex + k - length gs) with k by lia.
  rewrite !list_lookup_fmap, Hg. split; reflexivity.
Qed.

(** X2. Line 98 puts the first allele of sample [k] at index [k] and its
    second allele at index [nindiv + k]. *)
Theorem valleles_layout (vindex : list nat) (v : vrec) (valleles : list nat) :
  valleles_of vindex v = Some valleles →
  length valleles = 2 * length vindex ∧
  ∀ k i, vindex !! k = Some i →
    ∃ a b, vcols v !! i = Some (a, b) ∧
           valleles !! k = Some a ∧
           valleles !! (length vindex + k) = Some b.
Proof.
  unfold valleles_of. destruct (mapM _ vindex) as [gs|] eqn:Hgs; [|discriminate].
  cbn [mbind option_bind]. intros [= <-].
  pose proof (length_mapM _ _ _ Hgs) as Hlen.
  split; [rewrite length_app, !length_map; lia|].
  intros k i Hk. apply mapM_Some_1 in Hgs.
  destruct (Forall2_lookup_l _ _ _ _ _ Hgs Hk) as ([a b] & Hg & Hcol).
  exists a, b. split; [exact Hcol|]. split.
  - rewrite lookup_app_l by (rewrite length_map; eapply lookup_lt_Some; exact Hg).
    rewrite list_lookup_fmap, Hg. reflexivity.
  - rewrite lookup_app_r by (rewrite length_map; lia).
    rewrite length_map. replace (length vindex + k - length gs) with k by lia.
    rewrite list_lookup_fmap, Hg. reflexivity.
Qed.

Lemma valleles_layout_witness :
  let v := mk_vrec 100 [(0, 1); (2, 3); (4, 5)] in
  valleles_of [2; 0] v = Some [4; 0; 5; 1] ∧
  length [4; 0; 5; 1] = 2 * length [2; 0] ∧
  ∀ k i, [2; 0] !! k = Some i →
    ∃ a b, vcols v !! i = Some (a, b) ∧ [4; 0; 5; 1] !! k = Some a
           ∧ [4; 0; 5; 1] !! (length [2; 0] + k) = Some b.
Proof.
  intros v. split; [reflexivity|].
  apply (valleles_layout [2; 0] v [4; 0; 5; 1]). reflexivity.
Defined.

(** X3. On a line whose fields parse, line 98 raises exactly when a
    sample column that [vindex] points at is missing from the line. *)
Theorem valleles_of_raises (vindex : list nat) (v : vrec) :
  valleles_of vindex v = None ↔ ∃ i, In i vindex ∧ length (vcols v) ≤ i.
Proof.
  unfold valleles_of. split.
  - destruct (mapM _ vindex) as [gs|] eqn:Hgs; [discriminate|]. intros _.
    apply mapM_None_1 in Hgs. apply List.Exists_exists in Hgs as (i & Hi & Hnone).
    exists i. split; [exact Hi|]. apply lookup_ge_None. exact Hnone.
  - intros (i & Hi & Hlen).
    assert (Hnone : mapM (λ i, vcols v !! i) vindex = None).
    { apply mapM_None_2. apply List.Exists_exists. exists i. split; [exact Hi|].
      apply lookup_ge_None. exact Hlen. }
    rewrite Hnone. reflexivity.
Qed.

(** X4. [is_homozygous] gives the same answer for the two haplotypes of a
    sample: whether the two alleles of its genotype are equal. *)
Theorem is_homozygous_genotype (vindex : list nat) (v : vrec) (valleles : list nat)
    k i a b :
  valleles_of vindex v = Some valleles →
  vindex !! k = Some i →
  vcols v !! i = Some (a, b) →
  is_homozygous (length vindex) valleles k = Some (a =? b) ∧
  is_homozygous (length vindex) valleles (length vindex + k) = Some (a =? b).
Proof.
  intros Hv Hk Hcol.
  destruct (valleles_sides vindex v valleles k i Hv Hk) as (a' & b' & Hcol' & Ha & Hb).
  rewrite Hcol in Hcol'. injection Hcol' as <- <-.
  pose proof (lookup_lt_Some _ _ _ Hk) as Hlt.
  unfold is_homozygous. split.
  - destruct (Nat.ltb_spec k (length vindex)); [|lia].
    replace (k + length vindex) with (length vindex + k) by lia.
    rewrite Ha, Hb. reflexivity.
  - destruct (Nat.ltb_spec (length vindex + k) (length vindex)); [lia|].
    replace (length vindex + k - length vindex) with k by lia.
    rewrite Ha, Hb. cbn [mbind option_bind]. f_equal. apply Nat.eqb_sym.
Qed.

Lemma is_homozygous_genotype_witness :
  let v := mk_vrec 100 [(0, 1); (2, 3); (4, 4)] in
  is_homozygous 2 [4; 0; 4; 1] 0 = Some true ∧
  is_homozygous 2 [4; 0; 4; 1] 2 = Some true.
Proof.
  intros v.
  apply (is_homozygous_genotype [2; 0] v [4; 0; 4; 1] 0 2 4 4); reflexivity.
Defined.

(** X5. With two alleles per sample, [is_homozygous] raises exactly on a
    haplotype index past the end of the allele list. *)
Theorem is_homozygous_raises nindiv (valleles : list nat) h :
  length valleles = 2 * nindiv →
  (is_homozygous nindiv valleles h = None ↔ length valleles ≤ h).
Proof.
  intros Hlen. split.
  - intros Hnone. destruct (Nat.le_gt_cases (length valleles) h) as [|Hlt]; [assumption|].
    destruct (ClusterFacts.is_homozygous_total nindiv valleles h Hlen Hlt) as [b Hb].
    congruence.
  - intros Hge. unfold is_homozygous.
    rewrite (proj2 (lookup_ge_None valleles h) Hge). reflexivity.
Qed.

Lemma is_homozygous_raises_witness :
  is_homozygous 2 [4; 0; 4; 1] 4 = None ↔ length [4; 0; 4; 1] ≤ 4.
Proof.
  apply (is_homozygous_raises 2 [4; 0; 4; 1] 4). reflexivity.
Defined.

(** X6. The identity printed for haplotype [h] names the sample and the side
    whose allele [valleles[h]] is. *)
Theorem identity_names_allele (vindex : list nat) (v : vrec) (valleles : list nat) h :
  valleles_of vindex v = Some valleles →
  h < 2 * length vindex →
  ∃ i a b,
    vindex !! (h mod length vindex) = Some i ∧
    vcols v !! i = Some (a, b) ∧
    h / length vindex ≤ 1 ∧
    valleles !! h = Some (if h / length vindex =? 0 then a else b) ∧
    hap_id (2 * length vindex) h
    = Some (str_nat (h mod length vindex) +:+ ":" +:+ str_nat (h / length vindex)).
Proof.
  intros Hv Hh.
  assert (Hk0 : length vindex ≠ 0) by lia.
  pose proof (Nat.mod_upper_bound h (length vindex) Hk0) as Hmod.
  destruct (lookup_lt_is_Some_2 vindex _ Hmod) as [i Hi].
  destruct (valleles_sides vindex v valleles _ i Hv Hi) as (a & b & Hcol & Ha & Hb).
  pose proof (Nat.div_mod_eq h (length vindex)) as Hdm.
  assert (Hside : h / length vindex ≤ 1).
  { apply Nat.lt_succ_r. apply Nat.Div0.div_lt_upper_bound. lia. }
  exists i, a, b. split; [exact Hi|]. split; [exact Hcol|]. split; [exact Hside|].
  split.
  - destruct (h / length vindex) as [|[|s]] eqn:Hs; [| |lia]; cbn [Nat.eqb].
    + rewrite <- Ha. f_equal. lia.
    + rewrite <- Hb. f_equal. lia.
  - unfold hap_id. destruct (Nat.eqb_spec (2 * length vindex) 0); [lia|].
    destruct (ClusterFacts.ident_even (length vindex) h Hk0) as [-> ->]. reflexivity.
Qed.

Lemma identity_names_allele_witness :
  let v := mk_vrec 100 [(0, 1); (2, 3); (4, 5)] in
  ∃ i a b,
    [2; 0] !! (3 mod 2) = Some i ∧ vcols v !! i = Some (a, b) ∧ 3 / 2 ≤ 1 ∧
    [4; 0; 5; 1] !! 3 = Some (if 3 / 2 =? 0 then a else b) ∧
    hap_id (2 * 2) 3 = Some (str_nat (3 mod 2) +:+ ":" +:+ str_nat (3 / 2)).
Proof.
  intros v.
  apply (identity_names_allele [2; 0] v [4; 0; 5; 1] 3); [reflexivity|cbn; lia].
Defined.

End LayoutFacts.

(** ** Errors and totals of the tabulator *)

Module TabulateErrors.
Import Py Gcs CollapseFacts TabulateFacts.

Lemma sum_list_insert (l : list nat) : ∀ i x y,
  l !! i = Some x → sum_list (<[i := y]> l) + x = sum_list l + y.
Proof.
  induction l as [|z l IH]; intros i x y Hi; [discriminate|].
  destruct i as [|i]; simpl in *.
  - injection Hi as ->. lia.
  - specialize (IH i x y Hi). lia.
Qed.

Section Tabulate.
Variables (oclust valleles : list nat) (maxclustplus maxalleleplus : nat).

Local Abbreviation run_to k :=
  (foldlM (tabulate_step oclust valleles) (seq 0 k)
          (replicate maxclustplus (replicate maxalleleplus 0),
           replicate maxclustplus 0)).

(** One table update raises nothing when the haplotype is in both lists
    and its cluster id and allele code are inside the table. *)
Lemma tabulate_step_total (counts : list (list nat)) (clustsize : list nat) i c a :
  length counts = maxclustplus →
  Forall (λ x, length x = maxalleleplus) counts →
  length clustsize = maxclustplus →
  oclust !! i = Some c → valleles !! i = Some a →
  c < maxclustplus → a < maxalleleplus →
  is_Some (tabulate_step oclust valleles (counts, clustsize) i).
Proof.
  intros Hl Hrows Hs Hc Ha Hcm Ham. unfold tabulate_step. rewrite Hc.
  cbn [mbind option_bind].
  destruct (lookup_lt_is_Some_2 counts c ltac:(lia)) as [row Hrow]. rewrite Hrow.
  cbn [mbind option_bind]. rewrite Ha. cbn [mbind option_bind].
  pose proof (Forall_lookup_1 _ _ _ _ Hrows Hrow) as Hlen. cbv beta in Hlen.
  destruct (lookup_lt_is_Some_2 row a ltac:(lia)) as [k0 ->].
  cbn [mbind option_bind].
  destruct (lookup_lt_is_Some_2 clustsize c ltac:(lia)) as [z0 ->].
  cbn [mbind option_bind]. eauto.
Qed.

Lemma tabulate_prefix_total (k : nat) :
  Forall (λ c, c < maxclustplus) oclust →
  Forall (λ a, a < maxalleleplus) valleles →
  k ≤ length oclust → k ≤ length valleles →
  is_Some (run_to k).
Proof.
  intros Hoc Hva. induction k as [|k IH]; intros Ho Hv; [cbn; eauto|].
  destruct IH as [[c1 s1] Hk]; [lia|lia|].
  rewrite seq_S, foldlM_app, Hk. cbn [mbind option_bind Nat.add foldlM].
  destruct (tabulate_shape k oclust valleles maxclustplus maxalleleplus c1 s1 Hk)
    as (Hl & Hrows & Hs).
  destruct (lookup_lt_is_Some_2 oclust k ltac:(lia)) as [c Hc].
  destruct (lookup_lt_is_Some_2 valleles k ltac:(lia)) as [a Ha].
  destruct (tabulate_step_total c1 s1 k c a Hl Hrows Hs Hc Ha) as [acc Hacc].
  - exact (Forall_lookup_1 _ _ _ _ Hoc Hc).
  - exact (Forall_lookup_1 _ _ _ _ Hva Ha).
  - rewrite Hacc. cbn [mbind option_bind]. eauto.
Qed.

Lemma tabulate_step_missing (counts : list (list nat)) (clustsize : list nat) i :
  length counts = maxclustplus →
  Forall (λ c, c < maxclustplus) oclust →
  length oclust ≤ i ∨ length valleles ≤ i →
  tabulate_step oclust valleles (counts, clustsize) i = None.
Proof.
  intros Hl Hoc Hi. unfold tabulate_step.
  destruct (oclust !! i) as [c|] eqn:Hc; [|reflexivity]. cbn [mbind option_bind].
  destruct (counts !! c) as [row|]; [|reflexivity]. cbn [mbind option_bind].
  destruct Hi as [Hi|Hi].
  - apply lookup_lt_Some in Hc. lia.
  - rewrite (proj2 (lookup_ge_None valleles i) Hi). reflexivity.
Qed.

End Tabulate.

(** X8. The tabulation raises exactly when [nhaps] exceeds the number of
    cluster ids or the number of alleles of the line. *)
Theorem tabulate_raises nhaps (oclust valleles : list nat) maxclustplus maxalleleplus :
  Forall (λ c, c < maxclustplus) oclust →
  Forall (λ a, a < maxalleleplus) valleles →
  (tabulate nhaps oclust valleles maxclustplus maxalleleplus = None ↔
   length oclust < nhaps ∨ length valleles < nhaps).
Proof.
  intros Hoc Hva. split.
  - intros Hnone.
    destruct (Nat.le_gt_cases nhaps (length oclust)) as [Ho|Ho]; [|left; exact Ho].
    destruct (Nat.le_gt_cases nhaps (length valleles)) as [Hv|Hv]; [|right; exact Hv].
    destruct (tabulate_prefix_total oclust valleles maxclustplus maxalleleplus nhaps
                Hoc Hva Ho Hv) as [acc Hacc].
    unfold tabulate in Hnone. congruence.
  - intros Hlong. set (m := Nat.min (length oclust) (length valleles)).
    assert (Hm : m < nhaps) by lia.
    unfold tabulate.
    replace nhaps with (m + S (nhaps - S m)) by lia.
    rewrite seq_app, foldlM_app. cbn [Nat.add seq].
    destruct (tabulate_prefix_total oclust valleles maxclustplus maxalleleplus m
                Hoc Hva ltac:(lia) ltac:(lia)) as [[c1 s1] Hk].
    rewrite Hk. cbn [mbind option_bind foldlM].
    destruct (tabulate_shape m oclust valleles maxclustplus maxalleleplus c1 s1 Hk)
      as (Hl & _ & _).
    rewrite (tabulate_step_missing oclust valleles maxclustplus c1 s1 m Hl Hoc
               ltac:(lia)).
    reflexivity.
Qed.

Lemma tabulate_raises_witness :
  tabulate 6 [0; 1; 0; 1] [0; 0; 1; 1; 0; 1] 2 2 = None ↔
  length [0; 1; 0; 1] < 6 ∨ length [0; 0; 1; 1; 0; 1] < 6.
Proof.
  apply (tabulate_raises 6 [0; 1; 0; 1] [0; 0; 1; 1; 0; 1] 2 2);
    repeat constructor.
Defined.

(** X9. Every one of the first [nhaps] haplotypes is counted once: the
    cluster sizes add up to [nhaps], and every row of counts adds up to
    the size of its cluster. *)
Theorem tabulate_conserves nhaps (oclust valleles : list nat) maxclustplus maxalleleplus
    counts clustsize :
  tabulate nhaps oclust valleles maxclustplus maxalleleplus = Some (counts, clustsize) →
  sum_list clustsize = nhaps ∧
  Forall2 (λ x z, sum_list x = z) counts clustsize.
Proof.
  unfold tabulate. revert counts clustsize.
  induction nhaps as [|k IH]; intros counts clustsize H.
  - cbn [seq foldlM] in H. injection H as <- <-. split.
    + rewrite sum_list_replicate. lia.
    + apply Forall2_replicate. rewrite sum_list_replicate. lia.
  - rewrite seq_S, foldlM_app in H. cbn [Nat.add] in H.
    destruct (foldlM _ (seq 0 k) _) as [[c1 s1]|] eqn:Hk; [|discriminate].
    cbn [mbind option_bind foldlM] in H.
    destruct (IH c1 s1 eq_refl) as [Hsum Hrows].
    unfold tabulate_step in H.
    destruct (oclust !! k) as [c|]; [|discriminate]. cbn [mbind option_bind] in H.
    destruct (c1 !! c) as [row|] eqn:Hrow; [|discriminate].
    cbn [mbind option_bind] in H.
    destruct (valleles !! k) as [a|]; [|discriminate]. cbn [mbind option_bind] in H.
    destruct (row !! a) as [k0|] eqn:Hk0; [|discriminate].
    cbn [mbind option_bind] in H.
    destruct (s1 !! c) as [z0|] eqn:Hz0; [|discriminate].
    cbn [mbind option_bind] in H. injection H as <- <-.
    pose proof (sum_list_insert s1 c z0 (S z0) Hz0) as Hs.
    pose proof (sum_list_insert row a k0 (S k0) Hk0) as Hr.
    pose proof (Forall2_lookup_lr _ _ _ _ _ _ Hrows Hrow Hz0) as Hrz. cbv beta in Hrz.
    split; [lia|].
    apply Forall2_insert; [exact Hrows|]. lia.
Qed.

Lemma tabulate_conserves_witness :
  sum_list [3; 1] = 4 ∧
  Forall2 (λ x z, sum_list x = z) [[2; 1]; [0; 1]] [3; 1].
Proof.
  apply (tabulate_conserves 4 [0; 1; 0; 0] [0; 1; 1; 0] 2 2). reflexivity.
Defined.

End TabulateErrors.

(** ** Runs that raise nothing *)

Module NoRaise.
Import Py Gcs PyFacts ClusterFacts CollapseFacts TabulateFacts RunFacts TabulateErrors.

(** A loop whose body raises nothing raises nothing. *)
Lemma foldlM_total {A S} (f : S → A → option S) (l : list A) :
  (∀ s a, is_Some (f s a)) → ∀ s, is_Some (foldlM f l s).
Proof.
  intros Hf. induction l as [|a l IH]; intros s; cbn [foldlM]; [eauto|].
  destruct (Hf s a) as [s' ->]. cbn [mbind option_bind]. apply IH.
Qed.

Lemma cluster_body_total nindiv (valleles oclust : list nat) pos o jxz :
  length valleles = 2 * nindiv → length oclust ≤ length valleles →
  is_Some (cluster_body nindiv valleles oclust pos o jxz).
Proof.
  intros Hlen Hle. destruct jxz as [[j x] z].
  destruct (Nat.lt_ge_cases z minclustsize) as [Hz|Hz].
  { rewrite skip_small by assumption. eauto. }
  destruct (Nat.le_gt_cases (sum_bool (map (λ y, minpartsize <=? y) x)) 1) as [Hx|Hx].
  { rewrite skip_unmixed by assumption. eauto. }
  destruct (homozygous_total nindiv valleles oclust j Hlen Hle) as [hz Hhz].
  destruct (cluster_body_eval nindiv valleles oclust pos o j x z hz Hhz Hz ltac:(lia))
    as (a0 & a1 & others & _ & ->).
  eauto.
Qed.

(** X10. [print_gcs] raises nothing when [valleles] has two entries per
    individual and the cluster record has no more entries than it,
    whatever the table it is given. *)
Theorem print_gcs_total nindiv (valleles oclust : list nat) counts pos clustsize o :
  length valleles = 2 * nindiv → length oclust ≤ length valleles →
  is_Some (print_gcs nindiv valleles oclust counts pos clustsize o).
Proof.
  intros Hlen Hle. unfold print_gcs. apply foldlM_total.
  intros s a. apply cluster_body_total; assumption.
Qed.

Lemma print_gcs_total_witness :
  is_Some (print_gcs 4 [0; 0; 1; 1; 0; 1; 1; 0] [0; 0; 0; 0; 0; 1; 2; 3]
             [[3; 2]; [0; 1]; [0; 1]; [1; 0]] 100 [5; 1; 1; 1] outs0).
Proof.
  apply (print_gcs_total 4 [0; 0; 1; 1; 0; 1; 1; 0] [0; 0; 0; 0; 0; 1; 2; 3]
           [[3; 2]; [0; 1]; [0; 1]; [1; 0]] 100 [5; 1; 1; 1] outs0).
  - reflexivity.
  - cbn. lia.
Defined.

Lemma allelefreqs_of_total n (valleles : list nat) m :
  n ≠ 0 → ∃ fs, allelefreqs_of n valleles m = Some fs ∧ length fs = m.
Proof.
  intros Hn. unfold allelefreqs_of.
  destruct (mapM (λ i, truediv (sum_bool (map (λ x, x =? i) valleles)) n) (seq 0 m))
    as [fs|] eqn:Hfs.
  - exists fs. split; [reflexivity|]. apply length_mapM in Hfs.
    rewrite length_seq in Hfs. congruence.
  - exfalso. assert (H : is_Some (mapM (λ i, truediv (sum_bool (map (λ x, x =? i) valleles)) n)
                                       (seq 0 m))).
    { apply mapM_is_Some_2. apply List.Forall_forall. intros i _. unfold truediv.
      destruct (Nat.eqb_spec n 0); [contradiction|eauto]. }
    rewrite Hfs in H. destruct H; discriminate.
Qed.

Lemma valleles_below_max (valleles : list nat) :
  Forall (λ a, a < max_list (remove_dups valleles) + 1) valleles.
Proof.
  apply List.Forall_forall. intros a Ha.
  assert (a ≤ max_list (remove_dups valleles)); [|lia].
  apply max_list_elem_of_le. apply elem_of_remove_dups.
  apply list_elem_of_In. exact Ha.
Qed.

(** The filter raises nothing on a line with alleles, and what it hands
    on is sized by the largest allele code. *)
Lemma frequency_filter_total cfg (valleles : list nat) :
  valleles ≠ [] → n cfg ≠ 0 →
  ∃ vd, frequency_filter cfg valleles = Some vd ∧
        ∀ a b c, vd = Keep a b c →
                 b = max_list (remove_dups valleles) + 1 ∧ length c = b.
Proof.
  intros Hne Hn. unfold frequency_filter.
  destruct (length (remove_dups valleles) =? 1).
  { eexists. split; [reflexivity|]. intros a b c [=]. }
  unfold allele_stats.
  assert (Hmax : max_nat (remove_dups valleles)
                 = Some (max_list (remove_dups valleles))).
  { destruct valleles as [|a l]; [contradiction|].
    destruct (remove_dups (a :: l)) as [|y r] eqn:Hr; [|reflexivity].
    assert (Ha : a ∈ remove_dups (a :: l)) by (apply elem_of_remove_dups; left).
    rewrite Hr in Ha. inversion Ha. }
  rewrite Hmax. cbn [mbind option_bind].
  destruct (allelefreqs_of_total (n cfg) valleles
              (max_list (remove_dups valleles) + 1) Hn) as (fs & -> & Hfs).
  cbn [mbind option_bind].
  destruct fs as [|f fs]; [cbn [length] in Hfs; lia|].
  cbn [max_float mbind option_bind].
  destruct (fgt _ maxmaf).
  { eexists. split; [reflexivity|]. intros a b c [=]. }
  destruct (flt _ (minaf cfg)).
  { eexists. split; [reflexivity|]. intros a b c [=]. }
  eexists. split; [reflexivity|]. intros a b c [= <- <- <-]. split; [reflexivity|exact Hfs].
Qed.

Lemma oclust_below_max (oclust : list nat) :
  Forall (λ c, c < max_list oclust + 1) oclust.
Proof.
  apply List.Forall_forall. intros c Hc.
  assert (c ≤ max_list oclust); [|lia].
  apply max_list_elem_of_le. apply list_elem_of_In. exact Hc.
Qed.

(** The analysis of a kept variant raises nothing when the chosen cluster
    line and the VCF line both have one column per individual. *)
Lemma analyse_total cfg othis pos (valleles : list nat) nalleles allelefreqs o :
  nindiv cfg ≠ 0 → nhaps cfg = n cfg →
  length (ocols othis) = nindiv cfg → length valleles = n cfg →
  length allelefreqs = max_list (remove_dups valleles) + 1 →
  is_Some (analyse cfg othis pos valleles nalleles
             (max_list (remove_dups valleles) + 1) allelefreqs o).
Proof.
  intros Hni Hnh Hcols Hval Hfs. unfold analyse.
  pose proof (oclust_of_length othis) as Hol. rewrite Hcols in Hol.
  assert (Hmax : max_nat (oclust_of othis) = Some (max_list (oclust_of othis))).
  { destruct (oclust_of othis); [cbn [length] in Hol; lia|reflexivity]. }
  rewrite Hmax. cbn [mbind option_bind].
  destruct (tabulate_prefix_total (oclust_of othis) valleles
              (max_list (oclust_of othis) + 1) (max_list (remove_dups valleles) + 1)
              (nhaps cfg) (oclust_below_max _) (valleles_below_max _))
    as [[counts clustsize] Htab].
  { unfold n in *. lia. }
  { unfold n in *. lia. }
  unfold tabulate. rewrite Htab. cbn [mbind option_bind].
  destruct (tabulate_shape _ _ _ _ _ _ _ Htab) as (_ & Hrows & _).
  destruct (collapse_rare_rows (minaf cfg) nalleles allelefreqs
              (max_list (remove_dups valleles) + 1) counts Hfs Hrows)
    as (counts' & -> & _).
  cbn [mbind option_bind].
  unfold print_gcs. apply foldlM_total. intros s a.
  apply cluster_body_total; unfold n in *; lia.
Qed.

Lemma advance_keeps (P : orec → Prop) pos : ∀ rest oprev onew p c rest',
  Sync.advance pos oprev onew rest = (p, c, rest') →
  P oprev → P onew → Forall P rest →
  P p ∧ P c ∧ Forall P rest'.
Proof.
  induction rest as [|r rest IH]; intros oprev onew p c rest' H Hp Hc Hr;
    cbn [Sync.advance] in H; destruct (opos onew <? pos)%Z.
  - injection H as <- <- <-. auto.
  - injection H as <- <- <-. auto.
  - inversion Hr; subst. eapply IH; eauto.
  - injection H as <- <- <-. auto.
Qed.

(** The body of the variant loop raises nothing on a VCF line that has
    every sample column, when every cluster line has one column per
    sample; the buffers stay on such lines. *)
Lemma process_variant_total cfg st v :
  vindex cfg ≠ [] → nhaps cfg = n cfg →
  Forall (λ i, i < length (vcols v)) (vindex cfg) →
  Forall (λ r, length (ocols r) = nindiv cfg) (oprev st :: onew st :: omibdfile st) →
  ∃ st', process_variant cfg st v = Some st' ∧
         Forall (λ r, length (ocols r) = nindiv cfg)
                (oprev st' :: onew st' :: omibdfile st').
Proof.
  intros Hne Hnh Hcols Hrec. unfold process_variant, Sync.sync.
  destruct (Sync.advance (vpos v) (oprev st) (onew st) (omibdfile st))
    as [[p c] rest'] eqn:Hadv.
  inversion Hrec as [|? ? Hp Hrec']; subst. inversion Hrec' as [|? ? Hc Hr]; subst.
  destruct (advance_keeps _ _ _ _ _ _ _ _ Hadv Hp Hc Hr) as (Hp' & Hc' & Hr').
  assert (Hni : nindiv cfg ≠ 0).
  { unfold nindiv. destruct (vindex cfg); [contradiction|cbn; lia]. }
  assert (Hv : is_Some (valleles_of (vindex cfg) v)).
  { unfold valleles_of.
    assert (Hm : is_Some (mapM (λ i, vcols v !! i) (vindex cfg))).
    { apply mapM_is_Some_2. eapply Forall_impl; [exact Hcols|].
      cbv beta. intros i Hi. apply lookup_lt_is_Some_2. exact Hi. }
    destruct Hm as [gs ->]. cbn [mbind option_bind]. eauto. }
  destruct Hv as [valleles Hv]. rewrite Hv. cbn [mbind option_bind].
  pose proof (FilterFacts.valleles_of_length _ _ _ Hv) as Hlen.
  assert (Hvne : valleles ≠ []).
  { intros ->. cbn [length] in Hlen. unfold nindiv in Hni. lia. }
  destruct (frequency_filter_total cfg valleles Hvne ltac:(unfold n; lia))
    as (vd & -> & Hkeep).
  cbn [mbind option_bind].
  destruct vd as [r|nalleles maxalleleplus allelefreqs].
  - eexists. split; [reflexivity|]. cbn. auto.
  - destruct (Hkeep _ _ _ eq_refl) as [-> Hfs].
    assert (Hsel : length (ocols (Sync.select (vpos v) p c)) = nindiv cfg).
    { unfold Sync.select. destruct (_ <? _)%Z; assumption. }
    destruct (analyse_total cfg (Sync.select (vpos v) p c) (vpos v) valleles nalleles
                allelefreqs (outputs st) Hni Hnh Hsel) as [o ->]; [exact Hlen|exact Hfs|].
    cbn [mbind option_bind]. eexists. split; [reflexivity|]. cbn. auto.
Qed.

(** A run raises nothing when every line of the cluster file has one
    column per sample and every data line of the VCF has all the sample
    columns that [vindex] points at, the list of samples not being
    empty. *)
Lemma main_loop_total minaf (vindex : list nat) first rest vlines :
  vindex ≠ [] →
  Forall (λ r, length (ocols r) = length vindex) (first :: rest) →
  Forall (λ v, Forall (λ i, i < length (vcols v)) vindex) vlines →
  is_Some (main_loop (start minaf vindex first rest).1
                     (start minaf vindex first rest).2 vlines).
Proof.
  intros Hne Hrec Hv. cbn [start fst snd]. unfold main_loop.
  set (cfg := mk_config minaf vindex (2 * length (ocols first))).
  assert (Hnh : nhaps cfg = n cfg).
  { cbn. inversion Hrec; subst. unfold n, nindiv. cbn. lia. }
  assert (Hst : Forall (λ r, length (ocols r) = nindiv cfg)
                       (oprev (mk_state first first rest outs0)
                        :: onew (mk_state first first rest outs0)
                        :: omibdfile (mk_state first first rest outs0))).
  { cbn. inversion Hrec; subst. constructor; assumption. }
  generalize dependent (mk_state first first rest outs0).
  induction Hv as [|v vlines Hcols Hv IH]; intros st Hst; cbn [foldlM]; [eauto|].
  destruct (process_variant_total cfg st v Hne Hnh Hcols Hst) as (st' & -> & Hst').
  cbn [mbind option_bind]. apply IH. exact Hst'.
Qed.

(** X11. With no sample in the first line of the cluster file, the first data
    line of the VCF raises: the set of its alleles is empty and has no
    maximum. *)
Theorem no_sample_raises cfg st v :
  vindex cfg = [] → process_variant cfg st v = None.
Proof.
  intros Hnil. unfold process_variant, Sync.sync.
  destruct (Sync.advance _ _ _ _) as [[p c] rest'].
  unfold valleles_of. rewrite Hnil. reflexivity.
Qed.

Lemma no_sample_raises_witness :
  let first := mk_orec 100 [] in
  process_variant (mk_config f_zero [] 0) (mk_state first first [] outs0)
                  (mk_vrec 100 [(0, 1)]) = None.
Proof.
  intros first.
  apply (no_sample_raises (mk_config f_zero [] 0) (mk_state first first [] outs0)
           (mk_vrec 100 [(0, 1)])).
  reflexivity.
Defined.

End NoRaise.

(** ** The samples of the two files *)

Module SetupFacts.
Import Py Gcs Setup.

Lemma index_first (thisid : string) (vids : list string) : ∀ i,
  index thisid vids = Some i ↔
  vids !! i = Some thisid ∧ ∀ i', i' < i → vids !! i' ≠ Some thisid.
Proof.
  induction vids as [|vid vids IH]; intros i; cbn [index].
  - split; [discriminate|]. intros [H _]. discriminate.
  - destruct (String.eqb_spec vid thisid) as [->|Hne].
    + split.
      * intros [= <-]. split; [reflexivity|]. intros i' Hi'. lia.
      * intros [Hi Hfirst]. destruct i as [|i]; [reflexivity|].
        exfalso. apply (Hfirst 0); [lia|reflexivity].
    + split.
      * intros H. destruct (index thisid vids) as [i0|]; [|discriminate].
        cbn [mbind option_bind] in H. injection H as <-.
        destruct (proj1 (IH i0) eq_refl) as [Hi Hfirst]. split; [exact Hi|].
        intros [|i'] Hi'; cbn [lookup list_lookup].
        -- intros [= ->]. contradiction.
        -- apply Hfirst. lia.
      * intros [Hi Hfirst]. destruct i as [|i].
        -- cbn in Hi. injection Hi as ->. contradiction.
        -- cbn [lookup list_lookup] in Hi.
           assert (Hi' : index thisid vids = Some i).
           { apply IH. split; [exact Hi|]. intros i' Hlt. apply (Hfirst (S i')). lia. }
           rewrite Hi'. reflexivity.
Qed.

Lemma index_absent (thisid : string) (vids : list string) :
  index thisid vids = None ↔ ¬ In thisid vids.
Proof.
  induction vids as [|vid vids IH]; cbn [index In]; [tauto|].
  destruct (String.eqb_spec vid thisid) as [->|Hne].
  - split; [discriminate|]. intros H. exfalso. apply H. left; reflexivity.
  - destruct (index thisid vids) as [i0|]; cbn [mbind option_bind].
    + split; [discriminate|]. intros H. exfalso.
      assert (Hn : ¬ In thisid vids) by tauto. apply IH in Hn. discriminate.
    + split; [|reflexivity]. intros _ [H|H]; [contradiction|].
      apply (proj1 IH eq_refl). exact H.
Qed.

(** X12. What [vindex] holds for each sample of the cluster file: the first
    column of the VCF header that carries the sample's name. *)
Theorem vindex_of_first_match (ids vids : list string) (vindex : list nat) :
  vindex_of ids vids = Some vindex →
  Forall2 (λ thisid i, vids !! i = Some thisid ∧
                       ∀ i', i' < i → vids !! i' ≠ Some thisid) ids vindex.
Proof.
  intros H. unfold vindex_of in H. apply mapM_Some_1 in H.
  eapply Forall2_impl; [exact H|]. cbv beta. intros thisid i Hi.
  apply index_first. exact Hi.
Qed.

Lemma vindex_of_first_match_witness :
  vindex_of ["s2"; "s0"] ["s0"; "s1"; "s2"; "s0"] = Some [2; 0] ∧
  Forall2 (λ thisid i, ["s0"; "s1"; "s2"; "s0"] !! i = Some thisid ∧
                       ∀ i', i' < i → ["s0"; "s1"; "s2"; "s0"] !! i' ≠ Some thisid)
          ["s2"; "s0"] [2; 0].
Proof.
  split; [reflexivity|].
  apply (vindex_of_first_match ["s2"; "s0"] ["s0"; "s1"; "s2"; "s0"] [2; 0]).
  reflexivity.
Defined.

(** X13. Line 29 raises (ValueError) exactly when a sample of the cluster
    file is not named in the VCF header. *)
Theorem vindex_of_raises (ids vids : list string) :
  vindex_of ids vids = None ↔ ∃ thisid, In thisid ids ∧ ¬ In thisid vids.
Proof.
  unfold vindex_of. induction ids as [|x ids IH].
  - split; [discriminate|]. intros (thisid & [] & _).
  - cbn [mapM]. destruct (index x vids) as [i|] eqn:Hx; cbn [mbind option_bind].
    + destruct (mapM (λ thisid, index thisid vids) ids) as [k|];
        cbn [mbind option_bind mret option_ret].
      * split; [discriminate|]. intros (thisid & [<-|Hin] & Hno).
        -- apply index_absent in Hno. congruence.
        -- assert (Hnone : @None (list nat) = None) by reflexivity.
           exfalso. destruct IH as [_ IH].
           specialize (IH (ex_intro _ thisid (conj Hin Hno))). discriminate.
      * split; [|reflexivity]. intros _.
        destruct (proj1 IH eq_refl) as (thisid & Hin & Hno).
        exists thisid. split; [right; exact Hin|exact Hno].
    + split; [|reflexivity]. intros _. exists x. split; [left; reflexivity|].
      apply index_absent. exact Hx.
Qed.

Lemma valleles_of_inv (vindex : list nat) (v : vrec) (valleles : list nat) :
  valleles_of vindex v = Some valleles →
  ∃ gs, Forall2 (λ i g, vcols v !! i = Some g) vindex gs ∧
        valleles = map fst gs ++ map snd gs.
Proof.
  unfold valleles_of. intros H.
  destruct (mapM (λ i, vcols v !! i) vindex) as [gs|] eqn:Hgs; [|discriminate].
  cbn [mbind option_bind] in H. injection H as <-.
  exists gs. split; [|reflexivity]. apply mapM_Some_1. exact Hgs.
Qed.

(** X14. The alleles of the [k]-th sample of the cluster file are read from
    the first VCF column whose header names that sample: entry [k] of
    [valleles] is the first allele of that column and entry [len(ids)+k]
    the second. *)
Theorem sample_genotype (ids vids : list string) (vindex : list nat) (v : vrec)
    (valleles : list nat) k thisid :
  vindex_of ids vids = Some vindex →
  valleles_of vindex v = Some valleles →
  ids !! k = Some thisid →
  ∃ i a b,
    vids !! i = Some thisid ∧ (∀ i', i' < i → vids !! i' ≠ Some thisid) ∧
    vcols v !! i = Some (a, b) ∧
    valleles !! k = Some a ∧ valleles !! (length ids + k) = Some b.
Proof.
  intros Hvi Hva Hk.
  pose proof (Hall := mapM_Some_1 _ _ _ Hvi).
  destruct (Forall2_lookup_l _ _ _ _ _ Hall Hk) as (i & Hi & Hidx).
  apply index_first in Hidx as [Hname Hfirst].
  destruct (valleles_of_inv _ _ _ Hva) as (gs & Hgs & ->).
  destruct (Forall2_lookup_l _ _ _ _ _ Hgs Hi) as ([a b] & Hg & Hcol).
  exists i, a, b. split; [exact Hname|]. split; [exact Hfirst|]. split; [exact Hcol|].
  pose proof (Forall2_length _ _ _ Hall) as Hl1.
  pose proof (Forall2_length _ _ _ Hgs) as Hl2.
  split.
  - rewrite lookup_app_l by (rewrite length_map; eapply lookup_lt_Some; exact Hg).
    rewrite list_lookup_fmap, Hg. reflexivity.
  - rewrite lookup_app_r by (rewrite length_map; lia).
    rewrite length_map. replace (length ids + k - length gs) with k by lia.
    rewrite list_lookup_fmap, Hg. reflexivity.
Qed.

Lemma sample_genotype_witness :
  let v := mk_vrec 100 [(0, 1); (2, 3); (4, 5)] in
  ∃ i a b,
    ["s0"; "s1"; "s2"] !! i = Some "s2" ∧
    (∀ i', i' < i → ["s0"; "s1"; "s2"] !! i' ≠ Some "s2") ∧
    vcols v !! i = Some (a, b) ∧
    [4; 0; 5; 1] !! 0 = Some a ∧ [4; 0; 5; 1] !! (length ["s2"; "s0"] + 0) = Some b.
Proof.
  intros v.
  apply (sample_genotype ["s2"; "s0"] ["s0"; "s1"; "s2"] [2; 0] v [4; 0; 5; 1] 0 "s2");
    reflexivity.
Defined.

(** X15. On files whose lines parse: when the cluster file names at least
    one sample, every sample it names is in the VCF header, every data
    line of the cluster file has one column per sample and every data
    line of the VCF has at least as many sample fields as the header,
    line 29 and the loop over the data lines of the VCF raise nothing,
    unless the cluster file has no data line while the VCF has one,
    where line 89 raises on the first data line of the VCF. *)
Theorem run_raises_nothing minaf (ids vids : list string) ofile vlines :
  ids ≠ [] →
  Forall (λ thisid, In thisid vids) ids →
  Forall (λ r, length (ocols r) = length ids) ofile →
  Forall (λ v, length vids ≤ length (vcols v)) vlines →
  ∃ vindex,
    vindex_of ids vids = Some vindex ∧
    (is_Some (run_files minaf vindex ofile vlines) ↔ ofile ≠ [] ∨ vlines = []).
Proof.
  intros Hne Hin Hrec Hv.
  assert (Hsome : is_Some (vindex_of ids vids)).
  { unfold vindex_of. apply mapM_is_Some_2. eapply Forall_impl; [exact Hin|].
    cbv beta. intros thisid Hid. cbv [compose].
    destruct (index thisid vids) as [i|] eqn:Hi; [eauto|].
    apply index_absent in Hi. contradiction. }
  destruct Hsome as [vindex Hvi]. exists vindex. split; [exact Hvi|].
  pose proof (mapM_Some_1 _ _ _ Hvi) as Hall.
  pose proof (Forall2_length _ _ _ Hall) as Hlen.
  assert (Hrange : Forall (λ i, i < length vids) vindex).
  { apply List.Forall_forall. intros i Hi. apply list_elem_of_In in Hi.
    apply list_elem_of_lookup in Hi as [k Hk].
    destruct (Forall2_lookup_r _ _ _ _ _ Hall Hk) as (thisid & _ & Hidx).
    apply index_first in Hidx as [Hname _]. eapply lookup_lt_Some. exact Hname. }
  destruct ofile as [|first rest].
  - destruct vlines as [|v vlines]; cbn [run_files].
    + split; [intros _; right; reflexivity|intros _; eauto].
    + split; [intros [o Ho]; discriminate|intros [H|H]; [contradiction|discriminate]].
  - split; [intros _; left; discriminate|intros _].
    destruct (NoRaise.main_loop_total minaf vindex first rest vlines) as [st Hst].
    + intros ->. destruct ids; [contradiction|discriminate].
    + eapply Forall_impl; [exact Hrec|]. cbv beta. intros r Hr. lia.
    + eapply Forall_impl; [exact Hv|]. cbv beta. intros v Hle.
      eapply Forall_impl; [exact Hrange|]. cbv beta. intros i Hi. lia.
    + cbn [run_files start]. cbn [start fst snd] in Hst. rewrite Hst.
      cbn [mbind option_bind]. eauto.
Qed.

Lemma run_raises_nothing_witness :
  let tenth := S754_finite false 7205759403792794 (-56) in
  let first := mk_orec 100 [(0, 1); (0, 1)] in
  let second := mk_orec 200 [(0, 0); (0, 0)] in
  let vlines := [mk_vrec 120 [(0, 0); (0, 1); (1, 1)];
                 mk_vrec 250 [(1, 1); (1, 0); (0, 0); (0, 0)]] in
  run_files tenth [1; 0] [] vlines = None ∧
  ∃ vindex,
    vindex_of ["s1"; "s0"] ["s0"; "s1"; "s2"] = Some vindex ∧
    (is_Some (run_files tenth vindex [first; second] vlines)
     ↔ [first; second] ≠ [] ∨ vlines = []).
Proof.
  intros tenth first second vlines. split; [reflexivity|].
  apply (run_raises_nothing tenth ["s1"; "s0"] ["s0"; "s1"; "s2"] [first; second] vlines).
  - discriminate.
  - repeat constructor; cbn; tauto.
  - repeat constructor.
  - repeat constructor; cbn; lia.
Defined.

End SetupFacts.

(** ** The unused rephasing test *)

Module CorrectableFacts.
Import Py Gcs.

Lemma lookup_le_sum (l : list nat) : ∀ i y, l !! i = Some y → y ≤ sum_list l.
Proof.
  induction l as [|x l IH]; intros i y Hi; [discriminate|].
  destruct i as [|i]; simpl in *.
  - injection Hi as ->. lia.
  - specialize (IH i y Hi). lia.
Qed.

Lemma max_list_le_sum (l : list nat) : max_list l ≤ sum_list l.
Proof. induction l as [|x l IH]; simpl; lia. Qed.

Lemma sum_pos_entry (l : list nat) :
  sum_list l ≠ 0 → ∃ j b, l !! j = Some (S b).
Proof.
  induction l as [|x l IH]; simpl; intros H; [lia|].
  destruct x as [|x].
  - destruct (IH ltac:(lia)) as (j & b & Hj). exists (S j), b. exact Hj.
  - exists 0, x. reflexivity.
Qed.

(** The sum of a row differs from its maximum exactly when two of its
    entries are not zero. *)
Lemma mixed_row (l : list nat) :
  sum_list l ≠ max_list l ↔
  ∃ i j a b, i < j ∧ l !! i = Some (S a) ∧ l !! j = Some (S b).
Proof.
  induction l as [|x l IH].
  - simpl. split; [lia|]. intros (i & j & a & b & _ & H & _). discriminate.
  - pose proof (max_list_le_sum l) as Hle. destruct x as [|x].
    + change (sum_list (0 :: l)) with (sum_list l).
      change (max_list (0 :: l)) with (max_list l).
      rewrite IH. split.
      * intros (i & j & a & b & Hij & Hi & Hj).
        exists (S i), (S j), a, b. repeat split; [lia|exact Hi|exact Hj].
      * intros (i & j & a & b & Hij & Hi & Hj).
        destruct i as [|i]; [discriminate|]. destruct j as [|j]; [lia|].
        exists i, j, a, b. repeat split; [lia|exact Hi|exact Hj].
    + simpl. split.
      * intros Hne. destruct (sum_pos_entry l ltac:(lia)) as (j & b & Hj).
        exists 0, (S j), x, b. repeat split; [lia|exact Hj].
      * intros (i & j & a & b & Hij & Hi & Hj).
        destruct j as [|j]; [lia|]. cbn [lookup list_lookup] in Hj.
        apply lookup_le_sum in Hj. lia.
Qed.

(** X16. [is_correctable] looks at the cluster of the other haplotype of the
    individual and answers [True] exactly when two or more alleles have
    a count that is not zero in the row of that cluster. *)
Theorem is_correctable_mixed nindiv (oclust : list nat) (counts : list (list nat))
    hapindex answer :
  is_correctable nindiv oclust counts hapindex = Some answer →
  ∃ otherclust thiscounts,
    oclust !! (if hapindex <? nindiv then hapindex + nindiv else hapindex - nindiv)
    = Some otherclust ∧
    counts !! otherclust = Some thiscounts ∧
    (answer = true ↔
     ∃ i j a b, i < j ∧ thiscounts !! i = Some (S a) ∧ thiscounts !! j = Some (S b)).
Proof.
  unfold is_correctable. intros H.
  destruct (oclust !! _) as [c|] eqn:Hc; [|discriminate]. cbn [mbind option_bind] in H.
  destruct (counts !! c) as [row|] eqn:Hrow; [|discriminate].
  cbn [mbind option_bind] in H.
  destruct (max_nat row) as [mx|] eqn:Hmx; [|discriminate].
  cbn [mbind option_bind] in H. injection H as <-.
  exists c, row. split; [reflexivity|]. split; [exact Hrow|].
  assert (mx = max_list row) as ->.
  { destruct row; [discriminate|]. injection Hmx as <-. reflexivity. }
  rewrite <- mixed_row, negb_true_iff, Nat.eqb_neq. reflexivity.
Qed.

Lemma is_correctable_mixed_witness :
  ∃ otherclust thiscounts,
    [0; 0; 1; 1] !! (if 0 <? 2 then 0 + 2 else 0 - 2) = Some otherclust ∧
    [[2; 0]; [1; 1]] !! otherclust = Some thiscounts ∧
    (true = true ↔
     ∃ i j a b, i < j ∧ thiscounts !! i = Some (S a) ∧ thiscounts !! j = Some (S b)).
Proof.
  apply (is_correctable_mixed 2 [0; 0; 1; 1] [[2; 0]; [1; 1]] 0 true). reflexivity.
Defined.

End CorrectableFacts.

(** ** Cluster ids and table rows *)

Module TruncationFacts.
Import Py Gcs.

Lemma zip3_take {B C} (n : nat) : ∀ s (b : list B) (c : list C),
  zip3 (seq s n) b c = zip3 (seq s n) (take n b) (take n c).
Proof.
  induction n as [|n IH]; intros s b c; [reflexivity|].
  destruct b as [|y b]; [reflexivity|]. destruct c as [|z c]; [reflexivity|].
  cbn [seq take zip3]. f_equal. apply IH.
Qed.

(** X17. [print_gcs] looks at the rows of the table whose cluster id is below
    the number of haplotypes of the cluster line and at no other: a
    cluster whose id is [len(oclust)] or more is never examined. *)
Theorem print_gcs_ignores_high_ids nindiv (valleles oclust : list nat)
    (counts : list (list nat)) pos (clustsize : list nat) o :
  print_gcs nindiv valleles oclust counts pos clustsize o
  = print_gcs nindiv valleles oclust (take (length oclust) counts) pos
              (take (length oclust) clustsize) o.
Proof. unfold print_gcs. rewrite zip3_take. reflexivity. Qed.

End TruncationFacts.

(** ** The loop and the synchronizer *)

Module LoopFacts.
Import Py Gcs.

(** X18. What the run writes depends on the cluster file only through the
    record that the synchronizer, run on the positions alone, chooses for
    each data line: a variant that is skipped moves the buffers as a kept
    one does. *)
Theorem main_loop_run cfg (vlines : list vrec) : ∀ st st',
  main_loop cfg st vlines = Some st' →
  let othiss := Sync.run (map vpos vlines) (oprev st) (onew st) (omibdfile st) in
  length othiss = length vlines ∧
  foldlM (λ o '(v, othis),
            valleles ← valleles_of (vindex cfg) v;
            vd ← frequency_filter cfg valleles;
            match vd with
            | Skip _ => Some o
            | Keep nalleles maxalleleplus allelefreqs =>
                analyse cfg othis (vpos v) valleles nalleles maxalleleplus allelefreqs o
            end)
         (zip vlines othiss) (outputs st)
  = Some (outputs st').
Proof.
  unfold main_loop.
  induction vlines as [|v vlines IH]; intros st st' H; cbn [foldlM] in H.
  - injection H as <-. split; reflexivity.
  - destruct (process_variant cfg st v) as [st1|] eqn:Hp; [|discriminate].
    cbn [mbind option_bind] in H. specialize (IH st1 st' H).
    unfold process_variant in Hp. cbn [map Sync.run].
    destruct (Sync.sync (vpos v) (oprev st) (onew st) (omibdfile st))
      as [othis [[p c] rest]].
    cbn [zip zip_with length foldlM].
    destruct (valleles_of (vindex cfg) v) as [valleles|]; [|discriminate].
    cbn [mbind option_bind] in Hp |- *.
    destruct (frequency_filter cfg valleles) as [vd|]; [|discriminate].
    cbn [mbind option_bind] in Hp |- *.
    destruct vd as [r|nalleles maxalleleplus allelefreqs].
    + injection Hp as <-. cbn [oprev onew omibdfile outputs] in IH.
      destruct IH as [IH1 IH2]. split; [f_equal; exact IH1|exact IH2].
    + destruct (analyse cfg othis (vpos v) valleles nalleles maxalleleplus allelefreqs
                  (outputs st)) as [o|]; [|discriminate].
      cbn [mbind option_bind] in Hp |- *. injection Hp as <-.
      cbn [oprev onew omibdfile outputs] in IH.
      destruct IH as [IH1 IH2]. split; [f_equal; exact IH1|exact IH2].
Qed.

Lemma main_loop_run_witness :
  let tenth := S754_finite false 7205759403792794 (-56) in
  let first := mk_orec 100 [(0, 1); (0, 1); (0, 1); (0, 1); (0, 1)] in
  let second := mk_orec 200 [(0, 0); (0, 0); (0, 0); (0, 0); (0, 0)] in
  let cfg := (start tenth [0; 1; 2; 3; 4] first [second]).1 in
  let st := (start tenth [0; 1; 2; 3; 4] first [second]).2 in
  let vlines := [mk_vrec 120 [(0, 0); (0, 0); (0, 0); (0, 1); (0, 1)];
                 mk_vrec 250 [(1, 1); (1, 1); (1, 1); (1, 1); (1, 1)]] in
  let st' := mk_state second second []
               (mk_outs ("120 3 2 0:1 1:1 2:1 3:1 4:1 " +:+ nl) "" 0 {[5 := 1]}) in
  Sync.run (map vpos vlines) first first [second] = [first; second] ∧
  let othiss := Sync.run (map vpos vlines) (oprev st) (onew st) (omibdfile st) in
  length othiss = length vlines ∧
  foldlM (λ o '(v, othis),
            valleles ← valleles_of (vindex cfg) v;
            vd ← frequency_filter cfg valleles;
            match vd with
            | Skip _ => Some o
            | Keep nalleles maxalleleplus allelefreqs =>
                analyse cfg othis (vpos v) valleles nalleles maxalleleplus allelefreqs o
            end)
         (zip vlines othiss) (outputs st)
  = Some (outputs st').
Proof.
  intros tenth first second cfg st vlines st'. split; [reflexivity|].
  apply (main_loop_run cfg vlines st st'). reflexivity.
Defined.

End LoopFacts.

(** ** A lower bound that is not above zero *)

Module LowerBoundFacts.
Import Py Gcs FloatFacts FilterFacts.

(** X19. A [minaf] that is not above zero (zero of either sign, a negative
    number, or a NaN) switches the lower bound off: every variant with
    more than one allele is kept. *)
Theorem nonpositive_minaf_keeps cfg v (valleles : list nat) :
  valleles_of (vindex cfg) v = Some valleles →
  vindex cfg ≠ [] →
  (Z.of_nat (n cfg) < 9007199254740992)%Z →
  flt f_zero (minaf cfg) = false →
  length (remove_dups valleles) ≠ 1 →
  ∃ maxalleleplus allelefreqs,
    frequency_filter cfg valleles
    = Some (Keep (length (remove_dups valleles)) maxalleleplus allelefreqs).
Proof.
  intros Hv Hne Hn Hmin Hpoly.
  pose proof (valleles_of_length _ _ _ Hv) as Hlen.
  assert (Hvne : valleles ≠ []).
  { intros ->. cbn [length] in Hlen. destruct (vindex cfg); [contradiction|].
    cbn [length] in Hlen. lia. }
  destruct (allele_stats_below_one (n cfg) valleles Hvne Hlen Hn)
    as (maxalleleplus & allelefreqs & maf & Hstats & _ & Hmaf).
  exists maxalleleplus, allelefreqs.
  destruct (below_one_lt maf Hmaf) as [_ Hgt].
  unfold frequency_filter.
  destruct (Nat.eqb_spec (length (remove_dups valleles)) 1); [contradiction|].
  rewrite Hstats. cbn [mbind option_bind]. unfold maxmaf. rewrite Hgt.
  assert (Hlt : flt maf (minaf cfg) = false).
  { destruct Hmaf as [->|(m & e & -> & _)]; [exact Hmin|].
    revert Hmin. unfold flt, SFltb, SFcompare, f_zero.
    destruct (minaf cfg) as [s|s| |s m' e']; try reflexivity;
      destruct s; first [reflexivity|discriminate]. }
  rewrite Hlt. reflexivity.
Qed.

Lemma nonpositive_minaf_keeps_witness :
  let cfg := mk_config (S754_zero false) [0; 1; 2] 6 in
  ∃ maxalleleplus allelefreqs,
    frequency_filter cfg [0; 0; 0; 0; 0; 1]
    = Some (Keep (length (remove_dups [0; 0; 0; 0; 0; 1])) maxalleleplus allelefreqs).
Proof.
  intros cfg.
  apply (nonpositive_minaf_keeps cfg (mk_vrec 100 [(0, 0); (0, 0); (0, 1)])
           [0; 0; 0; 0; 0; 1]).
  - reflexivity.
  - discriminate.
  - vm_compute. reflexivity.
  - reflexivity.
  - vm_compute. lia.
Defined.

End LowerBoundFacts.

(** ** What a report says about its cluster *)

Module ReportFacts.
Import Py Gcs PyFacts ClusterFacts CollapseFacts TabulateFacts.

Lemma some_not_homozygous {A} (R : A → bool → Prop) (l : list A) (hz : list bool) :
  Forall2 R l hz → forallb (λ b, b) hz = false → Exists (λ h, R h false) l.
Proof.
  induction 1 as [|h b l hz Hh Hrest IH]; cbn [forallb]; [discriminate|].
  destruct b; cbn [andb].
  - intros H. right. apply IH. exact H.
  - intros _. left. exact Hh.
Qed.

(** A table entry above one that survives lines 118-123 is the entry
    that the tabulation wrote. *)
Lemma collapsed_entry minaf nalleles allelefreqs maxalleleplus
    (counts counts' : list (list nat)) j x0 x a y :
  length allelefreqs = maxalleleplus →
  Forall (λ r, length r = maxalleleplus) counts →
  collapse_rare minaf nalleles allelefreqs maxalleleplus counts = Some counts' →
  counts !! j = Some x0 → counts' !! j = Some x →
  x !! a = Some y → 1 < y → x0 !! a = Some y.
Proof.
  intros Hfs Hrows Hcol Hx0 Hx Ha Hy.
  destruct (collapse_rare_rows minaf nalleles allelefreqs maxalleleplus counts Hfs Hrows)
    as (counts'' & Hcol' & _ & Hsame & Hzero).
  rewrite Hcol in Hcol'. injection Hcol' as <-.
  destruct ((2 <? nalleles) && (2 <? sum_bool (map (λ f, fgt f f_zero) allelefreqs)))
    eqn:Hmulti.
  - destruct (Hzero eq_refl j x0 Hx0) as (x' & Hx' & Hlen & Hent).
    rewrite Hx in Hx'. injection Hx' as <-.
    assert (Hlt : a < length allelefreqs).
    { apply lookup_lt_Some in Ha. pose proof (Forall_lookup_1 _ _ _ _ Hrows Hx0) as Hl.
      cbv beta in Hl. lia. }
    destruct (lookup_lt_is_Some_2 allelefreqs a Hlt) as [f Hf].
    specialize (Hent a f Hf). rewrite Ha in Hent.
    destruct (flt f minaf); [injection Hent as ->; lia|symmetry; exact Hent].
  - rewrite (Hsame eq_refl) in Hx. rewrite Hx0 in Hx. injection Hx as <-. exact Ha.
Qed.

(** X20. Every report is about a cluster of four haplotypes or more, names
    two subclusters of two haplotypes or more each, and is written only
    when some haplotype of the cluster belongs to a heterozygous
    individual. The table is the one that the tabulation builds on
    aligned files and that lines 118-123 may have cleared of rare
    alleles. *)
Theorem reported_subclusters minaf nalleles allelefreqs nindiv (valleles oclust : list nat)
    maxclustplus maxalleleplus counts clustsize counts' pos o j x z o' :
  tabulate (length oclust) oclust valleles maxclustplus maxalleleplus
  = Some (counts, clustsize) →
  collapse_rare minaf nalleles allelefreqs maxalleleplus counts = Some counts' →
  length allelefreqs = maxalleleplus →
  counts' !! j = Some x → clustsize !! j = Some z →
  cluster_body nindiv valleles oclust pos o (j, x, z) = Some o' →
  out o' ≠ out o →
  let members := indices_where (λ c, c =? j) oclust in
  let sub := λ a, List.filter (λ h, match valleles !! h with
                                    | Some b => b =? a
                                    | None => false
                                    end) members in
  ∃ a0 a1 others,
    indices_where (λ c, 1 <? c) x = a0 :: a1 :: others ∧
    z = length members ∧ 4 ≤ z ∧
    2 ≤ length (sub a0) ∧ 2 ≤ length (sub a1) ∧
    out o' = out o +:+ report_line pos (length (sub a0)) (length (sub a1))
                         (map (λ h, str_nat ((2 * h) mod length oclust / 2) +:+ ":"
                                    +:+ str_nat (2 * h / length oclust))
                              (sub a0 ++ sub a1)) ∧
    Exists (λ h, is_homozygous nindiv valleles h = Some false) members.
Proof.
  intros Htab Hcol Hfs Hx Hz Hbody Hout members sub.
  destruct (tabulate_shape _ _ _ _ _ _ _ Htab) as (Hlc & Hrows & Hls).
  assert (Hj : j < maxclustplus) by (apply lookup_lt_Some in Hz; lia).
  unfold tabulate in Htab.
  destruct (tabulate_prefix oclust valleles maxclustplus maxalleleplus (length oclust)
              counts clustsize Htab j Hj) as (Hsize & x0 & Hx0 & Hcnt).
  rewrite Hz in Hsize. injection Hsize as Hsize.
  destruct (cluster_body_inv _ _ _ _ _ _ _ _ _ Hbody) as [->|(Hbig & Hmixed & hz & Hhz)];
    [contradiction|].
  destruct (cluster_body_eval nindiv valleles oclust pos o j x z hz Hhz Hbig Hmixed)
    as (a0 & a1 & others & Hcand & Heval).
  rewrite Heval in Hbody. apply (inj Some) in Hbody. cbv zeta in Hbody.
  destruct (forallb (λ b, b) hz) eqn:Hall.
  { exfalso. apply Hout. subst o'.
    destruct (2 <? _); reflexivity. }
  assert (Hsub : ∀ a, In a (indices_where (λ c, 1 <? c) x) → 2 ≤ length (sub a)).
  { intros a Ha. apply elem_of_indices_where in Ha as (y & Hy & Hgt).
    apply Nat.ltb_lt in Hgt.
    pose proof (collapsed_entry minaf nalleles allelefreqs maxalleleplus counts counts'
                  j x0 x a y Hfs Hrows Hcol Hx0 Hx Hy Hgt) as Hy0.
    assert (Ham : a < maxalleleplus).
    { apply lookup_lt_Some in Hy0. pose proof (Forall_lookup_1 _ _ _ _ Hrows Hx0) as Hl.
      cbv beta in Hl. lia. }
    rewrite (Hcnt a Ham) in Hy0. injection Hy0 as Hy0.
    subst sub members. cbv beta. unfold indices_where at 1.
    rewrite length_filter_filter. lia. }
  exists a0, a1, others. split; [exact Hcand|].
  split; [exact Hsize|]. split; [exact Hbig|].
  split; [apply Hsub; rewrite Hcand; left; reflexivity|].
  split; [apply Hsub; rewrite Hcand; right; left; reflexivity|].
  split.
  - subst o'. destruct (2 <? _); reflexivity.
  - apply (some_not_homozygous (λ h b, is_homozygous nindiv valleles h = Some b)
             members hz); [|exact Hall].
    apply mapM_Some_1. exact Hhz.
Qed.

Lemma reported_subclusters_witness :
  let valleles := [0; 0; 0; 0; 0; 0; 0; 0; 1; 1] in
  let oclust := [0; 0; 0; 0; 0; 1; 1; 1; 1; 1] in
  let members := indices_where (λ c, c =? 1) oclust in
  let sub := λ a, List.filter (λ h, match valleles !! h with
                                    | Some b => b =? a
                                    | None => false
                                    end) members in
  let o' := mk_outs ("120 3 2 0:1 1:1 2:1 3:1 4:1 " +:+ nl) "" 0 {[5 := 1]} in
  ∃ a0 a1 others,
    indices_where (λ c, 1 <? c) [3; 2] = a0 :: a1 :: others ∧
    5 = length members ∧ 4 ≤ 5 ∧
    2 ≤ length (sub a0) ∧ 2 ≤ length (sub a1) ∧
    out o' = out outs0 +:+ report_line 120 (length (sub a0)) (length (sub a1))
                         (map (λ h, str_nat ((2 * h) mod length oclust / 2) +:+ ":"
                                    +:+ str_nat (2 * h / length oclust))
                              (sub a0 ++ sub a1)) ∧
    Exists (λ h, is_homozygous 5 valleles h = Some false) members.
Proof.
  intros valleles oclust members sub o'.
  apply (reported_subclusters (S754_finite false 7205759403792794 (-56)) 2
           [S754_finite false 7205759403792794 (-53);
            S754_finite false 7205759403792794 (-55)]
           5 valleles oclust 2 2 [[5; 0]; [3; 2]] [5; 5] [[5; 0]; [3; 2]] 120 outs0
           1 [3; 2] 5 o').
  - reflexivity.
  - reflexivity.
  - reflexivity.
  - reflexivity.
  - reflexivity.
  - reflexivity.
  - discriminate.
Defined.

End ReportFacts.

(** ** What one call of [print_gcs] writes *)

Module AccountFacts.
Import Py Gcs PyFacts StrFacts ClusterFacts.

(** [sum(acclustsizes.values())] *)
Local Abbreviation total m := (map_fold (λ (_ : nat) (v s : nat), v + s) 0 m).

(** The cluster is large enough and has two candidate alleles or more;
    it has three or more. *)
Local Abbreviation qualifies :=
  (λ jxz : nat * list nat * nat,
     (minclustsize <=? jxz.2)
     && (2 <=? sum_bool (map (λ y, minpartsize <=? y) jxz.1.2))).
Local Abbreviation crowded :=
  (λ jxz : nat * list nat * nat,
     (minclustsize <=? jxz.2)
     && (3 <=? sum_bool (map (λ y, minpartsize <=? y) jxz.1.2))).

Lemma counter_update_total (k : nat) (m : gmap nat nat) :
  total (counter_update k m) = S (total m).
Proof.
  unfold counter_update.
  assert (Hcomm : ∀ z1 z2 y : nat, z1 + (z2 + y) = z2 + (z1 + y)) by (intros; lia).
  destruct (m !! k) as [v|] eqn:Hk; cbn [default from_option id].
  - rewrite <- insert_delete_eq.
    rewrite map_fold_insert_L; [|intros; apply Hcomm|apply lookup_delete_eq].
    rewrite (map_fold_delete_L _ _ k v m); [lia|intros; apply Hcomm|exact Hk].
  - rewrite map_fold_insert_L; [lia|intros; apply Hcomm|exact Hk].
Qed.

Lemma concat_cons (s : string) (l : list string) :
  String.concat "" (s :: l) = s +:+ String.concat "" l.
Proof.
  destruct l as [|t l]; cbn [String.concat]; [symmetry; apply append_empty_r|reflexivity].
Qed.

(** What one pass of the body of [print_gcs] does to the four outputs. *)
Lemma cluster_body_accounts nindiv (valleles oclust : list nat) pos o jxz o' :
  cluster_body nindiv valleles oclust pos o jxz = Some o' →
  err o' = err o +:+ (if crowded jxz then diag_alleles pos else "") ∧
  ((qualifies jxz = false ∧ out o' = out o ∧ ndel o' = ndel o ∧
    acclustsizes o' = acclustsizes o) ∨
   (qualifies jxz = true ∧ out o' = out o ∧ ndel o' = S (ndel o) ∧
    acclustsizes o' = acclustsizes o) ∨
   (qualifies jxz = true ∧ ndel o' = ndel o ∧
    ∃ n0 n1 ids size,
      out o' = out o +:+ report_line pos n0 n1 ids ∧
      acclustsizes o' = counter_update size (acclustsizes o))).
Proof.
  destruct jxz as [[j x] z]. cbn [fst snd]. intros Hbody.
  destruct (Nat.lt_ge_cases z minclustsize) as [Hz|Hz].
  { rewrite skip_small in Hbody by assumption. injection Hbody as <-.
    destruct (Nat.leb_spec minclustsize z); [lia|]. cbn [andb].
    rewrite append_empty_r. split; [reflexivity|]. left. auto. }
  destruct (Nat.le_gt_cases (sum_bool (map (λ y, minpartsize <=? y) x)) 1) as [Hx|Hx].
  { rewrite skip_unmixed in Hbody by assumption. injection Hbody as <-.
    destruct (Nat.leb_spec 2 (sum_bool (map (λ y, minpartsize <=? y) x))); [lia|].
    destruct (Nat.leb_spec 3 (sum_bool (map (λ y, minpartsize <=? y) x))); [lia|].
    rewrite !andb_false_r, append_empty_r. split; [reflexivity|]. left. auto. }
  destruct (cluster_body_inv _ _ _ _ _ _ _ _ _ Hbody) as [->|(_ & _ & hz & Hhz)].
  - exfalso. unfold cluster_body in Hbody.
    destruct (Nat.ltb_spec z minclustsize); [lia|].
    destruct (Nat.leb_spec (sum_bool (map (λ y, minpartsize <=? y) x)) 1); [lia|].
    destruct (mapM _ _) as [hz|]; [|discriminate]. cbn [mbind option_bind] in Hbody.
    unfold deletion in Hbody. cbn [andb] in Hbody.
    destruct (forallb _ hz).
    + injection Hbody as Hbody. apply (f_equal ndel) in Hbody.
      destruct (2 <? _) in Hbody; cbn in Hbody; lia.
    + destruct (which _ _ _ 0); [|discriminate]. cbn [mbind option_bind] in Hbody.
      destruct (which _ _ _ 1); [|discriminate]. cbn [mbind option_bind] in Hbody.
      destruct (mapM _ l); [|discriminate]. cbn [mbind option_bind] in Hbody.
      destruct (mapM _ l0); [|discriminate]. cbn [mbind option_bind] in Hbody.
      destruct (mapM _ (_ ++ _)); [|discriminate]. cbn [mbind option_bind] in Hbody.
      injection Hbody as Hbody. apply (f_equal acclustsizes) in Hbody.
      cbn [acclustsizes update_sizes] in Hbody.
      apply (f_equal (λ m, total m)) in Hbody. cbv beta in Hbody.
      rewrite counter_update_total in Hbody.
      destruct (2 <? _) in Hbody; cbn [print_out print_err acclustsizes] in Hbody; lia.
  - destruct (cluster_body_eval nindiv valleles oclust pos o j x z hz Hhz Hz ltac:(lia))
      as (a0 & a1 & others & _ & Heval).
    rewrite Heval in Hbody. apply (inj Some) in Hbody. cbv zeta in Hbody.
    destruct (Nat.leb_spec minclustsize z); [|lia].
    destruct (Nat.leb_spec 2 (sum_bool (map (λ y, minpartsize <=? y) x))); [|lia].
    cbn [andb].
    assert (Hcrowd : (3 <=? sum_bool (map (λ y, minpartsize <=? y) x))
                     = (2 <? sum_bool (map (λ y, minpartsize <=? y) x))).
    { destruct (Nat.leb_spec 3 (sum_bool (map (λ y, minpartsize <=? y) x))),
        (Nat.ltb_spec 2 (sum_bool (map (λ y, minpartsize <=? y) x)));
        first [reflexivity|lia]. }
    rewrite Hcrowd. subst o'.
    destruct (forallb (λ b, b) hz); destruct (2 <? _);
      cbn [err out ndel acclustsizes incr_ndel print_err print_out update_sizes];
      rewrite ?append_empty_r; (split; [reflexivity|]).
    + right; left. auto.
    + right; left. auto.
    + right; right. split; [reflexivity|]. split; [reflexivity|].
      do 4 eexists. split; reflexivity.
    + right; right. split; [reflexivity|]. split; [reflexivity|].
      do 4 eexists. split; reflexivity.
Qed.

Lemma rows_accounts nindiv (valleles oclust : list nat) pos
    (rows : list (nat * list nat * nat)) : ∀ o o',
  foldlM (cluster_body nindiv valleles oclust pos) rows o = Some o' →
  ∃ (lines : list string) (deleted : nat),
    out o' = out o +:+ String.concat "" lines ∧
    Forall (λ l, ∃ n0 n1 ids, l = report_line pos n0 n1 ids) lines ∧
    ndel o' = ndel o + deleted ∧
    total (acclustsizes o') = total (acclustsizes o) + length lines ∧
    length lines + deleted = length (List.filter qualifies rows) ∧
    err o' = err o +:+ String.concat ""
                         (replicate (length (List.filter crowded rows))
                                    (diag_alleles pos)).
Proof.
  induction rows as [|r rows IH]; intros o o' H; cbn [foldlM] in H.
  - injection H as <-. exists [], 0. cbn [String.concat List.filter length replicate].
    rewrite !append_empty_r. repeat split; first [constructor|lia].
  - destruct (cluster_body nindiv valleles oclust pos o r) as [o1|] eqn:Hr; [|discriminate].
    cbn [mbind option_bind] in H.
    destruct (IH o1 o' H) as (lines & deleted & Hout & Hlines & Hdel & Htot & Hcount & Herr).
    destruct (cluster_body_accounts _ _ _ _ _ _ _ Hr) as [Herr1 Hcases].
    assert (Herr' : err o' = err o +:+ String.concat ""
                      (replicate (length (List.filter crowded (r :: rows)))
                                 (diag_alleles pos))).
    { rewrite Herr, Herr1. cbn [List.filter]. destruct (crowded r).
      - cbn [length replicate]. rewrite concat_cons. apply append_assoc.
      - rewrite append_empty_r. reflexivity. }
    cbn [List.filter].
    destruct Hcases as [(Hq & Ho & Hn & Ha)|[(Hq & Ho & Hn & Ha)|
                        (Hq & Hn & n0 & n1 & ids & size & Ho & Ha)]]; rewrite Hq.
    + exists lines, deleted. rewrite Hout, Ho, Hdel, Hn, Htot, Ha.
      repeat split; first [assumption|lia].
    + exists lines, (S deleted). rewrite Hout, Ho, Hdel, Hn, Htot, Ha.
      cbn [length]. repeat split; first [assumption|lia].
    + exists (report_line pos n0 n1 ids :: lines), deleted.
      rewrite Hout, Ho, Hdel, Hn, Htot, Ha, counter_update_total, concat_cons.
      cbn [length]. repeat split; first [assumption|lia|apply append_assoc|idtac].
      constructor; [eauto|assumption].
Qed.

(** X21. One call of [print_gcs] accounts for every row of the table that it
    examines: each cluster of four haplotypes or more with two candidate
    alleles or more gives either one report on stdout, with one update
    of the size counter, or one count of a deletion, never both and never
    neither; no other row writes anything; and stderr receives one
    diagnostic for each such cluster with three candidate alleles or
    more, and nothing else. *)
Theorem print_gcs_accounts nindiv (valleles oclust : list nat) counts pos clustsize o o' :
  print_gcs nindiv valleles oclust counts pos clustsize o = Some o' →
  let rows := zip3 (seq 0 (length oclust)) counts clustsize in
  ∃ (lines : list string) (deleted : nat),
    out o' = out o +:+ String.concat "" lines ∧
    Forall (λ l, ∃ n0 n1 ids, l = report_line pos n0 n1 ids) lines ∧
    ndel o' = ndel o + deleted ∧
    total (acclustsizes o') = total (acclustsizes o) + length lines ∧
    length lines + deleted = length (List.filter qualifies rows) ∧
    err o' = err o +:+ String.concat ""
                         (replicate (length (List.filter crowded rows))
                                    (diag_alleles pos)).
Proof. intros H rows. exact (rows_accounts _ _ _ _ _ _ _ H). Qed.

Lemma print_gcs_accounts_witness :
  let valleles := [0; 0; 0; 0; 0; 0; 0; 0; 1; 1] in
  let oclust := [0; 0; 0; 0; 0; 1; 1; 1; 1; 1] in
  let o' := mk_outs ("120 3 2 0:1 1:1 2:1 3:1 4:1 " +:+ nl) "" 0 {[5 := 1]} in
  let rows := zip3 (seq 0 (length oclust)) [[5; 0]; [3; 2]] [5; 5] in
  print_gcs 5 valleles oclust [[5; 0]; [3; 2]] 120 [5; 5] outs0 = Some o' ∧
  ∃ (lines : list string) (deleted : nat),
    out o' = out outs0 +:+ String.concat "" lines ∧
    Forall (λ l, ∃ n0 n1 ids, l = report_line 120 n0 n1 ids) lines ∧
    ndel o' = ndel outs0 + deleted ∧
    total (acclustsizes o') = total (acclustsizes outs0) + length lines ∧
    length lines + deleted = length (List.filter qualifies rows) ∧
    err o' = err outs0 +:+ String.concat ""
                             (replicate (length (List.filter crowded rows))
                                        (diag_alleles 120)).
Proof.
  intros valleles oclust o' rows. split; [reflexivity|].
  apply (print_gcs_accounts 5 valleles oclust [[5; 0]; [3; 2]] 120 [5; 5] outs0 o').
  reflexivity.
Defined.

End AccountFacts.

(** ** The clusters that [print_gcs] examines *)

Module ExaminedFacts.
Import Py Gcs PyFacts StrFacts ClusterFacts TabulateFacts RunFacts NoRaise AccountFacts.

(** The haplotypes of cluster [j], the candidate alleles of a row, the
    members of cluster [j] that carry allele [a], the identity printed
    for haplotype [h] and the number of candidate alleles of a row. *)
Local Abbreviation members oclust j := (indices_where (λ c, c =? j) oclust).
Local Abbreviation candidates x := (indices_where (λ c, 1 <? c) x).
Local Abbreviation carriers valleles oclust j a :=
  (List.filter (λ h, match valleles !! h with Some b => b =? a | None => false end)
               (members oclust j)).
Local Abbreviation ident nh :=
  (λ h, str_nat ((2 * h) mod nh / 2) +:+ ":" +:+ str_nat (2 * h / nh)).
Local Abbreviation npart x := (sum_bool (map (λ y, minpartsize <=? y) x)).

(** The rows that the loop of [print_gcs] runs over (line 53). *)
Local Abbreviation rows oclust counts clustsize :=
  (zip3 (seq 0 (length oclust)) counts clustsize).

(** The call of [print_gcs] from [o] reaches the row of cluster [j] with
    the outputs [o1], leaves it with [o2] and ends with [o']. *)
Local Abbreviation examines nindiv valleles oclust counts pos clustsize o j x z o1 o2 o' :=
  (foldlM (cluster_body nindiv valleles oclust pos)
          (take j (rows oclust counts clustsize)) o = Some o1 ∧
   cluster_body nindiv valleles oclust pos o1 (j%nat, x, z) = Some o2 ∧
   foldlM (cluster_body nindiv valleles oclust pos)
          (drop (S j) (rows oclust counts clustsize)) o2 = Some o' ∧
   print_gcs nindiv valleles oclust counts pos clustsize o = Some o').

Lemma foldlM_at {A St} (f : St → A → option St) (l : list A) j a s :
  l !! j = Some a →
  foldlM f l s = (s1 ← foldlM f (take j l) s; s2 ← f s1 a; foldlM f (drop (S j) l) s2).
Proof.
  intros H. rewrite <- (take_drop_middle l j a H) at 1.
  rewrite foldlM_app. reflexivity.
Qed.

(** With the two files aligned, the loop of [print_gcs] runs its body on
    the row of every cluster whose id is below [len(oclust)]. *)
Lemma print_gcs_reaches nindiv (valleles oclust : list nat) counts pos clustsize o j x z :
  length valleles = 2 * nindiv → length oclust ≤ length valleles →
  j < length oclust → counts !! j = Some x → clustsize !! j = Some z →
  ∃ o1 o2 o', examines nindiv valleles oclust counts pos clustsize o j x z o1 o2 o'.
Proof.
  intros Hlen Hle Hj Hx Hz.
  assert (Hrow : rows oclust counts clustsize !! j = Some (j, x, z)).
  { apply zip3_seq_lookup. repeat split; assumption. }
  assert (Htot : ∀ s a, is_Some (cluster_body nindiv valleles oclust pos s a)).
  { intros s a. apply cluster_body_total; assumption. }
  destruct (foldlM_total _ (take j (rows oclust counts clustsize)) Htot o) as [o1 H1].
  destruct (Htot o1 (j, x, z)) as [o2 H2].
  destruct (foldlM_total _ (drop (S j) (rows oclust counts clustsize)) Htot o2) as [o' H3].
  exists o1, o2, o'. repeat split; try assumption.
  unfold print_gcs. rewrite (foldlM_at _ _ j (j, x, z) o Hrow), H1.
  cbn [mbind option_bind]. rewrite H2. exact H3.
Qed.

(** The loop only appends to the two channels and never lowers the
    deletion counter. *)
Lemma rows_grow nindiv (valleles oclust : list nat) pos l o o' :
  foldlM (cluster_body nindiv valleles oclust pos) l o = Some o' →
  (∃ s, err o' = err o +:+ s) ∧ (∃ s, out o' = out o +:+ s) ∧ ndel o ≤ ndel o'.
Proof.
  intros H.
  destruct (rows_accounts _ _ _ _ _ _ _ H) as (lines & deleted & Ho & _ & Hd & _ & _ & He).
  split; [eauto|]. split; [eauto|]. lia.
Qed.

(** C1 (amended). With the two files aligned, for every cluster that
    [print_gcs] examines (its id is below the number of haplotypes of the
    cluster line), of size at least 4 and with at least two candidate
    alleles: when every haplotype of the cluster, whatever allele it
    carries, belongs to a homozygous individual, the call of [print_gcs]
    raises nothing and passes through the row of the cluster, where the
    deletion counter goes up by exactly one, no report is written and the
    size counter is left alone; the call as a whole raises the deletion
    counter. *)
Theorem C1_all_members_homozygous nindiv (valleles oclust : list nat) counts pos
    clustsize o j x z :
  length valleles = 2 * nindiv → length oclust ≤ length valleles →
  j < length oclust → counts !! j = Some x → clustsize !! j = Some z →
  minclustsize ≤ z →
  2 ≤ npart x →
  Forall (λ h, is_homozygous nindiv valleles h = Some true) (members oclust j) →
  ∃ o1 o2 o',
    examines nindiv valleles oclust counts pos clustsize o j x z o1 o2 o' ∧
    ndel o2 = S (ndel o1) ∧ out o2 = out o1 ∧ err o2 = err o1 +:+
      (if 2 <? npart x then diag_alleles pos else "") ∧
    acclustsizes o2 = acclustsizes o1 ∧
    ndel o < ndel o'.
Proof.
  intros Hlen Hle Hj Hx Hz Hbig Hmixed Hall.
  destruct (print_gcs_reaches nindiv valleles oclust counts pos clustsize o j x z
              Hlen Hle Hj Hx Hz) as (o1 & o2 & o' & H1 & H2 & H3 & Hp).
  exists o1, o2, o'. split; [repeat split; assumption|].
  destruct (body_all_homozygous nindiv valleles oclust pos o1 j x z Hbig Hmixed Hall)
    as (o2' & H2' & Hn & Hout & Hacc).
  rewrite H2 in H2'. injection H2' as <-.
  split; [exact Hn|]. split; [exact Hout|]. split.
  - destruct (cluster_body_accounts _ _ _ _ _ _ _ H2) as [He _]. cbn [fst snd] in He.
    rewrite He. f_equal.
    destruct (Nat.leb_spec minclustsize z); [|lia]. cbn [andb].
    destruct (Nat.leb_spec 3 (npart x)), (Nat.ltb_spec 2 (npart x));
      first [reflexivity|lia].
  - split; [exact Hacc|].
    destruct (rows_grow _ _ _ _ _ _ _ H1) as (_ & _ & Hd1).
    destruct (rows_grow _ _ _ _ _ _ _ H3) as (_ & _ & Hd3). lia.
Qed.

Lemma C1_all_members_homozygous_witness :
  let valleles := [0; 0; 1; 1; 0; 0; 1; 1] in
  let oclust := [3; 3; 3; 3; 0; 1; 2; 4] in
  let counts := [[1; 0]; [1; 0]; [0; 1]; [2; 2]; [0; 1]] in
  let clustsize := [1; 1; 1; 4; 1] in
  tabulate 8 oclust valleles 5 2 = Some (counts, clustsize) ∧
  print_gcs 4 valleles oclust counts 100 clustsize outs0 = Some (mk_outs "" "" 1 ∅) ∧
  ∃ o1 o2 o',
    examines 4 valleles oclust counts 100 clustsize outs0 3 [2; 2] 4 o1 o2 o' ∧
    ndel o2 = S (ndel o1) ∧ out o2 = out o1 ∧ err o2 = err o1 +:+
      (if 2 <? npart [2; 2] then diag_alleles 100 else "") ∧
    acclustsizes o2 = acclustsizes o1 ∧
    ndel outs0 < ndel o'.
Proof.
  intros valleles oclust counts clustsize.
  split; [reflexivity|]. split; [reflexivity|].
  apply (C1_all_members_homozygous 4 valleles oclust counts 100 clustsize outs0
           3 [2; 2] 4).
  - reflexivity.
  - cbn. lia.
  - cbn. lia.
  - reflexivity.
  - reflexivity.
  - unfold minclustsize. lia.
  - vm_compute. lia.
  - vm_compute. repeat constructor.
Defined.

(** C6 (amended). With the two files aligned, for every cluster that
    [print_gcs] examines (its id is below the number of haplotypes of the
    cluster line) and whose size is at least 4, the call of [print_gcs]
    raises nothing and passes through the row of the cluster. When more
    than two alleles have a count of 2 or more there, the diagnostic line
    is written to stderr, where it stays until the end of the call, and
    the body goes on with the two candidate alleles of smallest code
    ([a0 < a1], every other candidate above [a1]): either every member
    is homozygous and the deletion counter goes up, or the report on the
    carriers of [a0] and [a1] is written to stdout, where it stays. With
    no or one candidate allele the row leaves everything as it was. *)
Theorem C6_more_than_two_candidates nindiv (valleles oclust : list nat) counts pos
    clustsize o j x z :
  length valleles = 2 * nindiv → length oclust ≤ length valleles →
  j < length oclust → counts !! j = Some x → clustsize !! j = Some z →
  minclustsize ≤ z →
  ∃ o1 o2 o',
    examines nindiv valleles oclust counts pos clustsize o j x z o1 o2 o' ∧
    (2 < npart x →
     err o2 = err o1 +:+ diag_alleles pos ∧
     (∃ before after, err o' = ((err o +:+ before) +:+ diag_alleles pos) +:+ after) ∧
     ∃ a0 a1 others hz,
       candidates x = a0 :: a1 :: others ∧
       a0 < a1 ∧ Forall (λ a, a1 < a) others ∧
       (∀ a, In a (candidates x) ↔ ∃ y, x !! a = Some y ∧ minpartsize ≤ y) ∧
       mapM (is_homozygous nindiv valleles) (members oclust j) = Some hz ∧
       if forallb (λ b, b) hz
       then out o2 = out o1 ∧ ndel o2 = S (ndel o1)
       else
         let sub0 := carriers valleles oclust j a0 in
         let sub1 := carriers valleles oclust j a1 in
         let line := report_line pos (length sub0) (length sub1)
                       (map (ident (length oclust)) (sub0 ++ sub1)) in
         ndel o2 = ndel o1 ∧
         out o2 = out o1 +:+ line ∧
         ∃ before after, out o' = ((out o +:+ before) +:+ line) +:+ after) ∧
    (npart x ≤ 1 → o2 = o1).
Proof.
  intros Hlen Hle Hj Hx Hz Hbig.
  destruct (print_gcs_reaches nindiv valleles oclust counts pos clustsize o j x z
              Hlen Hle Hj Hx Hz) as (o1 & o2 & o' & H1 & H2 & H3 & Hp).
  exists o1, o2, o'. split; [repeat split; assumption|].
  destruct (body_more_than_two_candidates nindiv valleles oclust pos o1 j x z
              Hlen Hle Hbig) as [Hmany Hfew].
  destruct (rows_grow _ _ _ _ _ _ _ H1) as ([e1 He1] & [s1 Hs1] & _).
  destruct (rows_grow _ _ _ _ _ _ _ H3) as ([e3 He3] & [s3 Hs3] & _).
  split.
  - intros Hx3.
    destruct (Hmany Hx3)
      as (o2' & a0 & a1 & others & hz & H2' & He & Hc & Hlt & Hoth & Hcand & Hhz & Hcase).
    rewrite H2 in H2'. injection H2' as <-.
    split; [exact He|]. split.
    { exists e1, e3. rewrite He3, He, He1. reflexivity. }
    exists a0, a1, others, hz.
    split; [exact Hc|]. split; [exact Hlt|]. split; [exact Hoth|].
    split; [exact Hcand|]. split; [exact Hhz|].
    destruct (forallb (λ b, b) hz); [exact Hcase|].
    cbv zeta in Hcase |- *. destruct Hcase as [Hn Hout].
    split; [exact Hn|]. split; [exact Hout|].
    exists s1, s3. rewrite Hs3, Hout, Hs1. reflexivity.
  - intros Hx1. specialize (Hfew Hx1). rewrite H2 in Hfew. injection Hfew as ->.
    reflexivity.
Qed.

Lemma C6_more_than_two_candidates_witness :
  let valleles := [0; 0; 1; 1; 2; 2] in
  let oclust := [0; 0; 0; 0; 0; 0] in
  tabulate 6 oclust valleles 1 3 = Some ([[2; 2; 2]], [6]) ∧
  print_gcs 3 valleles oclust [[2; 2; 2]] 7 [6] outs0
  = Some (mk_outs ("7 2 2 0:0 1:0 2:0 0:1 " +:+ nl)
                  ("more than two alleles in cluster at 7 printing first two" +:+ nl)
                  0 {[6 := 1]}) ∧
  ∃ o1 o2 o',
    examines 3 valleles oclust [[2; 2; 2]] 7 [6] outs0 0 [2; 2; 2] 6 o1 o2 o' ∧
    err o2 = err o1 +:+ diag_alleles 7 ∧
    ∃ before after, err o' = ((err outs0 +:+ before) +:+ diag_alleles 7) +:+ after.
Proof.
  intros valleles oclust. split; [reflexivity|]. split; [reflexivity|].
  destruct (C6_more_than_two_candidates 3 valleles oclust [[2; 2; 2]] 7 [6] outs0
              0 [2; 2; 2] 6) as (o1 & o2 & o' & Hex & Hmany & _).
  - reflexivity.
  - cbn. lia.
  - cbn. lia.
  - reflexivity.
  - reflexivity.
  - unfold minclustsize. lia.
  - exists o1, o2, o'. split; [exact Hex|].
    destruct Hmany as (He & Hfinal & _); [vm_compute; lia|].
    split; [exact He|exact Hfinal].
Defined.

(** C6, as worded, fails: a cluster whose id is the number of haplotypes
    of the cluster line or more is never examined. Three samples whose
    six haplotypes are all in cluster 6 carry three alleles twice each:
    the tabulation gives cluster 6 the size 6 and three candidate
    alleles, and [print_gcs] writes nothing at all. *)
Lemma C6_counterexample :
  ¬ (∀ nindiv (valleles oclust : list nat) maxclustplus maxalleleplus counts clustsize
       pos o o' j x z,
       length valleles = 2 * nindiv → length oclust ≤ length valleles →
       tabulate (length oclust) oclust valleles maxclustplus maxalleleplus
       = Some (counts, clustsize) →
       counts !! j = Some x → clustsize !! j = Some z →
       minclustsize ≤ z → 2 < npart x →
       print_gcs nindiv valleles oclust counts pos clustsize o = Some o' →
       err o' ≠ err o).
Proof.
  intros H.
  apply (H 3 [0; 1; 2; 0; 1; 2] [6; 6; 6; 6; 6; 6] 7 3
           [[0; 0; 0]; [0; 0; 0]; [0; 0; 0]; [0; 0; 0]; [0; 0; 0]; [0; 0; 0]; [2; 2; 2]]
           [0; 0; 0; 0; 0; 0; 6] 7%Z outs0 outs0 6 [2; 2; 2] 6);
    first [reflexivity | vm_compute; lia].
Qed.

End ExaminedFacts.

(** ** The two tests for a multiallelic variant *)

Module MultiallelicFacts.
Import Py Gcs FloatFacts FilterFacts.

Lemma count_pos_iff (a : nat) (l : list nat) :
  0 < sum_bool (map (λ x, x =? a) l) ↔ In a l.
Proof.
  split; [|apply sum_bool_pos].
  induction l as [|x l IH]; [cbn; lia|].
  unfold sum_bool in *. cbn [map List.filter].
  destruct (Nat.eqb_spec x a) as [->|Hne]; [intros _; left; reflexivity|].
  intros H. right. apply IH. exact H.
Qed.

Lemma sum_bool_map {A} (g : A → bool) (l : list A) :
  sum_bool (map g l) = length (List.filter g l).
Proof.
  unfold sum_bool. induction l as [|a l IH]; [reflexivity|].
  cbn [map List.filter]. destruct (g a); cbn [length]; rewrite IH; reflexivity.
Qed.

(** A quotient of counts is above zero exactly when the count is. *)
Lemma truediv_positive (c n : nat) f :
  c ≤ n → (Z.of_nat n < 9007199254740992)%Z →
  truediv c n = Some f → fgt f f_zero = (0 <? c).
Proof.
  intros Hc Hn. unfold truediv. destruct (Nat.eqb_spec n 0) as [|Hn0]; [discriminate|].
  intros [= <-]. destruct c as [|c].
  - rewrite of_int_zero.
    destruct (of_int_pos n ltac:(lia) Hn) as (p & m & _ & -> & _). reflexivity.
  - destruct (truediv_in_unit (S c) n ltac:(lia) Hn) as (m & e & -> & _). reflexivity.
Qed.

(** The codes below [m] that occur in [l] are as many as the distinct
    elements of [l], when all of these are below [m]. *)
Lemma distinct_below (l : list nat) (m : nat) :
  Forall (λ a, a < m) l →
  length (List.filter (λ i, 0 <? sum_bool (map (λ x, x =? i) l)) (seq 0 m))
  = length (remove_dups l).
Proof.
  intros Hall. apply Permutation_length. apply NoDup_Permutation.
  - apply NoDup_ListNoDup. apply List.NoDup_filter. apply seq_NoDup.
  - apply NoDup_remove_dups.
  - intros i. rewrite elem_of_remove_dups, !list_elem_of_In, filter_In, in_seq.
    rewrite Nat.ltb_lt, count_pos_iff. split; [tauto|].
    intros Hi. split; [|exact Hi]. rewrite List.Forall_forall in Hall.
    specialize (Hall i Hi). lia.
Qed.

(** What the filter computed when it keeps a variant. *)
Lemma frequency_filter_inv cfg (valleles : list nat) nalleles maxalleleplus allelefreqs :
  frequency_filter cfg valleles = Some (Keep nalleles maxalleleplus allelefreqs) →
  valleles ≠ [] ∧
  nalleles = length (remove_dups valleles) ∧
  maxalleleplus = max_list (remove_dups valleles) + 1 ∧
  allelefreqs_of (n cfg) valleles maxalleleplus = Some allelefreqs.
Proof.
  unfold frequency_filter. destruct (_ =? 1); [discriminate|].
  unfold allele_stats.
  destruct (max_nat (remove_dups valleles)) as [mx|] eqn:Hmx; [|discriminate].
  cbn [mbind option_bind].
  destruct (allelefreqs_of _ _ _) as [fs|] eqn:Hfs; [|discriminate].
  cbn [mbind option_bind].
  destruct (max_float fs) as [mf|]; [|discriminate]. cbn [mbind option_bind].
  destruct (fgt _ maxmaf); [discriminate|]. destruct (flt _ _); [discriminate|].
  intros [= <- <- <-].
  assert (Hmx' : mx = max_list (remove_dups valleles))
    by (destruct (remove_dups valleles); [discriminate|injection Hmx as <-; reflexivity]).
  subst mx. repeat split; [|exact Hfs].
  intros ->. discriminate.
Qed.

(** X22. The number of alleles with a frequency above zero is the number of
    distinct alleles of the line: the two tests of lines 118 and 119
    always agree, so the second never changes the outcome. *)
Theorem multiallelic_tests_agree cfg v (valleles : list nat) nalleles maxalleleplus
    allelefreqs :
  valleles_of (vindex cfg) v = Some valleles →
  (Z.of_nat (n cfg) < 9007199254740992)%Z →
  frequency_filter cfg valleles = Some (Keep nalleles maxalleleplus allelefreqs) →
  sum_bool (map (λ x, fgt x f_zero) allelefreqs) = nalleles ∧
  (2 <? nalleles) && (2 <? sum_bool (map (λ x, fgt x f_zero) allelefreqs))
  = (2 <? nalleles).
Proof.
  intros Hv Hn Hkeep.
  destruct (frequency_filter_inv _ _ _ _ _ Hkeep) as (Hne & -> & -> & Hfs).
  pose proof (valleles_of_length _ _ _ Hv) as Hlen. fold (nindiv cfg) in Hlen.
  fold (n cfg) in Hlen.
  assert (Hsum : sum_bool (map (λ x, fgt x f_zero) allelefreqs)
                 = length (remove_dups valleles)).
  { unfold allelefreqs_of in Hfs. apply mapM_Some_1 in Hfs.
    rewrite <- (distinct_below valleles (max_list (remove_dups valleles) + 1)).
    2:{ apply List.Forall_forall. intros a Ha.
        assert (a ≤ max_list (remove_dups valleles)); [|lia].
        apply max_list_elem_of_le, elem_of_remove_dups, list_elem_of_In, Ha. }
    rewrite <- (sum_bool_map (λ i, 0 <? sum_bool (map (λ x, x =? i) valleles))).
    f_equal. clear -Hfs Hlen Hn.
    induction Hfs as [|i f rest0 fs Hi _ IH]; [reflexivity|].
    cbn [map]. f_equal; [|exact IH].
    eapply truediv_positive; [|exact Hn|exact Hi].
    rewrite <- Hlen. rewrite <- (length_map (λ x, x =? i) valleles). apply sum_bool_le. }
  split; [exact Hsum|]. rewrite Hsum. apply andb_diag.
Qed.

Lemma multiallelic_tests_agree_witness :
  let tenth := S754_finite false 7205759403792794 (-56) in
  let cfg := mk_config tenth [0; 1; 2] 6 in
  let allelefreqs := [S754_finite false 6004799503160661 (-53);
                      S754_finite false 6004799503160661 (-55);
                      S754_finite false 6004799503160661 (-55)] in
  frequency_filter cfg [0; 0; 1; 0; 0; 2] = Some (Keep 3 3 allelefreqs) ∧
  sum_bool (map (λ x, fgt x f_zero) allelefreqs) = 3 ∧
  (2 <? 3) && (2 <? sum_bool (map (λ x, fgt x f_zero) allelefreqs)) = (2 <? 3).
Proof.
  intros tenth cfg allelefreqs. split; [reflexivity|].
  apply (multiallelic_tests_agree cfg (mk_vrec 100 [(0, 0); (0, 0); (1, 2)])
           [0; 0; 1; 0; 0; 2] 3 3 allelefreqs).
  - reflexivity.
  - vm_compute. reflexivity.
  - reflexivity.
Defined.

End MultiallelicFacts.

(** ** Files that do not match *)

Module MismatchFacts.
Import Py Gcs StrFacts AccountFacts.

(** A loop that raised nothing ran its body on every element. *)
Lemma foldlM_steps {A S} (f : S → A → option S) (l : list A) : ∀ s s',
  foldlM f l s = Some s' → Forall (λ a, ∃ s1, is_Some (f s1 a)) l.
Proof.
  induction l as [|a l IH]; intros s s' H; [constructor|].
  cbn [foldlM] in H. destruct (f s a) as [s1|] eqn:Ha; [|discriminate].
  cbn [mbind option_bind] in H. constructor; [|exact (IH s1 s' H)].
  exists s. rewrite Ha. eauto.
Qed.

Lemma tabulate_reads nhaps (oclust valleles : list nat) maxclustplus maxalleleplus acc :
  tabulate nhaps oclust valleles maxclustplus maxalleleplus = Some acc →
  nhaps ≤ length oclust ∧ nhaps ≤ length valleles.
Proof.
  unfold tabulate. intros H. apply foldlM_steps in H.
  destruct nhaps as [|k]; [lia|].
  rewrite List.Forall_forall in H.
  destruct (H k) as ([counts clustsize] & st & Hst).
  { apply in_seq. lia. }
  unfold tabulate_step in Hst.
  destruct (oclust !! k) as [c|] eqn:Hc; [|discriminate].
  cbn [mbind option_bind] in Hst.
  destruct (counts !! c); [|discriminate]. cbn [mbind option_bind] in Hst.
  destruct (valleles !! k) as [a|] eqn:Ha; [|discriminate].
  apply lookup_lt_Some in Hc, Ha. lia.
Qed.

(** X23. The diagnostic of line 110 is written exactly when the VCF line
    gives a number of alleles other than [nhaps], before anything else of
    the variant, and does not stop the analysis; an analysis that then
    completes had at least [nhaps] alleles and [nhaps] cluster ids to
    read, and stderr holds after it nothing but diagnostics of line 59. *)
Theorem mismatch_diagnosed cfg othis pos (valleles : list nat) nalleles maxalleleplus
    allelefreqs o o' :
  analyse cfg othis pos valleles nalleles maxalleleplus allelefreqs o = Some o' →
  nhaps cfg ≤ length valleles ∧ nhaps cfg ≤ length (oclust_of othis) ∧
  ∃ k,
    err o' = (err o +:+ (if length valleles =? nhaps cfg then "" else diag_mismatch))
             +:+ String.concat "" (replicate k (diag_alleles pos)).
Proof.
  unfold analyse. intros H.
  destruct (max_nat (oclust_of othis)) as [mc|]; [|discriminate].
  cbn [mbind option_bind] in H.
  destruct (tabulate _ _ _ _ _) as [[counts clustsize]|] eqn:Htab; [|discriminate].
  cbn [mbind option_bind] in H.
  destruct (collapse_rare _ _ _ _ _) as [counts'|]; [|discriminate].
  cbn [mbind option_bind] in H.
  destruct (tabulate_reads _ _ _ _ _ _ Htab) as [Ho Hv].
  split; [exact Hv|]. split; [exact Ho|].
  unfold print_gcs in H.
  destruct (rows_accounts _ _ _ _ _ _ _ H) as (_ & _ & _ & _ & _ & _ & _ & Herr).
  eexists. rewrite Herr. f_equal.
  destruct (length valleles =? nhaps cfg); cbn [negb print_err err];
    [rewrite append_empty_r|]; reflexivity.
Qed.

Lemma mismatch_diagnosed_witness :
  let tenth := S754_finite false 7205759403792794 (-56) in
  let cfg := mk_config tenth [0; 1; 2] 4 in
  let othis := mk_orec 100 [(0, 1); (0, 1); (0, 1)] in
  let freqs := [S754_finite false 6004799503160661 (-53);
                S754_finite false 6004799503160661 (-54)] in
  let o' := mk_outs "" diag_mismatch 0 ∅ in
  analyse cfg othis 100 [0; 0; 0; 0; 1; 1] 2 2 freqs outs0 = Some o' ∧
  4 ≤ length [0; 0; 0; 0; 1; 1] ∧ 4 ≤ length (oclust_of othis) ∧
  ∃ k,
    err o' = (err outs0 +:+ (if length [0; 0; 0; 0; 1; 1] =? 4 then "" else diag_mismatch))
             +:+ String.concat "" (replicate k (diag_alleles 100)).
Proof.
  intros tenth cfg othis freqs o'. split; [reflexivity|].
  apply (mismatch_diagnosed cfg othis 100 [0; 0; 0; 0; 1; 1] 2 2 freqs outs0 o').
  reflexivity.
Defined.

End MismatchFacts.

(** ** What a whole run writes *)

Module RunAccounts.
Import Py Gcs StrFacts AccountFacts.

(** [sum(acclustsizes.values())] *)
Local Abbreviation total m := (map_fold (λ (_ : nat) (v s : nat), v + s) 0 m).

Lemma concat_app (l1 l2 : list string) :
  String.concat "" (l1 ++ l2) = String.concat "" l1 +:+ String.concat "" l2.
Proof.
  induction l1 as [|s l1 IH]; [reflexivity|].
  cbn [app]. rewrite !concat_cons, IH. symmetry. apply append_assoc.
Qed.

(** What the analysis of one kept variant adds to stdout and to the two
    counters. *)
Lemma analyse_accounts cfg othis pos (valleles : list nat) nalleles maxalleleplus
    allelefreqs o o' :
  analyse cfg othis pos valleles nalleles maxalleleplus allelefreqs o = Some o' →
  ∃ (lines : list string) (deleted : nat),
    out o' = out o +:+ String.concat "" lines ∧
    Forall (λ l, ∃ n0 n1 ids, l = report_line pos n0 n1 ids) lines ∧
    ndel o' = ndel o + deleted ∧
    total (acclustsizes o') = total (acclustsizes o) + length lines.
Proof.
  unfold analyse. intros H.
  destruct (max_nat (oclust_of othis)) as [mc|]; [|discriminate].
  cbn [mbind option_bind] in H.
  destruct (tabulate _ _ _ _ _) as [[counts clustsize]|]; [|discriminate].
  cbn [mbind option_bind] in H.
  destruct (collapse_rare _ _ _ _ _) as [counts'|]; [|discriminate].
  cbn [mbind option_bind] in H. unfold print_gcs in H.
  destruct (rows_accounts _ _ _ _ _ _ _ H)
    as (lines & deleted & Hout & Hlines & Hdel & Htot & _ & _).
  exists lines, deleted.
  destruct (negb _) in Hout, Hdel, Htot;
    cbn [print_err out ndel acclustsizes] in Hout, Hdel, Htot; auto.
Qed.

(** X24. Over a whole run stdout receives report lines and nothing else, each
    for the position of a data line of the VCF and in the order of these
    lines; the size counter is updated once for each report line; and the
    deletion counter never goes down. *)
Theorem run_accounts cfg (vlines : list vrec) : ∀ st st',
  main_loop cfg st vlines = Some st' →
  ∃ reports : list (vrec * list string),
    sublist (map fst reports) vlines ∧
    Forall (λ r, Forall (λ l, ∃ n0 n1 ids, l = report_line (vpos r.1) n0 n1 ids) r.2)
           reports ∧
    out (outputs st')
    = out (outputs st) +:+ String.concat "" (concat (map snd reports)) ∧
    total (acclustsizes (outputs st'))
    = total (acclustsizes (outputs st)) + length (concat (map snd reports)) ∧
    ndel (outputs st) ≤ ndel (outputs st').
Proof.
  unfold main_loop.
  induction vlines as [|v vlines IH]; intros st st' H; cbn [foldlM] in H.
  - injection H as <-. exists []. cbn [map concat String.concat length].
    rewrite append_empty_r. repeat split; first [constructor|lia].
  - destruct (process_variant cfg st v) as [st1|] eqn:Hp; [|discriminate].
    cbn [mbind option_bind] in H.
    destruct (IH st1 st' H) as (reports & Hsub & Hall & Hout & Htot & Hdel).
    unfold process_variant in Hp.
    destruct (Sync.sync (vpos v) (oprev st) (onew st) (omibdfile st))
      as [othis [[p c] rest]].
    destruct (valleles_of (vindex cfg) v) as [valleles|]; [|discriminate].
    cbn [mbind option_bind] in Hp.
    destruct (frequency_filter cfg valleles) as [vd|]; [|discriminate].
    cbn [mbind option_bind] in Hp.
    destruct vd as [r|nalleles maxalleleplus allelefreqs].
    + injection Hp as <-. cbn [outputs] in Hout, Htot, Hdel.
      exists reports. split; [apply sublist_cons; exact Hsub|]. auto.
    + destruct (analyse cfg othis (vpos v) valleles nalleles maxalleleplus allelefreqs
                  (outputs st)) as [o|] eqn:Han; [|discriminate].
      cbn [mbind option_bind] in Hp. injection Hp as <-.
      cbn [outputs] in Hout, Htot, Hdel.
      destruct (analyse_accounts _ _ _ _ _ _ _ _ _ Han)
        as (lines & deleted & Ho & Hlines & Hd & Ht).
      exists ((v, lines) :: reports). cbn [map fst snd concat].
      split; [apply sublist_skip; exact Hsub|].
      split; [constructor; [exact Hlines|exact Hall]|].
      rewrite concat_app, length_app, Hout, Ho, Htot, Ht.
      split; [apply append_assoc|]. split; lia.
Qed.

Lemma run_accounts_witness :
  let tenth := S754_finite false 7205759403792794 (-56) in
  let first := mk_orec 100 [(0, 1); (0, 1); (0, 1); (0, 1); (0, 1)] in
  let second := mk_orec 200 [(0, 0); (0, 0); (0, 0); (0, 0); (0, 0)] in
  let cfg := (start tenth [0; 1; 2; 3; 4] first [second]).1 in
  let st := (start tenth [0; 1; 2; 3; 4] first [second]).2 in
  let vlines := [mk_vrec 120 [(0, 0); (0, 0); (0, 0); (0, 1); (0, 1)];
                 mk_vrec 250 [(1, 1); (1, 1); (1, 1); (1, 1); (1, 1)]] in
  let st' := mk_state second second []
               (mk_outs ("120 3 2 0:1 1:1 2:1 3:1 4:1 " +:+ nl) "" 0 {[5 := 1]}) in
  main_loop cfg st vlines = Some st' ∧
  ∃ reports : list (vrec * list string),
    sublist (map fst reports) vlines ∧
    Forall (λ r, Forall (λ l, ∃ n0 n1 ids, l = report_line (vpos r.1) n0 n1 ids) r.2)
           reports ∧
    out (outputs st')
    = out (outputs st) +:+ String.concat "" (concat (map snd reports)) ∧
    total (acclustsizes (outputs st'))
    = total (acclustsizes (outputs st)) + length (concat (map snd reports)) ∧
    ndel (outputs st) ≤ ndel (outputs st').
Proof.
  intros tenth first second cfg st vlines st'. split; [reflexivity|].
  apply (run_accounts cfg vlines st st'). reflexivity.
Defined.

End RunAccounts.
